(** * Gorror: template interpreter and declaration synthesizer

    A shallow embedding of [gorror.go].  Go strings are byte sequences and are
    modelled by [string] (a list of 8-bit [ascii] characters); runes are code
    points in [Z].  The generator's buffer, the log and the two ways a run can
    stop ([log.Fatal] and a runtime panic) are explicit. *)

From Stdlib Require Import List String Ascii ZArith Lia Bool Arith.
From Stdlib Require Import DecimalString Permutation Sorted.
Import ListNotations.
Open Scope string_scope.

Set Implicit Arguments.

(** ** Go strings *)

Module GoString.

Definition dq : string := String "034"%char EmptyString.
Definition nl : string := String "010"%char EmptyString.
Definition tab : string := String "009"%char EmptyString.

(** [s[:n]] and [s[n:]] for [n <= len(s)]. *)
Fixpoint take (n : nat) (s : string) : string :=
  match n, s with
  | S k, String c r => String c (take k r)
  | _, _ => EmptyString
  end.

Fixpoint drop (n : nat) (s : string) : string :=
  match n, s with
  | S k, String _ r => drop k r
  | _, _ => s
  end.

(** [len(s)], the number of bytes. *)
Definition len (s : string) : Z := Z.of_nat (String.length s).

(** strings.HasPrefix:
    [len(s) >= len(prefix) && s[0:len(prefix)] == prefix]. *)
Definition HasPrefix (s prefix : string) : bool :=
  (len prefix <=? len s)%Z && String.eqb (take (String.length prefix) s) prefix.

(** strings.TrimPrefix. *)
Definition TrimPrefix (s prefix : string) : string :=
  if HasPrefix s prefix then drop (String.length prefix) s else s.

(** strings.HasSuffix:
    [len(s) >= len(suffix) && s[len(s)-len(suffix):] == suffix]. *)
Definition HasSuffix (s suffix : string) : bool :=
  (len suffix <=? len s)%Z &&
  String.eqb (drop (String.length s - String.length suffix) s) suffix.

(** strings.TrimSuffix. *)
Definition TrimSuffix (s suffix : string) : string :=
  if HasSuffix s suffix
  then take (String.length s - String.length suffix) s
  else s.

(** [strings.Replace(s, old, new, 1)]: the first occurrence of [old] in [s],
    searched from the left, is replaced by [new]; [s] is returned as it is
    when [old] does not occur. *)
Fixpoint Replace1 (s old new : string) : string :=
  if HasPrefix s old then new ++ drop (String.length old) s
  else match s with
       | EmptyString => EmptyString
       | String c r => String c (Replace1 r old new)
       end.

(** Substring test, used to state properties of emitted text. *)
Fixpoint Contains (s sub : string) : bool :=
  if HasPrefix s sub then true
  else match s with
       | EmptyString => false
       | String _ r => Contains r sub
       end.

(** The strings of [l] one after the other. *)
Fixpoint join (l : list string) : string :=
  match l with
  | [] => EmptyString
  | x :: l' => x ++ join l'
  end.

End GoString.
Import GoString.

(** ** The fragment of RE2 syntax that [tmplRE] uses

    Literals, character classes under a greedy [+], a greedy [?], concatenation
    and capture groups.  [run r s] lists every way [r] matches a prefix of [s]
    in the order a backtracking matcher tries them, which is the preference
    order of Go's leftmost-first semantics; the first entry is the match. *)

Module Regexp.

Inductive item : Type :=
| Range (lo hi : ascii)
| Single (c : ascii).

Definition class := list item.

Definition code (c : ascii) : nat := nat_of_ascii c.

Definition inItem (c : ascii) (i : item) : bool :=
  match i with
  | Range lo hi => (code lo <=? code c)%nat && (code c <=? code hi)%nat
  | Single d => Ascii.eqb c d
  end.

Definition inClass (k : class) (c : ascii) : bool := existsb (inItem c) k.

Inductive re : Type :=
| Lit (s : string)
| Plus (k : class)
| Opt (r : re)
| Cat (r1 r2 : re)
| Group (r : re).

Fixpoint groups (r : re) : nat :=
  match r with
  | Lit _ | Plus _ => 0
  | Opt r => groups r
  | Cat r1 r2 => groups r1 + groups r2
  | Group r => S (groups r)
  end.

(** One way of matching: the matched text, the text of each capture group,
    and the unread rest. *)
Record hit : Type := Hit { text : string; caps : list string; rest : string }.

Definition consHit (c : ascii) (h : hit) : hit :=
  Hit (String c (text h)) (caps h) (rest h).

(** Greedy [k*]: the longest run first, the empty run last. *)
Fixpoint star (k : class) (s : string) : list hit :=
  match s with
  | String c r =>
      if inClass k c
      then map (consHit c) (star k r) ++ [Hit EmptyString [] s]
      else [Hit EmptyString [] s]
  | EmptyString => [Hit EmptyString [] s]
  end.

Definition plus (k : class) (s : string) : list hit :=
  match s with
  | String c r => if inClass k c then map (consHit c) (star k r) else []
  | EmptyString => []
  end.

Fixpoint run (r : re) (s : string) : list hit :=
  match r with
  | Lit l => if HasPrefix s l then [Hit l [] (drop (String.length l) s)] else []
  | Plus k => plus k s
  | Opt r => run r s ++ [Hit EmptyString (repeat EmptyString (groups r)) s]
  | Cat r1 r2 =>
      flat_map
        (fun h1 =>
           map (fun h2 => Hit (text h1 ++ text h2) (caps h1 ++ caps h2) (rest h2))
               (run r2 (rest h1)))
        (run r1 s)
  | Group r => map (fun h => Hit (text h) (text h :: caps h) (rest h)) (run r s)
  end.

(** The match that starts at the head of [s], if any. *)
Definition matchAt (r : re) (s : string) : option hit := hd_error (run r s).

(** A submatch slice as [FindStringSubmatch] returns it: the whole match at
    index 0 and the capture groups after it. *)
Definition submatch (h : hit) : list string := text h :: caps h.

(** [Regexp.FindAllStringSubmatch(s, -1)] for an expression that matches
    no empty string: the successive non-overlapping leftmost matches.  [skip]
    counts the bytes of the previous match still to step over. *)
Fixpoint findAll (r : re) (skip : nat) (s : string) : list (list string) :=
  match s with
  | EmptyString => []
  | String _ s' =>
      match skip with
      | S k => findAll r k s'
      | O =>
          match matchAt r s with
          | Some h => submatch h :: findAll r (String.length (text h) - 1) s'
          | None => findAll r 0 s'
          end
      end
  end.

Definition FindAllStringSubmatch (r : re) (s : string) : list (list string) :=
  findAll r 0 s.

End Regexp.
Import Regexp.

(** [tmplRE], line 46:
    [{{([A-Za-z0-9_\.\[\]]+) (\*?[A-Za-z0-9_\.]+) (%[A-Za-z0-9#\.\+]+)}}] *)

Definition accessorClass : class :=
  [Range "A" "Z"; Range "a" "z"; Range "0" "9"; Single "_"; Single "."; Single "["; Single "]"].
Definition typeClass : class :=
  [Range "A" "Z"; Range "a" "z"; Range "0" "9"; Single "_"; Single "."].
Definition verbClass : class :=
  [Range "A" "Z"; Range "a" "z"; Range "0" "9"; Single "#"; Single "."; Single "+"].

Definition tmplRE : re :=
  Cat (Lit "{{")
 (Cat (Group (Plus accessorClass))
 (Cat (Lit " ")
 (Cat (Group (Cat (Opt (Lit "*")) (Plus typeClass)))
 (Cat (Lit " ")
 (Cat (Group (Cat (Lit "%") (Plus verbClass)))
      (Lit "}}")))))).


(** ** Runes and UTF-8 (packages unicode/utf8 and unicode) *)

Module Utf8.

Local Open Scope Z_scope.

Definition rune := Z.

Definition RuneError : rune := 65533.   (* U+FFFD *)
Definition MaxRune : rune := 1114111.   (* U+10FFFF *)

Definition byte (c : ascii) : Z := Z.of_N (N_of_ascii c).
Definition chr (b : Z) : ascii := ascii_of_N (Z.to_N (b mod 256)).

Definition between (lo hi b : Z) : bool := (lo <=? b) && (b <=? hi).
Definition cont (b : Z) : bool := between 128 191 b.   (* locb .. hicb *)

(** The accept range of the second byte, by the first ([first] and
    [acceptRanges] of utf8.go); [None] for a byte that starts no sequence. *)
Definition second (b0 : Z) : option (nat * Z * Z) :=
  if between 194 223 b0 then Some (2%nat, 128, 191)
  else if b0 =? 224 then Some (3%nat, 160, 191)
  else if between 225 236 b0 then Some (3%nat, 128, 191)
  else if b0 =? 237 then Some (3%nat, 128, 159)
  else if between 238 239 b0 then Some (3%nat, 128, 191)
  else if b0 =? 240 then Some (4%nat, 144, 191)
  else if between 241 243 b0 then Some (4%nat, 128, 191)
  else if b0 =? 244 then Some (4%nat, 128, 143)
  else None.

(** utf8.DecodeRuneInString for a non-empty string: the rune and its width;
    [(RuneError, 1)] for a byte that begins no well-formed sequence. *)
Definition DecodeRuneInString (s : string) : rune * nat :=
  match s with
  | EmptyString => (RuneError, 0%nat)
  | String c0 r0 =>
      let b0 := byte c0 in
      if b0 <? 128 then (b0, 1%nat)
      else
        match second b0, r0 with
        | Some (sz, lo, hi), String c1 r1 =>
            let b1 := byte c1 in
            if negb (between lo hi b1) then (RuneError, 1%nat)
            else if (sz <=? 2)%nat
                 then (Z.lor (Z.shiftl (Z.land b0 31) 6) (Z.land b1 63), 2%nat)
            else
              match r1 with
              | String c2 r2 =>
                  let b2 := byte c2 in
                  if negb (cont b2) then (RuneError, 1%nat)
                  else if (sz <=? 3)%nat
                       then (Z.lor (Z.lor (Z.shiftl (Z.land b0 15) 12)
                                          (Z.shiftl (Z.land b1 63) 6))
                                   (Z.land b2 63), 3%nat)
                  else
                    match r2 with
                    | String c3 _ =>
                        let b3 := byte c3 in
                        if negb (cont b3) then (RuneError, 1%nat)
                        else (Z.lor (Z.lor (Z.lor (Z.shiftl (Z.land b0 7) 18)
                                                  (Z.shiftl (Z.land b1 63) 12))
                                           (Z.shiftl (Z.land b2 63) 6))
                                    (Z.land b3 63), 4%nat)
                    | EmptyString => (RuneError, 1%nat)
                    end
              | EmptyString => (RuneError, 1%nat)
              end
        | _, _ => (RuneError, 1%nat)
        end
  end.

(** The conversion [[]rune(s)], also the runes a [range] loop over [s]
    visits.  [skip] counts the bytes of the current rune still to step over. *)
Fixpoint runesFrom (skip : nat) (s : string) : list rune :=
  match s with
  | EmptyString => []
  | String _ s' =>
      match skip with
      | S k => runesFrom k s'
      | O => let (r, w) := DecodeRuneInString s in r :: runesFrom (w - 1) s'
      end
  end.

Definition runes (s : string) : list rune := runesFrom 0 s.

(** utf8.EncodeRune; surrogates and values outside [0, MaxRune] are written
    as U+FFFD. *)
Definition EncodeRune (r : rune) : string :=
  let three (r : rune) :=
    String (chr (Z.lor 224 (Z.shiftr r 12)))
   (String (chr (Z.lor 128 (Z.land (Z.shiftr r 6) 63)))
   (String (chr (Z.lor 128 (Z.land r 63))) EmptyString)) in
  if r <? 0 then three RuneError
  else if r <=? 127 then String (chr r) EmptyString
  else if r <=? 2047 then
    String (chr (Z.lor 192 (Z.shiftr r 6)))
   (String (chr (Z.lor 128 (Z.land r 63))) EmptyString)
  else if (MaxRune <? r) || between 55296 57343 r then three RuneError
  else if r <=? 65535 then three r
  else
    String (chr (Z.lor 240 (Z.shiftr r 18)))
   (String (chr (Z.lor 128 (Z.land (Z.shiftr r 12) 63)))
   (String (chr (Z.lor 128 (Z.land (Z.shiftr r 6) 63)))
   (String (chr (Z.lor 128 (Z.land r 63))) EmptyString))).

(** The conversion [string(runes)]. *)
Fixpoint ofRunes (l : list rune) : string :=
  match l with
  | [] => EmptyString
  | r :: l' => EncodeRune r ++ ofRunes l'
  end.

End Utf8.
Import Utf8.

(** ** The packages of the Go distribution the generator calls

    Their code is not part of the repository.  The Unicode tables, the
    expression parser, the source formatter and the quoting of the [%q] verb
    are taken as parameters; everything proved below holds for any of them. *)

Module Ast.

(** go/ast expressions.  [findExprRoot] tells three kinds apart; the kinds
    after them stand for the rest of the [ast.Expr] implementations, which
    all fall in its default case. *)
Inductive Expr : Type :=
| Ident (Name : string)
| SelectorExpr (X : Expr) (Sel : string)
| IndexExpr (X : Expr) (Index : Expr)
| BasicLit (Value : string)
| ArrayType (Elt : Expr)
| MapType (Key Value : Expr).

End Ast.
Import Ast.

Inductive Case : Type := UpperCase | LowerCase | TitleCase.

Record GoLib : Type := {
  (** unicode.To(case, r) for [r] above [MaxASCII] (the table [CaseRanges]) *)
  unicode_To : Case -> rune -> rune;
  (** the image of a code point is a code point; it is never negative *)
  unicode_To_rune : forall c r, (0 <= r)%Z -> (0 <= unicode_To c r)%Z;
  unicode_IsLetter : rune -> bool;
  unicode_IsDigit : rune -> bool;
  unicode_IsSpace : rune -> bool;
  (** go/parser.ParseExpr: the expression, or the error's text *)
  parser_ParseExpr : string -> Expr + string;
  (** go/format.Source: the returned bytes and the error, if any *)
  format_Source : string -> string * option string;
  (** the text the verb [%q] prints for a string (strconv.Quote) *)
  strconv_Quote : string -> string
}.

(** ** Outcomes of a run

    [log.Fatal] and [log.Fatalf] print their message through the logger and
    exit with status 1: [Fatal msg] is that outcome, and [msg] the message
    printed last. *)

Inductive result (A : Type) : Type :=
| Ok (a : A)
| Fatal (msg : string)     (* log.Fatal, log.Fatalf: [msg] is printed, the process exits *)
| Panic (msg : string).    (* a runtime panic *)
Arguments Ok {A} a.
Arguments Fatal {A} msg.
Arguments Panic {A} msg.

Definition rbind {A B} (m : result A) (f : A -> result B) : result B :=
  match m with
  | Ok a => f a
  | Fatal e => Fatal e
  | Panic e => Panic e
  end.

(** ** Data of the generator *)

Inductive WrapMode : Type := OptWrap | NoWrap | MustWrap.

Definition WrapMode_eqb (a b : WrapMode) : bool :=
  match a, b with
  | OptWrap, OptWrap | NoWrap, NoWrap | MustWrap, MustWrap => true
  | _, _ => false
  end.

Module Field.
(** A field from a parsed template. *)
Record t : Type := Make {
  name : string;   (* name of the field *)
  typ : string;    (* type of the field *)
  fmt : string;    (* format verb for the field *)
  val : string     (* accessor to use when formatting (e.g. name.Field) *)
}.
End Field.

Module ParsedTemplate.
Record t : Type := Make {
  wrap : WrapMode;
  fields : list Field.t;
  fmt : string
}.
End ParsedTemplate.

Module ErrorSpec.
Record t : Type := Make { name : string; template : string }.
End ErrorSpec.

Record Generator : Type := {
  typeName : string;
  compatIs : bool;
  makePub : bool;
  specSuffix : string;
  imports : list string;
  buf : string;
  specs : list ErrorSpec.t;
  pkgName : string
}.

(** The generator with its buffer set to [b]. *)
Definition withBuf (g : Generator) (b : string) : Generator :=
  {| typeName := typeName g; compatIs := compatIs g;
     makePub := makePub g; specSuffix := specSuffix g;
     imports := imports g; buf := b;
     specs := specs g; pkgName := pkgName g |}.

Section Gorror.

Variable lib : GoLib.

Local Open Scope Z_scope.

(** *** package unicode *)

Definition MaxASCII : rune := 127.

Definition unicode_ToUpper (r : rune) : rune :=
  if r <=? MaxASCII
  then (if (97 <=? r) && (r <=? 122) then r - 32 else r)
  else unicode_To lib UpperCase r.

Definition unicode_ToLower (r : rune) : rune :=
  if r <=? MaxASCII
  then (if (65 <=? r) && (r <=? 90) then r + 32 else r)
  else unicode_To lib LowerCase r.

Definition unicode_ToTitle (r : rune) : rune :=
  if r <=? MaxASCII
  then (if (97 <=? r) && (r <=? 122) then r - 32 else r)
  else unicode_To lib TitleCase r.

(** *** strings.Title *)

(** isSeparator of package strings. *)
Definition isSeparator (r : rune) : bool :=
  if r <=? 127 then
    if between 48 57 r then false
    else if between 97 122 r then false
    else if between 65 90 r then false
    else if r =? 95 then false
    else true
  else if unicode_IsLetter lib r || unicode_IsDigit lib r then false
  else unicode_IsSpace lib r.

(** The closure [Title] hands to [Map], with its captured [prev]. *)
Fixpoint titleMap (prev : rune) (l : list rune) : list rune :=
  match l with
  | [] => []
  | r :: l' =>
      (if isSeparator prev then unicode_ToTitle r else r) :: titleMap r l'
  end.

(** strings.Map writes the image of each rune of [s]; a negative image is
    dropped. *)
Definition writeMapped (l : list rune) : string :=
  ofRunes (filter (fun r => 0 <=? r) l).

Definition Title (s : string) : string := writeMapped (titleMap 32 (runes s)).

(** *** findExprRoot, lines 427-440 *)

Fixpoint findExprRoot (node : Expr) : option string :=
  match node with
  | SelectorExpr X _ => findExprRoot X
  | IndexExpr X _ => findExprRoot X
  | Ident n => Some n
  | _ => None
  end.

(** *** parseTemplate, lines 398-425 *)

(** The loop over the matches, lines 411-423. *)
Fixpoint parseMatches (matches : list (list string))
         (fields : list Field.t) (tmplStr : string)
  : result (list Field.t * string) :=
  match matches with
  | [] => Ok (fields, tmplStr)
  | m :: rest =>
      let fExpr := nth 1 m EmptyString in
      let fType := nth 2 m EmptyString in
      let fFmt := nth 3 m EmptyString in
      match parser_ParseExpr lib fExpr with
      | inr err => Fatal err
      | inl nameAST =>
          match findExprRoot nameAST with
          | None =>
              Fatal ("Could not find root node of expression "
                       ++ strconv_Quote lib fExpr)
          | Some fNameIdent =>
              parseMatches rest
                (fields ++ [Field.Make fNameIdent fType fFmt fExpr])%list
                (Replace1 tmplStr (nth 0 m EmptyString) fFmt)
          end
      end
  end.

(** The switch on the prefix, lines 399-407. *)
Definition wrapPrefix (template : string) : WrapMode * string :=
  if HasPrefix template "wrap:" then (MustWrap, TrimPrefix template "wrap:")
  else if HasPrefix template "nowrap:" then (NoWrap, TrimPrefix template "nowrap:")
  else (OptWrap, template).

Definition parseTemplate (template : string) : result ParsedTemplate.t :=
  let '(wrap, template) := wrapPrefix template in
  let matches := FindAllStringSubmatch tmplRE template in
  rbind (parseMatches matches [] template)
        (fun '(fields, tmplStr) => Ok (ParsedTemplate.Make wrap fields tmplStr)).

(** *** Generator.structName, lines 360-374

    [b.WriteRune] writes the UTF-8 encoding of a rune that is not negative,
    which the image of a decoded rune never is. *)

Definition structName (g : Generator) (specName : string) : result string :=
  match runes specName with
  | [] => Panic "runtime error: index out of range [0] with length 0"
  | r0 :: tail =>
      let b := if makePub g
               then EncodeRune (unicode_ToUpper r0)
               else EncodeRune (unicode_ToLower r0) in
      let rest := ofRunes tail in
      let rest := if (0 <? len (specSuffix g))%Z
                  then TrimSuffix rest (specSuffix g) else rest in
      Ok (b ++ rest)
  end.

(** *** The generator as a state machine

    A method of [*Generator] reads and updates the receiver, appends to the
    log (standard error), and returns, exits through [log.Fatal] or
    panics.  The list of a run holds the messages of [log.Printf], in order;
    the message of a fatal exit is printed behind them and is kept by the
    outcome [Fatal], not by the list. *)

Definition M (A : Type) : Type :=
  Generator -> list string -> result (A * Generator) * list string.

Definition ret {A} (a : A) : M A := fun g l => (Ok (a, g), l).

Definition bind {A B} (m : M A) (f : A -> M B) : M B :=
  fun g l =>
    match m g l with
    | (Ok (a, g'), l') => f a g' l'
    | (Fatal e, l') => (Fatal e, l')
    | (Panic e, l') => (Panic e, l')
    end.

Notation "x <- m ;; k" := (bind m (fun x => k))
  (at level 61, m at next level, right associativity).
Notation "m ;; k" := (bind m (fun _ => k))
  (at level 61, right associativity).

Definition this : M Generator := fun g l => (Ok (g, g), l).

Definition lift {A} (r : result A) : M A :=
  fun g l =>
    match r with
    | Ok a => (Ok (a, g), l)
    | Fatal e => (Fatal e, l)
    | Panic e => (Panic e, l)
    end.

(** log.Printf; the log keeps the formatted message, without the prefix and
    the final newline the logger adds. *)
Definition log_Printf (msg : string) : M unit := fun g l => (Ok (tt, g), (l ++ [msg])%list).

(** log.Fatal and log.Fatalf: the logger prints [msg] and the process exits.
    The message printed is the one [Fatal] carries; the list is the messages
    of [log.Printf] before it. *)
Definition log_Fatalf {A} (msg : string) : M A := fun g l => (Fatal msg, l).

Definition when (b : bool) (m : M unit) : M unit := if b then m else ret tt.

(** [for i, a := range l { body }] *)
Fixpoint rangeFrom {A} (i : Z) (l : list A) (body : Z -> A -> M unit) : M unit :=
  match l with
  | [] => ret tt
  | a :: l' => body i a ;; rangeFrom (i + 1) l' body
  end.

Definition range {A} (l : list A) (body : Z -> A -> M unit) : M unit :=
  rangeFrom 0 l body.

(** Generator.Printf, lines 169-171, with the format already applied.  The
    verbs in the format strings of this program are [%s], [%v] and [%[1]s] on a
    string, which print its bytes as they are, [%q] on a string, which prints
    it quoted, and [%%], which prints a percent sign. *)
Definition Printf (out : string) : M unit :=
  fun g l => (Ok (tt, withBuf g (buf g ++ out)), l).

(** *** sort.Strings *)

Fixpoint insert (x : string) (l : list string) : list string :=
  match l with
  | [] => [x]
  | y :: l' => if String.leb x y then x :: l else y :: insert x l'
  end.

Definition sort_Strings (l : list string) : list string :=
  fold_right insert [] l.

(** *** Generator.header, lines 229-257 *)

Definition header : M unit :=
  g <- this ;;
  Printf ("// Errors generated by Gorror; DO NOT EDIT." ++ nl ++ nl
          ++ "package " ++ pkgName g ++ nl ++ nl) ;;
  let imports := sort_Strings (List.app (imports g) ["fmt"; "errors"]) in
  Printf ("import (" ++ nl) ;;
  range imports (fun _ imp => Printf (tab ++ strconv_Quote lib imp ++ nl)) ;;
  Printf (")" ++ nl ++ nl) ;;
  Printf ("type _errWrap struct{ cause error }" ++ nl) ;;
  Printf ("func (w *_errWrap) Unwrap() error { return w.cause }" ++ nl ++ nl) ;;
  if compatIs g then
    Printf ("func (" ++ typeName g ++ ") Error() string { panic(" ++ dq
            ++ "Should not be called" ++ dq ++ ") }" ++ nl ++ nl)
  else
    Printf ("func (e " ++ typeName g ++ ") IsIn(err error) bool {" ++ nl
            ++ tab ++ "var ei interface { Is(" ++ typeName g
            ++ ") bool; Unwrap() error }" ++ nl
            ++ tab ++ "if errors.As(err, &ei) {" ++ nl
            ++ tab ++ tab ++ "if ei.Is(e) { return true }" ++ nl
            ++ tab ++ tab ++ "return e.IsIn(ei.Unwrap())" ++ nl
            ++ tab ++ "}" ++ nl
            ++ tab ++ "return false}") ;;
    Printf (nl ++ nl).

(** *** Generator.generate, lines 260-358 *)

(** Lines 275-279: the prefix and the name printed after [func]. *)
Definition constPrefix (g : Generator) : string :=
  if makePub g then "New" else "new".

Definition constructorName (g : Generator) (structName : string) : string :=
  constPrefix g ++ Title structName.

(** Lines 264-272: the structure. *)
Definition genStruct (structName : string) (template : ParsedTemplate.t) : M unit :=
  Printf ("type " ++ structName ++ " struct {" ++ nl) ;;
  when (negb (WrapMode_eqb (ParsedTemplate.wrap template) NoWrap))
       (Printf (tab ++ "_errWrap" ++ nl)) ;;
  range (ParsedTemplate.fields template)
        (fun _ f => Printf (tab ++ Field.name f ++ " " ++ Field.typ f ++ nl)) ;;
  Printf ("}" ++ nl ++ nl).

(** Lines 274-309: the constructor. *)
Definition genConstructor (structName : string) (template : ParsedTemplate.t) : M unit :=
  g <- this ;;
  let fields := ParsedTemplate.fields template in
  let wrap := ParsedTemplate.wrap template in
  let n := Z.of_nat (List.length fields) in
  Printf ("func " ++ constructorName g structName ++ "(") ;;
  range fields
        (fun i f =>
           Printf (Field.name f ++ " " ++ Field.typ f) ;;
           when (i <? n - 1) (Printf ", ")) ;;
  when (WrapMode_eqb wrap MustWrap)
       (when (0 <? n) (Printf ", ") ;;
        Printf "err error") ;;
  Printf (") *" ++ structName ++ " {" ++ nl ++ tab ++ "return &" ++ structName ++ "{") ;;
  when (WrapMode_eqb wrap MustWrap || WrapMode_eqb wrap OptWrap)
       (let ew := if WrapMode_eqb wrap MustWrap
                  then "_errWrap{err}" else "_errWrap{nil}" in
        Printf ew ;;
        when (0 <? n) (Printf ", ")) ;;
  range fields
        (fun i f =>
           Printf (Field.name f) ;;
           when (i <? n - 1) (Printf ", ")) ;;
  Printf ("}" ++ nl ++ "}" ++ nl ++ nl).

(** Lines 311-340: the Error method. *)
Definition genError (structName : string) (template : ParsedTemplate.t) : M unit :=
  let fields := ParsedTemplate.fields template in
  let tfmt := ParsedTemplate.fmt template in
  Printf ("func (e *" ++ structName ++ ") Error() string {" ++ nl) ;;
  match ParsedTemplate.wrap template with
  | OptWrap =>
      Printf (tab ++ "if e.cause == nil {" ++ nl ++ tab ++ tab
              ++ "return fmt.Sprintf(" ++ dq ++ tfmt ++ dq) ;;
      range fields (fun _ f => Printf (", e." ++ Field.val f)) ;;
      Printf (")" ++ nl ++ tab ++ "}" ++ nl ++ tab
              ++ "return fmt.Sprintf(" ++ dq ++ tfmt ++ ": %v" ++ dq ++ ", ") ;;
      range fields (fun _ f => Printf ("e." ++ Field.val f ++ ", ")) ;;
      Printf ("e.cause)" ++ nl)
  | NoWrap =>
      Printf (tab ++ "return fmt.Sprintf(" ++ dq ++ tfmt ++ dq) ;;
      range fields (fun _ f => Printf (", e." ++ Field.val f)) ;;
      Printf (")" ++ nl)
  | MustWrap =>
      Printf (tab ++ "return fmt.Sprintf(" ++ dq ++ tfmt ++ ": %v" ++ dq ++ ", ") ;;
      range fields (fun _ f => Printf ("e." ++ Field.val f ++ ", ")) ;;
      Printf ("e.cause)" ++ nl)
  end ;;
  Printf ("}" ++ nl).

(** Lines 342-350: the Wrap method. *)
Definition genWrap (structName : string) (template : ParsedTemplate.t) : M unit :=
  when (negb (WrapMode_eqb (ParsedTemplate.wrap template) NoWrap))
       (Printf (nl ++ "func (e *" ++ structName ++ ") Wrap(cause error) error {" ++ nl
                ++ tab ++ "e.cause = cause" ++ nl
                ++ tab ++ "return e" ++ nl
                ++ "}" ++ nl)).

(** Lines 352-357: the Is method. *)
Definition genIs (structName : string) (spec : ErrorSpec.t) : M unit :=
  g <- this ;;
  if compatIs g then
    Printf (nl ++ "func (*" ++ structName ++ ") Is(e error) bool { return e == "
            ++ ErrorSpec.name spec ++ " }" ++ nl ++ nl)
  else
    Printf (nl ++ "func (*" ++ structName ++ ") Is(e " ++ typeName g
            ++ ") bool { return e == " ++ ErrorSpec.name spec ++ " }" ++ nl ++ nl).

Definition generate (spec : ErrorSpec.t) : M unit :=
  g <- this ;;
  structName <- lift (structName g (ErrorSpec.name spec)) ;;
  template <- lift (parseTemplate (ErrorSpec.template spec)) ;;
  genStruct structName template ;;
  genConstructor structName template ;;
  genError structName template ;;
  genWrap structName template ;;
  genIs structName spec.

(** *** Generator.format, lines 442-452 *)

Definition format : M string :=
  g <- this ;;
  let '(src, err) := format_Source lib (buf g) in
  match err with
  | Some e =>
      log_Printf ("warning: failed to format generated code: " ++ e ++ nl) ;;
      log_Printf ("warning: try to compile the output to check the error" ++ nl) ;;
      when (len src =? 0)
           (log_Fatalf ("format produced empty output" ++ nl ++ buf g ++ nl)) ;;
      ret src
  | None => ret src
  end.

(** *** main, lines 99-109: nothing to generate without specs; otherwise the
    preamble, every spec in order, and formatting.  The result is the text
    [main] goes on to write to the output file. *)

Definition emit : M (option string) :=
  g <- this ;;
  if (Z.of_nat (List.length (specs g)) <? 1)
  then log_Printf ("no errors of type " ++ typeName g ++ " found") ;; ret None
  else
    header ;;
    range (specs g) (fun _ err => generate err) ;;
    src <- format ;;
    ret (Some src).

End Gorror.

Arguments ret {A} a _ _.

(** ** A host library to run the model

    It stands for the Go distribution on the inputs used below: names and
    import paths in printable ASCII without quotes or backslashes, and accessors
    that are an identifier followed by selectors and decimal indexes, which
    go/parser reads as nested [SelectorExpr] and [IndexExpr] nodes over an
    [Ident].  Two formatters are given: one accepts every text and returns it as
    it is, one rejects every text the way go/format does, with a nil slice. *)

Module Host.

Fixpoint span (p : ascii -> bool) (s : string) : string * string :=
  match s with
  | String c r =>
      if p c then let (a, b) := span p r in (String c a, b) else (EmptyString, s)
  | EmptyString => (EmptyString, EmptyString)
  end.

Definition isLetter (c : ascii) : bool :=
  inClass [Range "A" "Z"; Range "a" "z"; Single "_"] c.
Definition isDigit (c : ascii) : bool := inClass [Range "0" "9"] c.
Definition isIdentChar (c : ascii) : bool := isLetter c || isDigit c.

Definition startsWithLetter (s : string) : bool :=
  match s with
  | String c _ => isLetter c
  | EmptyString => false
  end.

Definition syntaxError : string := "syntax error".

Fixpoint parsePostfix (fuel : nat) (x : Expr) (s : string) : Expr + string :=
  match fuel with
  | O => inr syntaxError
  | S fuel =>
      match s with
      | EmptyString => inl x
      | String "." r =>
          let (sel, r') := span isIdentChar r in
          if startsWithLetter sel
          then parsePostfix fuel (SelectorExpr x sel) r'
          else inr syntaxError
      | String "[" r =>
          let (ds, r') := span isDigit r in
          match ds, r' with
          | String _ _, String "]" r'' =>
              parsePostfix fuel (IndexExpr x (BasicLit ds)) r''
          | _, _ => inr syntaxError
          end
      | _ => inr syntaxError
      end
  end.

Definition ParseExpr (s : string) : Expr + string :=
  let (id, r) := span isIdentChar s in
  if startsWithLetter id
  then parsePostfix (S (String.length r)) (Ident id) r
  else inr syntaxError.

Definition Quote (s : string) : string := dq ++ s ++ dq.

Definition golib : GoLib :=
  {| unicode_To := fun _ r => r;
     unicode_To_rune := fun _ _ H => H;
     unicode_IsLetter := fun _ => false;
     unicode_IsDigit := fun _ => false;
     unicode_IsSpace := fun _ => false;
     parser_ParseExpr := ParseExpr;
     format_Source := fun src => (src, None);
     strconv_Quote := Quote |}.

Definition rejecting : GoLib :=
  {| unicode_To := unicode_To golib;
     unicode_To_rune := unicode_To_rune golib;
     unicode_IsLetter := unicode_IsLetter golib;
     unicode_IsDigit := unicode_IsDigit golib;
     unicode_IsSpace := unicode_IsSpace golib;
     parser_ParseExpr := ParseExpr;
     format_Source := fun _ => (EmptyString, Some "expected declaration");
     strconv_Quote := Quote |}.

(** The generator the golden tests build: [Generator{typeName: "Err",
    compatIs: ...}], every other field at its zero value. *)
Definition testGenerator (compat : bool) : Generator :=
  {| typeName := "Err"; compatIs := compat; makePub := false;
     specSuffix := EmptyString; imports := []; buf := EmptyString;
     specs := []; pkgName := EmptyString |}.

(** The text a method leaves in the buffer, started from [g]. *)
Definition output {A} (m : M A) (g : Generator) : result string :=
  match fst (m g []) with
  | Ok (_, g') => Ok (buf g')
  | Fatal e => Fatal e
  | Panic e => Panic e
  end.

End Host.


(** * Definitions used to state the properties *)

(** ** Strings and matches *)

(** Every byte of [s] is below [utf8.RuneSelf]. *)
Fixpoint isASCII (s : string) : bool :=
  match s with
  | EmptyString => true
  | String c r => (Utf8.byte c <? 128)%Z && isASCII r
  end.

(** Every character of [s] is in the class [k]. *)
Fixpoint allIn (k : class) (s : string) : bool :=
  match s with
  | EmptyString => true
  | String c r => inClass k c && allIn k r
  end.

(** What an expression matches, with the text of its groups. *)
Inductive Den : re -> string -> list string -> Prop :=
| DLit l : Den (Lit l) l []
| DPlus k m : m <> EmptyString -> allIn k m = true -> Den (Plus k) m []
| DOptSome r m c : Den r m c -> Den (Opt r) m c
| DOptNone r : Den (Opt r) EmptyString (repeat EmptyString (groups r))
| DCat r1 r2 m1 c1 m2 c2 :
    Den r1 m1 c1 -> Den r2 m2 c2 -> Den (Cat r1 r2) (m1 ++ m2) (c1 ++ c2)%list
| DGroup r m c : Den r m c -> Den (Group r) m (m :: c).

(** ** Placeholder tokens *)

(** [{{a t v}}] *)
Definition token (a t v : string) : string :=
  "{{" ++ a ++ " " ++ t ++ " " ++ v ++ "}}".

(** [s] is one or more characters of [k]. *)
Definition oneOrMore (k : class) (s : string) : Prop :=
  s <> EmptyString /\ allIn k s = true.

(** What the three groups of [tmplRE] accept. *)
Definition accessorText (a : string) : Prop := oneOrMore accessorClass a.
Definition typeText (t : string) : Prop :=
  exists t', oneOrMore typeClass t' /\ (t = t' \/ t = "*" ++ t').
Definition verbText (v : string) : Prop :=
  exists v', oneOrMore verbClass v' /\ v = "%" ++ v'.

(** [{{a t v}}] is recognized with [a], [t], [v] as its groups. *)
Definition recognized (a t v : string) : Prop :=
  matchAt tmplRE (token a t v) = Some (Hit (token a t v) [a; t; v] EmptyString).

(** ** The grammar of the specification, section 3

    [accessor] matches [ident ('.' ident | '[' digits ']')*], [type] matches
    ['*'? ident ('.' ident)?] and [verb] matches ['%' [A-Za-z0-9#.+]+]. *)

Definition letterClass : class := [Range "A" "Z"; Range "a" "z"; Single "_"].
Definition identClass : class :=
  [Range "A" "Z"; Range "a" "z"; Range "0" "9"; Single "_"].
Definition digitClass : class := [Range "0" "9"].

(** ident: a letter or underscore, then letters, digits and underscores *)
Definition ident (s : string) : Prop :=
  exists c r, s = String c r /\ inClass letterClass c = true
              /\ allIn identClass r = true.

Definition digits (s : string) : Prop := oneOrMore digitClass s.

(** accessor *)
Inductive accessor : string -> Prop :=
| acc_ident id : ident id -> accessor id
| acc_field a id : accessor a -> ident id -> accessor (a ++ "." ++ id)
| acc_index a ds : accessor a -> digits ds -> accessor (a ++ "[" ++ ds ++ "]").

(** type *)
Definition qualified (t : string) : Prop :=
  ident t \/ exists p id, ident p /\ ident id /\ t = p ++ "." ++ id.

Definition typeExpr (t : string) : Prop :=
  qualified t \/ exists q, qualified q /\ t = "*" ++ q.

(** verb *)
Definition verb (v : string) : Prop :=
  exists v', oneOrMore verbClass v' /\ v = "%" ++ v'.

(** ** Accessor roots *)

(** The identifier an accessor is rooted at: the innermost operand of a chain
    of selectors and index expressions. *)
Inductive RootOf : Expr -> string -> Prop :=
| root_ident n : RootOf (Ident n) n
| root_selector X sel n : RootOf X n -> RootOf (SelectorExpr X sel) n
| root_index X i n : RootOf X n -> RootOf (IndexExpr X i) n.

(** ** The declarations of section 4.4, by wrap mode

    Written from the specification's table: what each declaration group holds
    in each mode.  [generate] is compared with them below. *)

Module Table.

(** A member or parameter: name, then type. *)
Definition member (f : Field.t) : string := Field.name f ++ " " ++ Field.typ f.

(** Group 1: one member per field; the cause holder first unless [NoWrap]. *)
Definition structDecl (mode : WrapMode) (sn : string) (fs : list Field.t) : string :=
  "type " ++ sn ++ " struct {" ++ nl
  ++ match mode with
     | NoWrap => EmptyString
     | OptWrap | MustWrap => tab ++ "_errWrap" ++ nl
     end
  ++ join (map (fun f => tab ++ Field.name f ++ " " ++ Field.typ f ++ nl) fs)
  ++ "}" ++ nl ++ nl.

(** Group 2, parameters: the fields, then the cause only if [MustWrap]. *)
Definition params (mode : WrapMode) (fs : list Field.t) : list string :=
  (map member fs ++ match mode with
                    | MustWrap => ["err error"]
                    | OptWrap | NoWrap => []
                    end)%list.

(** Group 2, body: the holder initializer ([nil], or the cause parameter),
    absent for [NoWrap], then the field values. *)
Definition values (mode : WrapMode) (fs : list Field.t) : list string :=
  (match mode with
   | NoWrap => []
   | OptWrap => ["_errWrap{nil}"]
   | MustWrap => ["_errWrap{err}"]
   end ++ map Field.name fs)%list.

Definition constructor (mode : WrapMode) (cname sn : string) (fs : list Field.t)
  : string :=
  "func " ++ cname ++ "(" ++ String.concat ", " (params mode fs) ++ ") *" ++ sn
  ++ " {" ++ nl ++ tab ++ "return &" ++ sn ++ "{"
  ++ String.concat ", " (values mode fs) ++ "}" ++ nl ++ "}" ++ nl ++ nl.

(** Group 3: the residual format string with the field accessors ... *)
Definition sprintfPlain (f : string) (fs : list Field.t) : string :=
  "fmt.Sprintf(" ++ dq ++ f ++ dq
  ++ join (map (fun x => ", e." ++ Field.val x) fs) ++ ")".

(** ... and the same with [: <cause>] appended and the cause as last argument. *)
Definition sprintfCause (f : string) (fs : list Field.t) : string :=
  "fmt.Sprintf(" ++ dq ++ f ++ ": %v" ++ dq ++ ", "
  ++ join (map (fun x => "e." ++ Field.val x ++ ", ") fs) ++ "e.cause)".

Definition formatter (mode : WrapMode) (sn f : string) (fs : list Field.t)
  : string :=
  "func (e *" ++ sn ++ ") Error() string {" ++ nl
  ++ match mode with
     | NoWrap => tab ++ "return " ++ sprintfPlain f fs ++ nl
     | OptWrap =>
         tab ++ "if e.cause == nil {" ++ nl
         ++ tab ++ tab ++ "return " ++ sprintfPlain f fs ++ nl
         ++ tab ++ "}" ++ nl
         ++ tab ++ "return " ++ sprintfCause f fs ++ nl
     | MustWrap => tab ++ "return " ++ sprintfCause f fs ++ nl
     end
  ++ "}" ++ nl.

(** Group 4: the cause-attachment operation, absent for [NoWrap]. *)
Definition wrapOp (mode : WrapMode) (sn : string) : string :=
  match mode with
  | NoWrap => EmptyString
  | OptWrap | MustWrap =>
      nl ++ "func (e *" ++ sn ++ ") Wrap(cause error) error {" ++ nl
      ++ tab ++ "e.cause = cause" ++ nl
      ++ tab ++ "return e" ++ nl
      ++ "}" ++ nl
  end.

(** Group 5: the identity predicate, its parameter of type [ptype]. *)
Definition isDecl (ptype sn sentinel : string) : string :=
  nl ++ "func (*" ++ sn ++ ") Is(e " ++ ptype ++ ") bool { return e == "
  ++ sentinel ++ " }" ++ nl ++ nl.

End Table.

Section Resolution.

Variable lib : GoLib.

(** The field built for the match [m]. *)
Definition resolves (m : list string) (f : Field.t) : Prop :=
  exists e, parser_ParseExpr lib (nth 1 m EmptyString) = inl e
            /\ RootOf e (Field.name f)
            /\ Field.typ f = nth 2 m EmptyString
            /\ Field.fmt f = nth 3 m EmptyString
            /\ Field.val f = nth 1 m EmptyString.

(** The accessor of [m] does not parse, or parses to an expression with no
    identifier at its root. *)
Definition rootless (m : list string) : Prop :=
  (exists err, parser_ParseExpr lib (nth 1 m EmptyString) = inr err)
  \/ (exists e, parser_ParseExpr lib (nth 1 m EmptyString) = inl e
                /\ forall n, ~ RootOf e n).

(** The five declaration groups of a spec, in order. *)
Definition declarations (g : Generator) (spec : ErrorSpec.t)
           (sn : string) (pt : ParsedTemplate.t) : string :=
  Table.structDecl (ParsedTemplate.wrap pt) sn (ParsedTemplate.fields pt)
  ++ Table.constructor (ParsedTemplate.wrap pt) (constructorName lib g sn) sn
                       (ParsedTemplate.fields pt)
  ++ Table.formatter (ParsedTemplate.wrap pt) sn (ParsedTemplate.fmt pt)
                     (ParsedTemplate.fields pt)
  ++ Table.wrapOp (ParsedTemplate.wrap pt) sn
  ++ Table.isDecl (if compatIs g then "error" else typeName g) sn
                  (ErrorSpec.name spec).

End Resolution.

(** ** What a method appends to the buffer *)

(** Run with the configuration of [g] and any buffer, [m] returns after
    appending [out], and leaves the log as it is. *)
Definition emits (m : M unit) (g : Generator) (out : string) : Prop :=
  forall b l, m (withBuf g b) l = (Ok (tt, withBuf g (b ++ out)), l).

(** The run stopped without a result. *)
Definition aborted {A} (r : result A) : Prop :=
  match r with
  | Ok _ => False
  | Fatal _ | Panic _ => True
  end.

(** ** The shared declarations of section 4.5 *)

Module Preamble.

(** The header, the imports and the cause holder with its Unwrap method. *)
Definition common (lib : GoLib) (g : Generator) : string :=
  "// Errors generated by Gorror; DO NOT EDIT." ++ nl ++ nl
  ++ "package " ++ pkgName g ++ nl ++ nl
  ++ "import (" ++ nl
  ++ join (map (fun imp => tab ++ strconv_Quote lib imp ++ nl)
               (sort_Strings (imports g ++ ["fmt"; "errors"])%list))
  ++ ")" ++ nl ++ nl
  ++ "type _errWrap struct{ cause error }" ++ nl
  ++ "func (w *_errWrap) Unwrap() error { return w.cause }" ++ nl ++ nl.

(** The stub: the sentinel type's own Error method, which panics. *)
Definition stub (T : string) : string :=
  "func (" ++ T ++ ") Error() string { panic(" ++ dq ++ "Should not be called"
  ++ dq ++ ") }" ++ nl ++ nl.

(** The chain search on the sentinel type. *)
Definition isIn (T : string) : string :=
  "func (e " ++ T ++ ") IsIn(err error) bool {" ++ nl
  ++ tab ++ "var ei interface { Is(" ++ T ++ ") bool; Unwrap() error }" ++ nl
  ++ tab ++ "if errors.As(err, &ei) {" ++ nl
  ++ tab ++ tab ++ "if ei.Is(e) { return true }" ++ nl
  ++ tab ++ tab ++ "return e.IsIn(ei.Unwrap())" ++ nl
  ++ tab ++ "}" ++ nl
  ++ tab ++ "return false}" ++ nl ++ nl.

End Preamble.

(** The generator with its compatibility switch set to [c]. *)
Definition withCompatIs (g : Generator) (c : bool) : Generator :=
  {| typeName := typeName g; compatIs := c;
     makePub := makePub g; specSuffix := specSuffix g;
     imports := imports g; buf := buf g;
     specs := specs g; pkgName := pkgName g |}.

(** ** The constructor name and the format string, as specified *)

(** The name the specification describes: the first rune of the whole
    concatenation upper-cased. *)
Definition upperFirst (lib : GoLib) (s : string) : string :=
  match runes s with
  | [] => EmptyString
  | r :: tail => EncodeRune (unicode_ToUpper lib r) ++ ofRunes tail
  end.

(** The text with each matched token replaced, where it stands, by its verb. *)
Fixpoint substituteFrom (skip : nat) (s : string) : string :=
  match s with
  | EmptyString => EmptyString
  | String c s' =>
      match skip with
      | S k => substituteFrom k s'
      | O =>
          match matchAt tmplRE s with
          | Some h =>
              nth 2 (caps h) EmptyString
                  ++ substituteFrom (String.length (text h) - 1) s'
          | None => String c (substituteFrom 0 s')
          end
      end
  end.

Definition substitute (s : string) : string := substituteFrom 0 s.

(** ** Templates cut into placeholders and the text between them *)

(** A placeholder token and the literal text before it. *)
Record piece : Type :=
  Piece { before : string; acc : string; ty : string; vb : string }.

(** [s] holds no opening brace. *)
Fixpoint free (s : string) : bool :=
  match s with
  | EmptyString => true
  | String c r => negb (Ascii.eqb c "{") && free r
  end.

(** The template made of the pieces and the text after the last token ... *)
Fixpoint templateText (ps : list piece) (last : string) : string :=
  match ps with
  | [] => last
  | p :: ps' => before p ++ token (acc p) (ty p) (vb p) ++ templateText ps' last
  end.

(** ... and the same text with each token replaced by its verb. *)
Fixpoint formatText (ps : list piece) (last : string) : string :=
  match ps with
  | [] => last
  | p :: ps' => before p ++ vb p ++ formatText ps' last
  end.

(** The submatch slice of the token of [p]. *)
Definition submatchOf (p : piece) : list string :=
  [token (acc p) (ty p) (vb p); acc p; ty p; vb p].

(** No brace before the token, and a token [tmplRE] accepts. *)
Definition wellFormed (p : piece) : Prop :=
  free (before p) = true
  /\ accessorText (acc p) /\ typeText (ty p) /\ verbText (vb p).

Definition nonEmpty (s : string) : bool :=
  match s with
  | EmptyString => false
  | String _ _ => true
  end.

(** [wellFormed], decided. *)
Definition wellFormedb (p : piece) : bool :=
  free (before p)
  && (nonEmpty (acc p) && allIn accessorClass (acc p))
  && ((nonEmpty (ty p) && allIn typeClass (ty p))
      || match ty p with
         | String "*" t' => nonEmpty t' && allIn typeClass t'
         | _ => false
         end)
  && match vb p with
     | String "%" v' => nonEmpty v' && allIn verbClass v'
     | _ => false
     end.

(** ** The golden tests

    The inputs of [golden_test.go] and the text it expects from each: the
    constant of the test followed by two newlines.  go/format leaves these
    texts as [generate] wrote them. *)

Module Golden.

Definition lines (l : list string) : string := join (map (fun s => s ++ nl) l).

Definition ErrOpen (template : string) : ErrorSpec.t :=
  ErrorSpec.Make "ErrOpen" template.
Definition ErrSome (template : string) : ErrorSpec.t :=
  ErrorSpec.Make "ErrSome" template.

Definition simpleIn := ErrOpen "failed to open file".
Definition oneFieldIn := ErrOpen "failed to open {{filename string %q}}".
Definition complexFieldIn := ErrSome "failed for {{c.Field[0] MyStruct %s}}".
Definition mustWrapIn := ErrSome "wrap:some error".
Definition noWrapIn := ErrSome "nowrap:some error".

Definition wrapOut (sn : string) : list string :=
  [ "func (e *" ++ sn ++ ") Wrap(cause error) error {";
    tab ++ "e.cause = cause";
    tab ++ "return e";
    "}";
    EmptyString ].

Definition simpleBody : list string :=
  [ "type errOpen struct {";
    tab ++ "_errWrap";
    "}";
    EmptyString;
    "func newErrOpen() *errOpen {";
    tab ++ "return &errOpen{_errWrap{nil}}";
    "}";
    EmptyString;
    "func (e *errOpen) Error() string {";
    tab ++ "if e.cause == nil {";
    tab ++ tab ++ "return fmt.Sprintf(" ++ dq ++ "failed to open file" ++ dq ++ ")";
    tab ++ "}";
    tab ++ "return fmt.Sprintf(" ++ dq ++ "failed to open file: %v" ++ dq ++ ", e.cause)";
    "}";
    EmptyString ].

Definition simpleOut : string :=
  lines (simpleBody ++ wrapOut "errOpen"
         ++ [ "func (*errOpen) Is(e Err) bool { return e == ErrOpen }";
              EmptyString ]).

Definition simpleErrIsOut : string :=
  lines (simpleBody ++ wrapOut "errOpen"
         ++ [ "func (*errOpen) Is(e error) bool { return e == ErrOpen }";
              EmptyString ]).

Definition oneFieldOut : string :=
  lines ([ "type errOpen struct {";
           tab ++ "_errWrap";
           tab ++ "filename string";
           "}";
           EmptyString;
           "func newErrOpen(filename string) *errOpen {";
           tab ++ "return &errOpen{_errWrap{nil}, filename}";
           "}";
           EmptyString;
           "func (e *errOpen) Error() string {";
           tab ++ "if e.cause == nil {";
           tab ++ tab ++ "return fmt.Sprintf(" ++ dq ++ "failed to open %q" ++ dq
               ++ ", e.filename)";
           tab ++ "}";
           tab ++ "return fmt.Sprintf(" ++ dq ++ "failed to open %q: %v" ++ dq
               ++ ", e.filename, e.cause)";
           "}";
           EmptyString ]
         ++ wrapOut "errOpen"
         ++ [ "func (*errOpen) Is(e Err) bool { return e == ErrOpen }";
              EmptyString ]).

Definition mustWrapOut : string :=
  lines ([ "type errSome struct {";
           tab ++ "_errWrap";
           "}";
           EmptyString;
           "func newErrSome(err error) *errSome {";
           tab ++ "return &errSome{_errWrap{err}}";
           "}";
           EmptyString;
           "func (e *errSome) Error() string {";
           tab ++ "return fmt.Sprintf(" ++ dq ++ "some error: %v" ++ dq ++ ", e.cause)";
           "}";
           EmptyString ]
         ++ wrapOut "errSome"
         ++ [ "func (*errSome) Is(e Err) bool { return e == ErrSome }";
              EmptyString ]).

Definition noWrapOut : string :=
  lines [ "type errSome struct {";
          "}";
          EmptyString;
          "func newErrSome() *errSome {";
          tab ++ "return &errSome{}";
          "}";
          EmptyString;
          "func (e *errSome) Error() string {";
          tab ++ "return fmt.Sprintf(" ++ dq ++ "some error" ++ dq ++ ")";
          "}";
          EmptyString;
          "func (*errSome) Is(e Err) bool { return e == ErrSome }";
          EmptyString ].

Definition complexFieldOut : string :=
  lines ([ "type errSome struct {";
           tab ++ "_errWrap";
           tab ++ "c MyStruct";
           "}";
           EmptyString;
           "func newErrSome(c MyStruct) *errSome {";
           tab ++ "return &errSome{_errWrap{nil}, c}";
           "}";
           EmptyString;
           "func (e *errSome) Error() string {";
           tab ++ "if e.cause == nil {";
           tab ++ tab ++ "return fmt.Sprintf(" ++ dq ++ "failed for %s" ++ dq
               ++ ", e.c.Field[0])";
           tab ++ "}";
           tab ++ "return fmt.Sprintf(" ++ dq ++ "failed for %s: %v" ++ dq
               ++ ", e.c.Field[0], e.cause)";
           "}";
           EmptyString ]
         ++ wrapOut "errSome"
         ++ [ "func (*errSome) Is(e Err) bool { return e == ErrSome }";
              EmptyString ]).

End Golden.

(** * Loading the package and the command line

    The rest of [gorror.go]: [processFile] and [loadPackage], which collect the
    specs from the syntax trees of the package, and [main]. *)

(** ** Syntax trees (packages go/token and go/ast) *)

Module Source.

(** The tokens the collector tests for: the keyword of a general declaration
    and the kind of a basic literal. *)
Inductive Token : Type :=
| IMPORT | CONST | TYPE | VAR
| INT | FLOAT | IMAG | CHAR | STRING.

(** The nodes of a file ([ast.Node]).  The collector tells general
    declarations, value specs, call expressions, identifiers and basic
    literals apart; [Other] stands for every other kind of node, with the name
    of its Go type and the children [ast.Walk] visits, in order.  The names of
    a value spec are identifiers, kept by their [Name].  Comment groups are
    left out: they hold no declaration. *)
#[local] Unset Elimination Schemes.
Inductive Node : Type :=
| File (Name : string) (Decls : list Node)
| GenDecl (Tok : Token) (Specs : list Node)
| ValueSpec (Names : list string) (Type_ : option Node) (Values : list Node)
| CallExpr (Fun : Node) (Args : list Node)
| Ident (Name : string)
| BasicLit (Kind : Token) (Value : string)
| Other (type : string) (children : list Node).
#[local] Set Elimination Schemes.

(** A file of the package as [loadPackage] holds it ([*ast.File]): the package
    name [file.Name.Name] and the declarations. *)
Record file : Type := { Name : string; Decls : list Node }.

(** The same file as a node. *)
Definition node (f : file) : Node := File (Name f) (Decls f).

(** [packages.Package], of which only [Syntax] is read. *)
Record Package : Type := { Syntax : list file }.

(** The dynamic type of a node, as a failed type assertion prints it. *)
Definition typeOf (n : Node) : string :=
  match n with
  | File _ _ => "*ast.File"
  | GenDecl _ _ => "*ast.GenDecl"
  | ValueSpec _ _ _ => "*ast.ValueSpec"
  | CallExpr _ _ => "*ast.CallExpr"
  | Ident _ => "*ast.Ident"
  | BasicLit _ _ => "*ast.BasicLit"
  | Other type _ => type
  end.

End Source.

(** ** What the collector and [main] take from outside

    The unquoting of a literal, the printing of a node by the verb [%#v], the
    package loader, the Unicode side of [strings.TrimSpace], the file system and
    the path functions are parameters. *)

Record GoEnv : Type := {
  (** strconv.Unquote: the string a literal denotes, or the error's text *)
  strconv_Unquote : string -> string + string;
  (** the text the verb [%#v] prints for a node *)
  fmt_GoSyntax : Source.Node -> string;
  (** packages.Load with the mode [NeedSyntax]: the packages that match the
      patterns, or the error's text *)
  packages_Load : list string -> list Source.Package + string;
  (** [strings.TrimFunc(s, unicode.IsSpace)] *)
  strings_TrimFunc_IsSpace : string -> string;
  (** os.Stat followed by [IsDir], or the error's text *)
  os_Stat_IsDir : string -> bool + string;
  (** os.WriteFile: the error's text, if any *)
  os_WriteFile : string -> string -> option string;
  filepath_Dir : string -> string;
  filepath_Join : string -> string -> string
}.

(** ** More of package strings *)

(** [strings.Split(s, sep)] for a separator that is not empty: the texts
    between the successive occurrences of [sep], searched from the left.
    [skip] counts the bytes of the current separator still to step over. *)
Fixpoint splitFrom (sep : string) (skip : nat) (s : string) : string * list string :=
  match s with
  | EmptyString => (EmptyString, [])
  | String c s' =>
      match skip with
      | S k => splitFrom sep k s'
      | O =>
          if HasPrefix s sep
          then (EmptyString,
                let (p, ps) := splitFrom sep (String.length sep - 1) s' in p :: ps)
          else let (p, ps) := splitFrom sep 0 s' in (String c p, ps)
      end
  end.

Definition Split (s sep : string) : list string :=
  let (p, ps) := splitFrom sep 0 s in p :: ps.

(** The table [asciiSpace]: tab, newline, vertical tab, form feed, carriage
    return and space. *)
Definition asciiSpace (b : Z) : bool :=
  ((b =? 9) || (b =? 10) || (b =? 11) || (b =? 12) || (b =? 13) || (b =? 32))%Z.

(** Where a loop of [TrimSpace] ends: on an ASCII byte that is no space (or at
    the end of the text), or on a byte that is not ASCII.  The text is what is
    left to look at. *)
Inductive scan : Type :=
| Stop (s : string)
| NonASCII (s : string).

(** The first loop of [TrimSpace]: from the left. *)
Fixpoint scanLeft (s : string) : scan :=
  match s with
  | EmptyString => Stop EmptyString
  | String c r =>
      if (128 <=? Utf8.byte c)%Z then NonASCII s
      else if asciiSpace (Utf8.byte c) then scanLeft r
      else Stop s
  end.

(** The second loop: from the right. *)
Fixpoint scanRight (s : string) : scan :=
  match s with
  | EmptyString => Stop EmptyString
  | String c r =>
      match scanRight r with
      | Stop EmptyString =>
          if (128 <=? Utf8.byte c)%Z then NonASCII (String c EmptyString)
          else if asciiSpace (Utf8.byte c) then Stop EmptyString
          else Stop (String c EmptyString)
      | Stop r' => Stop (String c r')
      | NonASCII r' => NonASCII (String c r')
      end
  end.

(** [strings.ToLower] on an ASCII string maps the bytes [A] to [Z]. *)
Definition lowerByte (c : ascii) : ascii :=
  if Utf8.between 65 90 (Utf8.byte c) then Utf8.chr (Utf8.byte c + 32) else c.

Fixpoint mapBytes (f : ascii -> ascii) (s : string) : string :=
  match s with
  | EmptyString => EmptyString
  | String c r => String (f c) (mapBytes f r)
  end.

(** [fmt.Sprintf("%d", n)] for a length. *)
Definition itoa (n : nat) : string := NilZero.string_of_uint (Nat.to_uint n).

(** The generator with its specs set to [l], and with its package name set to
    [p]. *)
Definition withSpecs (g : Generator) (l : list ErrorSpec.t) : Generator :=
  {| typeName := typeName g; compatIs := compatIs g;
     makePub := makePub g; specSuffix := specSuffix g;
     imports := imports g; buf := buf g;
     specs := l; pkgName := pkgName g |}.

Definition withPkgName (g : Generator) (p : string) : Generator :=
  {| typeName := typeName g; compatIs := compatIs g;
     makePub := makePub g; specSuffix := specSuffix g;
     imports := imports g; buf := buf g;
     specs := specs g; pkgName := p |}.

(** The flags and arguments of the command line, as [flag.Parse] leaves
    them. *)
Record Flags : Type := {
  flagTyp : string;      (* -type *)
  flagOut : string;      (* -output *)
  flagIs : bool;         (* -is *)
  flagPub : bool;        (* -P *)
  flagSuffix : string;   (* -suffix *)
  flagImps : string;     (* -import *)
  flagArgs : list string (* flag.Args() *)
}.

(** How [main] ends when it neither exits through [log.Fatal] nor panics. *)
Inductive Outcome : Type :=
| UsageExit                      (* flag.Usage(), then os.Exit(1) *)
| NoOutput                       (* returned without writing a file *)
| Wrote (name data : string).    (* returned after os.WriteFile(name, data) *)

Section Collector.

Variable lib : GoLib.
Variable env : GoEnv.

Import Source.

Local Notation "x <- m ;; k" := (bind m (fun x => k))
  (at level 61, m at next level, right associativity).
Local Notation "m ;; k" := (bind m (fun _ => k))
  (at level 61, right associativity).

(** *** strings.TrimSpace and strings.ToLower *)

Definition TrimSpace (s : string) : string :=
  match scanLeft s with
  | NonASCII t => strings_TrimFunc_IsSpace env t
  | Stop t =>
      match scanRight t with
      | NonASCII u => strings_TrimFunc_IsSpace env u
      | Stop u => u
      end
  end.

Definition ToLower (s : string) : string :=
  if isASCII s then mapBytes lowerByte s
  else writeMapped (map (unicode_ToLower lib) (runes s)).

(** *** Panics and indexing *)

Definition panic {A} (msg : string) : M A := fun g l => (Panic msg, l).

(** [l[0]] *)
Definition first {A} (l : list A) : M A :=
  match l with
  | a :: _ => ret a
  | [] => panic "runtime error: index out of range [0] with length 0"
  end.

(** *** ast.Inspect

    [f] is called on the node; when it returns true the children are walked in
    order and [f] is called on nil. *)

Section Walk.

Variable f : option Node -> M bool.

Definition leave : M unit := _ <- f None ;; ret tt.

(** A node without children. *)
Definition inspectLeaf (n : Node) : M unit :=
  more <- f (Some n) ;;
  if more then leave else ret tt.

Fixpoint Inspect (n : Node) : M unit :=
  let walkList :=
    fix walkList (l : list Node) : M unit :=
      match l with
      | [] => ret tt
      | c :: l' => Inspect c ;; walkList l'
      end in
  more <- f (Some n) ;;
  if more then
    match n with
    | File name decls => inspectLeaf (Ident name) ;; walkList decls
    | GenDecl _ specs => walkList specs
    | ValueSpec names type values =>
        range names (fun _ name => inspectLeaf (Ident name)) ;;
        match type with
        | Some t => Inspect t
        | None => ret tt
        end ;;
        walkList values
    | CallExpr fn args => Inspect fn ;; walkList args
    | Ident _ | BasicLit _ _ => ret tt
    | Other _ children => walkList children
    end ;;
    leave
  else ret tt.

End Walk.

(** *** Generator.processFile, lines 174-226 *)

(** Lines 181-198: the type of the spec; [None] where the loop continues. *)
Definition specType (type : option Node) (values : list Node) : M (option string) :=
  match type with
  | None =>
      v <- first values ;;
      match v with
      | CallExpr (Ident name) _ => ret (Some name)
      | _ => ret None
      end
  | Some (Ident name) => ret (Some name)
  | Some _ => ret None
  end.

(** Lines 203-218: the literal that holds the template. *)
Definition literal (typ : string) (v : Node) : M string :=
  match v with
  | CallExpr _ args =>
      a <- first args ;;
      match a with
      | BasicLit STRING s => ret s
      | _ => log_Fatalf ("expected string literal, got " ++ fmt_GoSyntax env a ++ nl)
      end
  | BasicLit STRING s => ret s
  | _ => log_Fatalf ("expected string literal or cast to " ++ typ ++ ", got "
                     ++ fmt_GoSyntax env v ++ nl)
  end.

Definition appendSpec (s : ErrorSpec.t) : M unit :=
  fun g l => (Ok (tt, withSpecs g (specs g ++ [s])%list), l).

(** The body of the loop over the specs of a constant declaration. *)
Definition processSpec (spec : Node) : M unit :=
  match spec with
  | ValueSpec names type values =>
      typ <- specType type values ;;
      match typ with
      | None => ret tt
      | Some typ =>
          g <- this ;;
          if negb (String.eqb typ (typeName g)) then ret tt
          else
            name <- first names ;;
            v <- first values ;;
            template <- literal typ v ;;
            match strconv_Unquote env template with
            | inr err => log_Fatalf err
            | inl template => appendSpec (ErrorSpec.Make name template)
            end
      end
  | _ => panic ("interface conversion: ast.Spec is " ++ typeOf spec
                ++ ", not *ast.ValueSpec")
  end.

Definition processFile (node : option Node) : M bool :=
  match node with
  | Some (GenDecl CONST specs) =>
      range specs (fun _ spec => processSpec spec) ;;
      ret false
  | _ => ret true
  end.

(** *** Generator.loadPackage, lines 148-166 *)

Definition setPkgName (p : string) : M unit :=
  fun g l => (Ok (tt, withPkgName g p), l).

Definition loadPackage (pattern : list string) : M unit :=
  match packages_Load env pattern with
  | inr err => log_Fatalf err
  | inl pkgs =>
      when (negb (Z.of_nat (List.length pkgs) =? 1)%Z)
           (log_Fatalf ("too many packages: found " ++ itoa (List.length pkgs)
                        ++ ", expected 1")) ;;
      pkg <- first pkgs ;;
      range (Syntax pkg)
            (fun _ file =>
               _ <- processFile (Some (node file)) ;;
               setPkgName (Name file) ;;
               Inspect processFile (node file))
  end.

(** *** isDirectory, lines 123-129 *)

Definition isDirectory (s : string) : result bool :=
  match os_Stat_IsDir env s with
  | inr err => Fatal err
  | inl d => Ok d
  end.

(** *** main, lines 57-121 *)

(** Lines 80-87: the import paths of the flag [-import]. *)
Definition importList (imps : string) : list string :=
  sort_Strings
    (fold_left (fun imports s =>
                  let s := TrimSpace s in
                  if (0 <? len s)%Z then (imports ++ [s])%list else imports)
               (Split imps ",") []).

(** Lines 68-78: the arguments and the directory of the output. *)
Definition arguments (fl : Flags) : list string :=
  if (Z.of_nat (List.length (flagArgs fl)) <? 1)%Z then ["."] else flagArgs fl.

Definition directory (args : list string) : result string :=
  match args with
  | [] => Panic "runtime error: index out of range [0] with length 0"
  | a :: rest =>
      match rest with
      | [] => rbind (isDirectory a)
                    (fun d => Ok (if d then a else filepath_Dir env a))
      | _ => Ok (filepath_Dir env a)
      end
  end.

(** Lines 112-116: the name of the output file. *)
Definition outputName (fl : Flags) (g : Generator) (dir : string) : string :=
  if String.eqb (flagOut fl) EmptyString
  then filepath_Join env dir (ToLower (typeName g ++ "_def.go"))
  else flagOut fl.

Definition main (fl : Flags) : result Outcome * list string :=
  if String.eqb (flagTyp fl) EmptyString then (Ok UsageExit, [])
  else
    let args := arguments fl in
    match directory args with
    | Fatal e => (Fatal e, [])
    | Panic e => (Panic e, [])
    | Ok dir =>
        let g := {| typeName := flagTyp fl; compatIs := flagIs fl;
                    makePub := flagPub fl; specSuffix := flagSuffix fl;
                    imports := importList (flagImps fl); buf := EmptyString;
                    specs := []; pkgName := EmptyString |} in
        match (loadPackage args ;; emit lib) g [] with
        | (Fatal e, l) => (Fatal e, l)
        | (Panic e, l) => (Panic e, l)
        | (Ok (None, _), l) => (Ok NoOutput, l)
        | (Ok (Some src, g'), l) =>
            match os_WriteFile env (outputName fl g' dir) src with
            | Some err => (Fatal ("writing output: " ++ err), l)
            | None => (Ok (Wrote (outputName fl g' dir) src), l)
            end
        end
    end.

End Collector.

(** ** A host environment to run the collector and [main]

    It stands for the Go distribution and the operating system on the inputs
    used below: string literals in double quotes without escapes, a loader that
    returns the given packages, a file system that accepts every write and
    slash-separated paths. *)

Module HostSys.

Import Source.

Fixpoint plain (s : string) : bool :=
  match s with
  | EmptyString => true
  | String c r => negb (Ascii.eqb c "034") && negb (Ascii.eqb c "092") && plain r
  end.

Definition Unquote (s : string) : string + string :=
  match s with
  | String "034" r =>
      let body := take (String.length r - 1) r in
      if HasSuffix r dq && plain body then inl body else inr "invalid syntax"
  | _ => inr "invalid syntax"
  end.

Definition goenv (pkgs : list Package) : GoEnv :=
  {| strconv_Unquote := Unquote;
     fmt_GoSyntax := fun n => "&" ++ drop 1 (typeOf n) ++ "{}";
     packages_Load := fun _ => inl pkgs;
     strings_TrimFunc_IsSpace := fun s => s;
     os_Stat_IsDir := fun _ => inl true;
     os_WriteFile := fun _ _ => None;
     filepath_Dir := fun _ => ".";
     filepath_Join := fun d f => d ++ "/" ++ f |}.

(** A string literal in double quotes. *)
Definition lit (s : string) : Node := BasicLit STRING (dq ++ s ++ dq).

(** [type Err string] *)
Definition typeErr : Node :=
  GenDecl TYPE [Other "*ast.TypeSpec" [Ident "Err"; Ident "string"]].

(** The file a golden test writes: [package test], [type Err string] and
    [const name = Err("template")]. *)
Definition goldenFile (spec : ErrorSpec.t) : file :=
  {| Name := "test";
     Decls := [typeErr;
               GenDecl CONST
                 [ValueSpec [ErrorSpec.name spec] None
                    [CallExpr (Ident "Err") [lit (ErrorSpec.template spec)]]]] |}.

End HostSys.

(** * Definitions used to state the further properties *)

Section Collected.

Variable env : GoEnv.

Import Source.

(** [spec] declares the constant [name] of the type [T] with the literal
    [lit]: [name T = lit], [name T = f(lit)] or [name = T(lit)].  Only the
    first name and the first value of the spec count. *)
Inductive declares (T : string) : Node -> string -> string -> Prop :=
| typed_literal name names lit vs :
    declares T (ValueSpec (name :: names) (Some (Ident T))
                          (BasicLit STRING lit :: vs)) name lit
| typed_call name names fn lit args vs :
    declares T (ValueSpec (name :: names) (Some (Ident T))
                          (CallExpr fn (BasicLit STRING lit :: args) :: vs)) name lit
| cast name names lit args vs :
    declares T (ValueSpec (name :: names) None
                          (CallExpr (Ident T) (BasicLit STRING lit :: args) :: vs))
             name lit.

(** [spec] is a value spec the collector passes over: its type is another
    identifier or no identifier, or it has no type and its first value is not a
    call of [T]. *)
Inductive skipped (T : string) : Node -> Prop :=
| other_type names T' vs :
    T' <> T -> skipped T (ValueSpec names (Some (Ident T')) vs)
| type_expr names t vs :
    (forall n, t <> Ident n) -> skipped T (ValueSpec names (Some t) vs)
| other_cast names T' args vs :
    T' <> T -> skipped T (ValueSpec names None (CallExpr (Ident T') args :: vs))
| no_cast names v vs :
    (forall n args, v <> CallExpr (Ident n) args) ->
    skipped T (ValueSpec names None (v :: vs)).

(** The error specs of a list of value specs: one for each spec that declares
    a constant of type [T], in order. *)
Inductive collects (T : string) : list Node -> list ErrorSpec.t -> Prop :=
| collects_nil : collects T [] []
| collects_declared spec name lit template rest new :
    declares T spec name lit ->
    strconv_Unquote env lit = inl template ->
    collects T rest new ->
    collects T (spec :: rest) (ErrorSpec.Make name template :: new)
| collects_skipped spec rest new :
    skipped T spec -> collects T rest new -> collects T (spec :: rest) new.

(** [spec] has the type [T] and its first value [v]. *)
Inductive typedAs (T : string) : Node -> Node -> Prop :=
| typedAs_type name names v vs :
    typedAs T (ValueSpec (name :: names) (Some (Ident T)) (v :: vs)) v
| typedAs_cast name names args vs :
    typedAs T (ValueSpec (name :: names) None (CallExpr (Ident T) args :: vs))
            (CallExpr (Ident T) args).

(** [n] is a string literal. *)
Definition stringLit (n : Node) : Prop := exists s, n = BasicLit STRING s.

(** The value [v] of a spec of type [T] holds no template, and the collector
    reports [msg]. *)
Inductive rejects (T : string) : Node -> string -> Prop :=
| rejects_argument fn a args :
    ~ stringLit a ->
    rejects T (CallExpr fn (a :: args))
            ("expected string literal, got " ++ fmt_GoSyntax env a ++ nl)
| rejects_value v :
    (forall fn args, v <> CallExpr fn args) -> ~ stringLit v ->
    rejects T v ("expected string literal or cast to " ++ T ++ ", got "
                 ++ fmt_GoSyntax env v ++ nl).

End Collected.

(** The value specs of the constant declarations of a tree, in source order.
    What stands below a constant declaration is not looked at. *)
Fixpoint constSpecs (n : Source.Node) : list Source.Node :=
  match n with
  | Source.GenDecl Source.CONST specs => specs
  | Source.GenDecl _ specs => flat_map constSpecs specs
  | Source.File _ decls => flat_map constSpecs decls
  | Source.ValueSpec _ type values =>
      (match type with
       | Some t => constSpecs t
       | None => []
       end ++ flat_map constSpecs values)%list
  | Source.CallExpr fn args => (constSpecs fn ++ flat_map constSpecs args)%list
  | Source.Ident _ | Source.BasicLit _ _ => []
  | Source.Other _ children => flat_map constSpecs children
  end.

(** The generator after loading: the specs and the package name set. *)
Definition loaded (g : Generator) (new : list ErrorSpec.t) (p : string) : Generator :=
  {| typeName := typeName g; compatIs := compatIs g;
     makePub := makePub g; specSuffix := specSuffix g;
     imports := imports g; buf := buf g;
     specs := (specs g ++ new)%list; pkgName := p |}.

(** Two runs that end alike from every generator and log. *)
Definition same {A} (m1 m2 : M A) : Prop := forall g l, m1 g l = m2 g l.

Section WalkList.

Variable f : option Source.Node -> M bool.

(** The walk over a list of nodes, one after the other. *)
Fixpoint walkList (l : list Source.Node) : M unit :=
  match l with
  | [] => ret tt
  | c :: l' => bind (Inspect f c) (fun _ => walkList l')
  end.

End WalkList.

(** ** The generated file *)

Section Emitted.

Variable lib : GoLib.

(** [d] is the text of the five declaration groups of [spec]: its name and its
    template are accepted. *)
Definition declared (g : Generator) (spec : ErrorSpec.t) (d : string) : Prop :=
  exists sn pt,
    structName lib g (ErrorSpec.name spec) = Ok sn
    /\ parseTemplate lib (ErrorSpec.template spec) = Ok pt
    /\ d = declarations lib g spec sn pt.

(** The shared declarations: the preamble, then the stub or the chain search. *)
Definition headerText (g : Generator) : string :=
  Preamble.common lib g
  ++ if compatIs g then Preamble.stub (typeName g) else Preamble.isIn (typeName g).

End Emitted.

(** ** The import flag *)

(** Every byte of [s] is in the table [asciiSpace]. *)
Fixpoint blank (s : string) : bool :=
  match s with
  | EmptyString => true
  | String c r => asciiSpace (Utf8.byte c) && blank r
  end.

(** [s] is ASCII text without a comma ... *)
Fixpoint plainText (s : string) : bool :=
  match s with
  | EmptyString => true
  | String c r => (Utf8.byte c <? 128)%Z && negb (Ascii.eqb c ",") && plainText r
  end.

(** ... that does not end with a space ... *)
Fixpoint endsTidy (s : string) : bool :=
  match s with
  | EmptyString => false
  | String c EmptyString => negb (asciiSpace (Utf8.byte c))
  | String _ r => endsTidy r
  end.

(** ... nor starts with one, and is not empty: an import path as it is meant
    to be written. *)
Definition tidy (s : string) : bool :=
  plainText s && endsTidy s
  && match s with
     | String c _ => negb (asciiSpace (Utf8.byte c))
     | EmptyString => false
     end.

(** The entries of the flag, between the commas, and the paths they give: an
    entry is a path with spaces around it, or spaces only. *)
Inductive written : list string -> list string -> Prop :=
| written_nil : written [] []
| written_path p x q es l :
    blank p = true -> tidy x = true -> blank q = true ->
    written es l -> written ((p ++ x ++ q) :: es) (x :: l)
| written_blank p es l :
    blank p = true -> written es l -> written (p :: es) l.

(** ** The run of [main] *)

(** The generator [main] builds from the flags, after loading: its specs and
    its package name set. *)
Definition loadedFrom (env : GoEnv) (fl : Flags) (new : list ErrorSpec.t)
           (p : string) : Generator :=
  {| typeName := flagTyp fl; compatIs := flagIs fl;
     makePub := flagPub fl; specSuffix := flagSuffix fl;
     imports := importList env (flagImps fl); buf := EmptyString;
     specs := new; pkgName := p |}.

(** ** Templates and names *)

(** The field of a placeholder: its type, verb and accessor as written, and
    the identifier at the root of the accessor as its name. *)
Definition fieldOf (lib : GoLib) (p : piece) (f : Field.t) : Prop :=
  Field.typ f = ty p /\ Field.fmt f = vb p /\ Field.val f = acc p
  /\ exists e, parser_ParseExpr lib (acc p) = inl e /\ RootOf e (Field.name f).

(** The token of [p] is one [tmplRE] accepts. *)
Definition accepted (p : piece) : Prop :=
  accessorText (acc p) /\ typeText (ty p) /\ verbText (vb p).

(** A placeholder token occurs in [s]. *)
Definition holdsToken (s : string) : Prop :=
  exists pre a t v post,
    s = pre ++ token a t v ++ post
    /\ accessorText a /\ typeText t /\ verbText v.

(** [unicode.ToUpper] on an ASCII byte. *)
Definition upperByte (c : ascii) : ascii :=
  if Utf8.between 97 122 (Utf8.byte c) then Utf8.chr (Utf8.byte c - 32) else c.

(** What [structName] makes of the remainder of a name. *)
Definition trimmed (g : Generator) (rest : string) : string :=
  if (0 <? len (specSuffix g))%Z then TrimSuffix rest (specSuffix g) else rest.

(** ** Names in UTF-8 *)

(** utf8.ValidString: no byte of [s] decodes as an encoding error.  [skip]
    counts the bytes of the current rune still to step over. *)
Fixpoint validFrom (skip : nat) (s : string) : bool :=
  match s with
  | EmptyString => true
  | String _ s' =>
      match skip with
      | S k => validFrom k s'
      | O =>
          let (r, w) := DecodeRuneInString s in
          negb ((r =? RuneError)%Z && (w =? 1)%nat) && validFrom (w - 1) s'
      end
  end.

Definition ValidString (s : string) : bool := validFrom 0 s.

(** The first rune of a declared-type name, as the specification words it: the
    first rune [r] of the spec name in upper case when the type is public, in
    lower case when it is not.  In ASCII the capitals are [A] to [Z], 65 to
    90, the small letters [a] to [z], 97 to 122, a letter and its capital 32
    apart, and no other rune has a case; beyond ASCII the tables of package
    unicode give the case. *)
Definition caseOfFirst (lib : GoLib) (pub : bool) (r : rune) : rune :=
  if (r <? 128)%Z
  then (if pub
        then (if (97 <=? r)%Z && (r <=? 122)%Z then r - 32 else r)
        else (if (65 <=? r)%Z && (r <=? 90)%Z then r + 32 else r))%Z
  else unicode_To lib (if pub then UpperCase else LowerCase) r.

(** ** What the collector leaves alone *)

(** [g'] is [g] with specs added at the end. *)
Definition extends (g g' : Generator) : Prop :=
  exists new, g' = withSpecs g (specs g ++ new)%list.

(** The run [r], started from [g] and the log [l]: if it returned, it has
    logged nothing and left the generator as it was but for specs added at
    the end.  Nothing is said of a run that exits or panics. *)
Definition framed {A} (g : Generator) (l : list string)
           (r : result (A * Generator) * list string) : Prop :=
  match fst r with
  | Ok (_, g') => snd r = l /\ extends g g'
  | Fatal _ | Panic _ => True
  end.

(** * Properties *)

(** Closed statements are settled by evaluating the model. *)
Ltac run := vm_compute; reflexivity.
Ltac runs :=
  repeat match goal with
         | |- _ /\ _ => split
         end; run.

(** ** UTF-8: samples *)

(** U+00E9, U+20AC and U+1F600, then a stray continuation byte. *)
Example runes_sample :
  runes (String "195" (String "169" (String "226" (String "130" (String "172"
        (String "240" (String "159" (String "152" (String "128"
        (String "169" EmptyString))))))))))
  = [233; 8364; 128512; RuneError]%Z.
Proof. vm_compute. reflexivity. Qed.

Example ofRunes_sample :
  ofRunes [233; 8364; 128512; 55296]%Z
  = String "195" (String "169" (String "226" (String "130" (String "172"
   (String "240" (String "159" (String "152" (String "128"
   (String "239" (String "191" (String "189" EmptyString))))))))))).
Proof. vm_compute. reflexivity. Qed.

(** ** The golden tests pass on the model *)

Example golden_simple :
  Host.output (generate Host.golib Golden.simpleIn) (Host.testGenerator false)
  = Ok Golden.simpleOut.
Proof. run. Qed.

Example golden_simpleCompatIs :
  Host.output (generate Host.golib Golden.simpleIn) (Host.testGenerator true)
  = Ok Golden.simpleErrIsOut.
Proof. run. Qed.

Example golden_oneField :
  Host.output (generate Host.golib Golden.oneFieldIn) (Host.testGenerator false)
  = Ok Golden.oneFieldOut.
Proof. run. Qed.

Example golden_complexField :
  Host.output (generate Host.golib Golden.complexFieldIn) (Host.testGenerator false)
  = Ok Golden.complexFieldOut.
Proof. run. Qed.

Example golden_mustWrap :
  Host.output (generate Host.golib Golden.mustWrapIn) (Host.testGenerator false)
  = Ok Golden.mustWrapOut.
Proof. run. Qed.

Example golden_noWrap :
  Host.output (generate Host.golib Golden.noWrapIn) (Host.testGenerator false)
  = Ok Golden.noWrapOut.
Proof. run. Qed.

(** ** Strings *)

Section StringFacts.

Lemma app_nil_r (s : string) : s ++ EmptyString = s.
Proof. induction s; simpl; congruence. Qed.

Lemma app_assoc (a b c : string) : (a ++ b) ++ c = a ++ b ++ c.
Proof. induction a; simpl; congruence. Qed.

Lemma length_app (a b : string) :
  String.length (a ++ b) = (String.length a + String.length b)%nat.
Proof. induction a; simpl; auto. Qed.

Lemma take_app (a b : string) : take (String.length a) (a ++ b) = a.
Proof. induction a; simpl; [destruct b; reflexivity | congruence]. Qed.

Lemma drop_app (a b : string) : drop (String.length a) (a ++ b) = b.
Proof. induction a; simpl; auto. Qed.

Lemma take_drop (n : nat) (s : string) : take n s ++ drop n s = s.
Proof.
  revert s; induction n; intros [|c s]; simpl; auto. now rewrite IHn.
Qed.

Lemma length_take (n : nat) (s : string) :
  (n <= String.length s)%nat -> String.length (take n s) = n.
Proof.
  revert s; induction n; intros [|c s]; simpl; intros; auto; try lia.
  rewrite IHn; lia.
Qed.

Lemma app_inv_head (a b c : string) : a ++ b = a ++ c -> b = c.
Proof. induction a; simpl; intros H; auto. injection H; auto. Qed.

Lemma app_inv_tail (a b c : string) : a ++ c = b ++ c -> a = b.
Proof.
  revert b; induction a; intros [|d b]; simpl; intros H; auto.
  - exfalso. apply (f_equal String.length) in H. simpl in H.
    rewrite length_app in H. lia.
  - exfalso. apply (f_equal String.length) in H. simpl in H.
    rewrite length_app in H. lia.
  - injection H as -> H. f_equal. auto.
Qed.

Lemma HasPrefix_iff (s p : string) :
  HasPrefix s p = true <-> exists r, s = p ++ r.
Proof.
  unfold HasPrefix, len. split.
  - intros H. apply andb_true_iff in H as [_ H].
    apply String.eqb_eq in H. exists (drop (String.length p) s).
    rewrite <- H at 1. symmetry. apply take_drop.
  - intros [r ->]. rewrite take_app, String.eqb_refl, length_app.
    rewrite andb_true_r. apply Z.leb_le. lia.
Qed.

Lemma HasPrefix_app (p r : string) : HasPrefix (p ++ r) p = true.
Proof. apply HasPrefix_iff. now exists r. Qed.

Lemma TrimPrefix_app (p r : string) : TrimPrefix (p ++ r) p = r.
Proof. unfold TrimPrefix. now rewrite HasPrefix_app, drop_app. Qed.

Lemma HasSuffix_iff (s x : string) :
  HasSuffix s x = true <-> exists r, s = r ++ x.
Proof.
  unfold HasSuffix, len. split.
  - intros H. apply andb_true_iff in H as [_ H].
    apply String.eqb_eq in H.
    exists (take (String.length s - String.length x) s).
    rewrite <- H at 2. symmetry. apply take_drop.
  - intros [r ->]. rewrite length_app.
    replace (String.length r + String.length x - String.length x)%nat
      with (String.length r) by lia.
    rewrite drop_app, String.eqb_refl, andb_true_r. apply Z.leb_le. lia.
Qed.

Lemma TrimSuffix_app (r x : string) : TrimSuffix (r ++ x) x = r.
Proof.
  unfold TrimSuffix.
  rewrite (proj2 (HasSuffix_iff (r ++ x) x)) by now exists r.
  rewrite length_app.
  replace (String.length r + String.length x - String.length x)%nat
    with (String.length r) by lia.
  apply take_app.
Qed.

Lemma TrimSuffix_other (s x : string) :
  (forall r, s <> r ++ x) -> TrimSuffix s x = s.
Proof.
  intros H. unfold TrimSuffix. destruct (HasSuffix s x) eqn:E; auto.
  apply HasSuffix_iff in E as [r ->]. now destruct (H r).
Qed.

End StringFacts.

(** ** Naming policy *)

Section Naming.

Variable lib : GoLib.

Lemma runes_nil_iff (s : string) : runes s = [] <-> s = EmptyString.
Proof.
  split; [|intros ->; reflexivity].
  destruct s as [|c s]; auto. unfold runes; cbn [runesFrom].
  destruct (DecodeRuneInString (String c s)); discriminate.
Qed.

Lemma chr_byte (c : ascii) : Utf8.chr (Utf8.byte c) = c.
Proof.
  unfold Utf8.chr, Utf8.byte.
  pose proof (N_ascii_bounded c) as B.
  rewrite Z.mod_small by lia. rewrite N2Z.id. apply ascii_N_embedding.
Qed.

Lemma ofRunes_runes_ASCII (s : string) :
  isASCII s = true -> ofRunes (runes s) = s.
Proof.
  unfold runes. induction s as [|c s IH]; auto. simpl isASCII. intros H.
  apply andb_true_iff in H as [Hc H]. cbn [runesFrom].
  unfold DecodeRuneInString. cbv zeta. rewrite Hc. cbn [Nat.sub ofRunes].
  rewrite IH by auto. unfold EncodeRune.
  assert (0 <= Utf8.byte c)%Z by (unfold Utf8.byte; lia).
  apply Z.ltb_lt in Hc.
  replace (Utf8.byte c <? 0)%Z with false by (symmetry; apply Z.ltb_ge; lia).
  replace (Utf8.byte c <=? 127)%Z with true by (symmetry; apply Z.leb_le; lia).
  now rewrite chr_byte.
Qed.

Lemma nonempty_length (s : string) : s <> EmptyString <-> (0 < len s)%Z.
Proof.
  unfold len. destruct s; simpl; split; intros; try lia; congruence.
Qed.

Lemma structName_total (g : Generator) (specName : string) :
  specName <> EmptyString -> exists n, structName lib g specName = Ok n.
Proof.
  intros N. unfold structName. destruct (runes specName) eqn:E.
  - apply runes_nil_iff in E. now destruct N.
  - eexists. reflexivity.
Qed.

(** C10. [structName] indexes [runes[0]] whatever the spec name is: on the
    empty name it panics with an index out of range, and these are the only
    names on which it has no result. *)
Theorem structName_panics_iff_empty (g : Generator) (specName : string) :
  (structName lib g specName = Panic "runtime error: index out of range [0] with length 0"
   <-> specName = EmptyString)
  /\ ((exists n, structName lib g specName = Ok n) <-> specName <> EmptyString).
Proof.
  unfold structName. destruct (runes specName) as [|r0 tail] eqn:E.
  - apply runes_nil_iff in E. subst. repeat split; auto.
    + intros [n H]; discriminate.
    + intros H. now destruct H.
  - assert (N : specName <> EmptyString).
    { intros ->. discriminate. }
    repeat split; intros H; auto; try discriminate.
    + subst. now destruct N.
    + eexists. reflexivity.
Qed.

End Naming.

(** ** [run] and what an expression matches *)

Section RegexpFacts.

Lemma allIn_app k a b : allIn k (a ++ b) = allIn k a && allIn k b.
Proof. induction a; simpl; auto. now rewrite IHa, andb_assoc. Qed.

Lemma hit_eta h : Hit (text h) (caps h) (rest h) = h.
Proof. now destruct h. Qed.

Lemma star_spec k s h :
  In h (star k s) <->
  s = text h ++ rest h /\ caps h = [] /\ allIn k (text h) = true.
Proof.
  revert h; induction s as [|c s IH]; intros [m cs r]; simpl.
  - split.
    + intros [H|[]]. injection H as <- <- <-. auto.
    + intros (H & -> & _). destruct m; simpl in H; [|discriminate].
      left. congruence.
  - destruct (inClass k c) eqn:E.
    + rewrite in_app_iff, in_map_iff. split.
      * intros [(h0 & H & Hin)|[H|[]]].
        -- apply IH in Hin as (-> & Hc & Ha). destruct h0 as [m0 c0 r0].
           unfold consHit in H; simpl in *. injection H as <- <- <-.
           simpl. rewrite E, Ha. auto.
        -- injection H as <- <- <-. auto.
      * intros (H & -> & Ha). destruct m as [|d m]; simpl in *.
        -- right. left. congruence.
        -- left. injection H as <- ->. apply andb_true_iff in Ha as [_ Ha].
           exists (Hit m [] r). split; auto. apply IH. auto.
    + split.
      * intros [H|[]]. injection H as <- <- <-. auto.
      * intros (H & -> & Ha). destruct m as [|d m]; simpl in *.
        -- left. congruence.
        -- injection H as <- ->. rewrite E in Ha. discriminate.
Qed.

Lemma plus_spec k s h :
  In h (plus k s) <->
  s = text h ++ rest h /\ caps h = [] /\ allIn k (text h) = true
  /\ text h <> EmptyString.
Proof.
  destruct h as [m cs r]. destruct s as [|c s]; simpl.
  - split; [intros []|]. intros (H & _ & _ & N). destruct m; [congruence|discriminate].
  - destruct (inClass k c) eqn:E.
    + rewrite in_map_iff. split.
      * intros (h0 & H & Hin). apply star_spec in Hin as (-> & Hc & Ha).
        destruct h0 as [m0 c0 r0]. unfold consHit in H; simpl in *.
        injection H as <- <- <-. simpl. rewrite E, Ha. repeat split; auto. discriminate.
      * intros (H & -> & Ha & N). destruct m as [|d m]; [congruence|].
        simpl in *. injection H as <- ->. apply andb_true_iff in Ha as [_ Ha].
        exists (Hit m [] r). split; auto. apply star_spec. auto.
    + split; [intros []|]. intros (H & _ & Ha & N).
      destruct m as [|d m]; [congruence|]. simpl in *.
      injection H as <- ->. rewrite E in Ha. discriminate.
Qed.

(** [run] lists exactly the ways [r] matches a prefix of [s]. *)
Lemma run_spec r : forall s h,
  In h (run r s) <-> Den r (text h) (caps h) /\ s = text h ++ rest h.
Proof.
  induction r as [l|k|r IH|r1 IH1 r2 IH2|r IH]; intros s [m cs rs]; simpl.
  - destruct (HasPrefix s l) eqn:E.
    + apply HasPrefix_iff in E as [x ->]. rewrite drop_app. split.
      * intros [H|[]]. injection H as <- <- <-. split; [constructor|auto].
      * intros [D H]. inversion D; subst. apply app_inv_head in H. left. congruence.
    + split; [intros []|]. intros [D H]. inversion D; subst.
      rewrite HasPrefix_app in E. discriminate.
  - rewrite plus_spec. simpl. split.
    + intros (-> & -> & Ha & N). split; [now constructor|auto].
    + intros [D ->]. inversion D; subst. auto.
  - rewrite in_app_iff, IH. simpl. split.
    + intros [[D ->]|[H|[]]].
      * split; [now constructor|auto].
      * injection H as <- <- <-. split; [apply DOptNone|auto].
    + intros [D ->]. inversion D; subst; auto.
  - rewrite in_flat_map. split.
    + intros (h1 & H1 & H). apply in_map_iff in H as (h2 & H & H2).
      apply IH1 in H1 as [D1 ->]. apply IH2 in H2 as [D2 E2].
      injection H as <- <- <-. rewrite E2, app_assoc.
      split; [now constructor|auto].
    + intros [D ->]. inversion D; subst.
      exists (Hit m1 c1 (m2 ++ rs)). split.
      * apply IH1. simpl. rewrite app_assoc. auto.
      * apply in_map_iff. exists (Hit m2 c2 rs). split; auto. apply IH2. auto.
  - rewrite in_map_iff. split.
    + intros (h & H & Hin). apply IH in Hin as [D ->].
      injection H as <- <- <-. split; [now constructor|auto].
    + intros [D ->]. inversion D; subst.
      exists (Hit m c rs). split; auto. apply IH. auto.
Qed.

End RegexpFacts.

(** ** [tmplRE] matches tokens, each in one way *)

Section PlaceholderFacts.

Lemma tmplRE_den m c :
  Den tmplRE m c <->
  exists a t v, m = token a t v /\ c = [a; t; v]
                /\ accessorText a /\ typeText t /\ verbText v.
Proof.
  split.
  - intros D. unfold tmplRE in D.
    repeat match goal with
           | H : Den (Cat _ _) _ _ |- _ => inversion H; subst; clear H
           | H : Den (Group _) _ _ |- _ => inversion H; subst; clear H
           | H : Den (Lit _) _ _ |- _ => inversion H; subst; clear H
           | H : Den (Plus _) _ _ |- _ => inversion H; subst; clear H
           | H : Den (Opt _) _ _ |- _ => inversion H; subst; clear H
           end.
    all: match goal with
         | Ha : allIn accessorClass ?a = true, Ht : allIn typeClass ?t = true,
           Hv : allIn verbClass ?v = true |- _ =>
             eexists a, _, ("%" ++ v);
             split; [reflexivity|]; split; [reflexivity|];
             split; [split; assumption|];
             split; [exists t|exists v]; repeat split; auto
         end.
  - intros (a & t & v & -> & -> & [Na Ha] & (t' & [Nt Ht] & Et) & (v' & [Nv Hv] & ->)).
    destruct Et as [->| ->].
    + exact (DCat (DLit "{{") (DCat (DGroup (DPlus _ Na Ha)) (DCat (DLit " ")
              (DCat (DGroup (DCat (DOptNone (Lit "*")) (DPlus _ Nt Ht)))
              (DCat (DLit " ") (DCat (DGroup (DCat (DLit "%") (DPlus _ Nv Hv)))
              (DLit "}}"))))))).
    + exact (DCat (DLit "{{") (DCat (DGroup (DPlus _ Na Ha)) (DCat (DLit " ")
              (DCat (DGroup (DCat (DOptSome (DLit "*")) (DPlus _ Nt Ht)))
              (DCat (DLit " ") (DCat (DGroup (DCat (DLit "%") (DPlus _ Nv Hv)))
              (DLit "}}"))))))).
Qed.

Lemma split_unique k a : forall a' c c' r r',
  allIn k a = true -> allIn k a' = true ->
  inClass k c = false -> inClass k c' = false ->
  a ++ String c r = a' ++ String c' r' -> a = a' /\ c = c' /\ r = r'.
Proof.
  induction a as [|x a IH]; intros [|y a'] c c' r r' Ha Ha' Hc Hc' E;
    simpl in *.
  - injection E as -> ->. auto.
  - injection E as -> _. apply andb_true_iff in Ha' as [Hy _]. congruence.
  - injection E as -> _. apply andb_true_iff in Ha as [Hx _]. congruence.
  - injection E as -> E. apply andb_true_iff in Ha as [_ Ha].
    apply andb_true_iff in Ha' as [_ Ha'].
    destruct (IH _ _ _ _ _ Ha Ha' Hc Hc' E) as (-> & -> & ->). auto.
Qed.

Lemma allIn_weaken i k s : allIn k s = true -> allIn (i :: k) s = true.
Proof.
  induction s; simpl; auto. intros H. apply andb_true_iff in H as [H1 H2].
  rewrite H1, IHs by auto. now rewrite orb_true_r.
Qed.

Lemma typeText_class t : typeText t -> allIn (Single "*" :: typeClass) t = true.
Proof.
  intros (t' & [_ H] & [->| ->]); [|simpl]; now apply allIn_weaken.
Qed.

Lemma verbText_class v : verbText v -> allIn (Single "%" :: verbClass) v = true.
Proof.
  intros (v' & [_ H] & ->). simpl. now apply allIn_weaken.
Qed.

(** A prefix of a text is a token in one way at most. *)
Lemma token_unique a t v r a' t' v' r' :
  accessorText a -> typeText t -> verbText v ->
  accessorText a' -> typeText t' -> verbText v' ->
  token a t v ++ r = token a' t' v' ++ r' ->
  a = a' /\ t = t' /\ v = v' /\ r = r'.
Proof.
  intros [_ Ha] Ht Hv [_ Ha'] Ht' Hv' E. unfold token in E.
  repeat rewrite app_assoc in E. simpl in E. injection E as E.
  apply (split_unique accessorClass) in E as (-> & _ & E); auto.
  apply (split_unique (Single "*" :: typeClass)) in E as (-> & _ & E);
    auto using typeText_class.
  apply (split_unique (Single "%" :: verbClass)) in E as (-> & _ & E);
    auto using verbText_class.
  injection E as ->. auto.
Qed.

Lemma matchAt_tmplRE s h : matchAt tmplRE s = Some h <-> In h (run tmplRE s).
Proof.
  unfold matchAt. split.
  - destruct (run tmplRE s); simpl; [discriminate|]. intros H. injection H; auto.
  - destruct (run tmplRE s) as [|h' l] eqn:E; [intros []|].
    intros H. simpl. f_equal.
    assert (H' : In h' (run tmplRE s)) by (rewrite E; now left).
    rewrite <- E in H. apply run_spec in H as [D Es], H' as [D' Es'].
    apply tmplRE_den in D as (a & t & v & Em & Ec & Ha & Ht & Hv).
    apply tmplRE_den in D' as (a' & t' & v' & Em' & Ec' & Ha' & Ht' & Hv').
    rewrite Em in Es. rewrite Em', Es in Es'.
    destruct (token_unique Ha Ht Hv Ha' Ht' Hv' Es') as (-> & -> & -> & Er).
    destruct h, h'; simpl in *. congruence.
Qed.

(** The match at the head of [s] is the token that starts [s], with its three
    parts as the groups. *)
Lemma matchAt_token s h :
  matchAt tmplRE s = Some h <->
  exists a t v, h = Hit (token a t v) [a; t; v] (rest h)
                /\ s = token a t v ++ rest h
                /\ accessorText a /\ typeText t /\ verbText v.
Proof.
  rewrite matchAt_tmplRE, run_spec, tmplRE_den. split.
  - intros [(a & t & v & Em & Ec & H) ->]. exists a, t, v.
    rewrite <- Em, <- Ec, hit_eta. auto.
  - intros (a & t & v & -> & -> & H). simpl. split; auto. exists a, t, v. auto.
Qed.

End PlaceholderFacts.

(** ** The grammar is within what [tmplRE] matches *)

Section GrammarFacts.

Lemma inClass_incl k1 k2 c :
  incl k1 k2 -> inClass k1 c = true -> inClass k2 c = true.
Proof.
  unfold inClass. intros I H. apply existsb_exists in H as (i & Hi & H).
  apply existsb_exists. exists i. auto.
Qed.

Lemma allIn_incl k1 k2 s :
  incl k1 k2 -> allIn k1 s = true -> allIn k2 s = true.
Proof.
  intros I. induction s; simpl; auto. intros H.
  apply andb_true_iff in H as [H1 H2].
  now rewrite (inClass_incl _ I H1), IHs.
Qed.

Ltac incl_tac :=
  let x := fresh in let H := fresh in
  intros x H; simpl in *; tauto.

Lemma ident_in k s :
  incl identClass k -> ident s -> oneOrMore k s.
Proof.
  intros I (c & r & -> & Hc & Hr). split; [discriminate|]. simpl.
  rewrite (allIn_incl _ I Hr), andb_true_r.
  apply (inClass_incl _ I). revert Hc. apply inClass_incl. incl_tac.
Qed.

Lemma accessor_text a : accessor a -> accessorText a.
Proof.
  assert (I : incl identClass accessorClass) by incl_tac.
  assert (J : incl digitClass accessorClass) by incl_tac.
  induction 1 as [id H|a id _ [Na Ha] H|a ds _ [Na Ha] [_ H]].
  - now apply ident_in.
  - apply (ident_in I) in H as [_ H]. split.
    + destruct a; [congruence|discriminate].
    + rewrite allIn_app, Ha. simpl. now rewrite H.
  - split.
    + destruct a; [congruence|discriminate].
    + rewrite allIn_app, Ha. simpl. rewrite allIn_app, (allIn_incl _ J H).
      reflexivity.
Qed.

Lemma qualified_text t : qualified t -> oneOrMore typeClass t.
Proof.
  assert (I : incl identClass typeClass) by incl_tac.
  intros [H|(p & id & Hp & Hi & ->)].
  - now apply ident_in.
  - apply (ident_in I) in Hp as [Np Hp], Hi as [_ Hi]. split.
    + destruct p; [congruence|discriminate].
    + rewrite allIn_app, Hp. simpl. now rewrite Hi.
Qed.

Lemma typeExpr_text t : typeExpr t -> typeText t.
Proof.
  intros [H|(q & H & ->)]; apply qualified_text in H.
  - exists t. auto.
  - exists q. auto.
Qed.

Lemma accessor_head a :
  accessor a -> exists c r, a = String c r /\ inClass letterClass c = true.
Proof.
  induction 1 as [id (c & r & -> & Hc & _)|a id _ (c & r & -> & Hc) _
                 |a ds _ (c & r & -> & Hc) _]; simpl; eauto.
Qed.

Lemma qualified_head t :
  qualified t -> exists c r, t = String c r /\ inClass letterClass c = true.
Proof.
  intros [(c & r & -> & Hc & _)|(p & id & (c & r & -> & Hc & _) & _ & ->)];
    simpl; eauto.
Qed.

End GrammarFacts.

(** ** C5: what the placeholder parser recognizes *)

Section Recognition.

Lemma findAll_short r s : forall k,
  (String.length s <= k)%nat -> findAll r k s = [].
Proof.
  induction s as [|c s IH]; intros k H; simpl in *; auto.
  destruct k; [lia|]. apply IH. lia.
Qed.

Lemma findAll_skip r x : forall s,
  findAll r (String.length x) (x ++ s) = findAll r 0 s.
Proof. induction x; intros s; simpl; auto. Qed.

(** Every match found in a text is a token with its three parts. *)
Lemma findAll_tokens s : forall k,
  Forall (fun m => exists a t v, m = [token a t v; a; t; v]
                     /\ accessorText a /\ typeText t /\ verbText v)
         (findAll tmplRE k s).
Proof.
  induction s as [|c s IH]; intros k; simpl; auto.
  destruct k; auto.
  destruct (matchAt tmplRE (String c s)) as [h|] eqn:E; auto.
  constructor; auto.
  apply matchAt_token in E as (a & t & v & -> & _ & H). exists a, t, v. auto.
Qed.

Lemma recognized_iff a t v :
  recognized a t v <-> accessorText a /\ typeText t /\ verbText v.
Proof.
  unfold recognized. rewrite matchAt_token. simpl. split.
  - intros (a' & t' & v' & E & _ & H). injection E as _ -> -> ->. auto.
  - intros H. exists a, t, v. rewrite app_nil_r. auto.
Qed.

Lemma FindAll_token a t v :
  recognized a t v ->
  FindAllStringSubmatch tmplRE (token a t v) = [[token a t v; a; t; v]].
Proof.
  unfold recognized, FindAllStringSubmatch. intros H.
  destruct (token a t v) as [|c s] eqn:E; [discriminate|].
  cbn [findAll]. rewrite H. unfold submatch; cbn [text caps].
  rewrite findAll_short; auto. simpl. lia.
Qed.

(** C5, as the code has it.  A token is recognized exactly when its accessor is
    one or more characters of [[A-Za-z0-9_.\[\]]], its type an optional [*]
    and one or more characters of [[A-Za-z0-9_.]], and its verb [%] and one or
    more characters of [[A-Za-z0-9#.+]]; it is then the single match found in
    it, and every match found in any text is such a token with its three
    parts.  Every token of the specification's grammar is among these. *)
Theorem placeholder_recognition (a t v : string) :
  (recognized a t v <-> accessorText a /\ typeText t /\ verbText v)
  /\ (recognized a t v ->
      FindAllStringSubmatch tmplRE (token a t v) = [[token a t v; a; t; v]])
  /\ (forall s,
         Forall (fun m => exists a' t' v',
                            m = [token a' t' v'; a'; t'; v']
                            /\ accessorText a' /\ typeText t' /\ verbText v')
                (FindAllStringSubmatch tmplRE s))
  /\ (accessor a /\ typeExpr t /\ verb v -> recognized a t v).
Proof.
  split; [apply recognized_iff|]. split; [apply FindAll_token|].
  split; [intros s; apply findAll_tokens|].
  intros (Ha & Ht & Hv). apply recognized_iff.
  auto using accessor_text, typeExpr_text.
Qed.

End Recognition.

Lemma ident_Field : ident "Field".
Proof. exists "F"%char, "ield". auto. Qed.

Lemma placeholder_recognition_witness :
  recognized "c.Field[0]" "*pkg.MyStruct" "%s".
Proof.
  refine (proj2 (proj2 (proj2 (placeholder_recognition
                                 "c.Field[0]" "*pkg.MyStruct" "%s"))) _).
  repeat split.
  - apply (acc_index (a := "c.Field") (ds := "0")).
    + apply (acc_field (a := "c") (id := "Field")).
      * apply acc_ident. exists "c"%char, EmptyString. auto.
      * exact ident_Field.
    + split; [discriminate|reflexivity].
  - right. exists "pkg.MyStruct". split; auto. right.
    exists "pkg", "MyStruct". repeat split.
    + exists "p"%char, "kg". auto.
    + exists "M"%char, "yStruct". auto.
  - exists "s". repeat split. discriminate.
Defined.

(** C5 as the specification states it fails: [{{[] .. %v}}] is recognized,
    and neither is [[]] an accessor of the grammar nor [..] a type. *)
Lemma placeholder_grammar_counterexample :
  FindAllStringSubmatch tmplRE "{{[] .. %v}}" = [["{{[] .. %v}}"; "[]"; ".."; "%v"]]
  /\ recognized "[]" ".." "%v"
  /\ ~ accessor "[]" /\ ~ typeExpr "..".
Proof.
  split; [run|]. split; [run|]. split.
  - intros H. apply accessor_head in H as (c & r & E & Hc).
    injection E as <- _. discriminate.
  - intros [H|(q & H & E)]; [|discriminate].
    apply qualified_head in H as (c & r & E & Hc). injection E as <- _.
    discriminate.
Qed.

(** ** Template interpreter *)

Section Interpreter.

Variable lib : GoLib.

Lemma not_prefixed_false s p :
  (forall r, s <> p ++ r) -> HasPrefix s p = false.
Proof.
  intros H. destruct (HasPrefix s p) eqn:E; auto.
  apply HasPrefix_iff in E as [r ->]. now destruct (H r).
Qed.

Lemma parseTemplate_unfold template :
  parseTemplate lib template =
  rbind (parseMatches lib
           (FindAllStringSubmatch tmplRE (snd (wrapPrefix template))) []
           (snd (wrapPrefix template)))
        (fun '(fields, tmplStr) =>
           Ok (ParsedTemplate.Make (fst (wrapPrefix template)) fields tmplStr)).
Proof. unfold parseTemplate. now destruct (wrapPrefix template). Qed.

(** C2. A template that starts with the bytes [wrap:] is [MustWrap] and loses
    them; one that starts with [nowrap:] is [NoWrap] and loses them; any other
    is [OptWrap] and is kept whole.  The mode of the parsed template is that
    one, and its fields and format string are read from the text so left. *)
Theorem wrap_mode_by_prefix (template : string) :
  (forall r, template = "wrap:" ++ r -> wrapPrefix template = (MustWrap, r))
  /\ (forall r, template = "nowrap:" ++ r -> wrapPrefix template = (NoWrap, r))
  /\ ((forall r, template <> "wrap:" ++ r) ->
      (forall r, template <> "nowrap:" ++ r) ->
      wrapPrefix template = (OptWrap, template))
  /\ (forall pt, parseTemplate lib template = Ok pt ->
                 ParsedTemplate.wrap pt = fst (wrapPrefix template))
  /\ parseTemplate lib template =
     rbind (parseMatches lib
              (FindAllStringSubmatch tmplRE (snd (wrapPrefix template))) []
              (snd (wrapPrefix template)))
           (fun '(fields, tmplStr) =>
              Ok (ParsedTemplate.Make (fst (wrapPrefix template)) fields tmplStr)).
Proof.
  repeat split.
  - intros r ->. unfold wrapPrefix. now rewrite HasPrefix_app, TrimPrefix_app.
  - intros r ->. unfold wrapPrefix.
    replace (HasPrefix ("nowrap:" ++ r) "wrap:") with false
      by (symmetry; apply andb_false_iff; right; reflexivity).
    now rewrite HasPrefix_app, TrimPrefix_app.
  - intros H1 H2. unfold wrapPrefix.
    now rewrite (not_prefixed_false _ H1), (not_prefixed_false _ H2).
  - intros pt. rewrite parseTemplate_unfold.
    destruct (parseMatches _ _ _ _) as [[fs s]| |]; simpl; try discriminate.
    intros H. injection H as <-. reflexivity.
  - apply parseTemplate_unfold.
Qed.

End Interpreter.

Lemma wrap_mode_by_prefix_witness :
  wrapPrefix "wrap:nowrap:x" = (MustWrap, "nowrap:x")
  /\ wrapPrefix "nowrap:some error" = (NoWrap, "some error")
  /\ wrapPrefix "Wrap:x" = (OptWrap, "Wrap:x")
  /\ wrapPrefix " wrap:x" = (OptWrap, " wrap:x").
Proof.
  pose proof (wrap_mode_by_prefix Host.golib "wrap:nowrap:x") as (A & _).
  pose proof (wrap_mode_by_prefix Host.golib "nowrap:some error") as (_ & B & _).
  pose proof (wrap_mode_by_prefix Host.golib "Wrap:x") as (_ & _ & C & _).
  pose proof (wrap_mode_by_prefix Host.golib " wrap:x") as (_ & _ & D & _).
  split; [apply A; reflexivity|]. split; [apply B; reflexivity|].
  split; [apply C|apply D]; intros r; discriminate.
Defined.

(** ** [findExprRoot] and the loop over the matches *)

Lemma findExprRoot_iff e n : findExprRoot e = Some n <-> RootOf e n.
Proof.
  split.
  - induction e; simpl; intros H; try discriminate.
    + injection H as ->. constructor.
    + constructor. auto.
    + constructor. auto.
  - induction 1; simpl; auto.
Qed.

Lemma findExprRoot_none e : findExprRoot e = None <-> forall n, ~ RootOf e n.
Proof.
  split.
  - intros H n R. apply findExprRoot_iff in R. congruence.
  - intros H. destruct (findExprRoot e) as [n|] eqn:E; auto.
    apply findExprRoot_iff in E. now destruct (H n).
Qed.

Section Matches.

Variable lib : GoLib.

Lemma parseMatches_ok ms : forall fs s fs' s',
  parseMatches lib ms fs s = Ok (fs', s') ->
  exists new, fs' = (fs ++ new)%list /\ Forall2 (resolves lib) ms new.
Proof.
  induction ms as [|m ms IH]; intros fs s fs' s'; simpl.
  - intros H. injection H as <- <-. exists []. now rewrite List.app_nil_r.
  - destruct (parser_ParseExpr lib (nth 1 m EmptyString)) as [e|err] eqn:P;
      [|discriminate].
    destruct (findExprRoot e) as [n|] eqn:R; [|discriminate].
    intros H. apply IH in H as (new & -> & F).
    eexists (_ :: new). rewrite <- List.app_assoc. split; [reflexivity|].
    constructor; auto. exists e. apply findExprRoot_iff in R. simpl. auto.
Qed.

Lemma parseMatches_fatal ms : forall fs s,
  Exists (rootless lib) ms -> exists msg, parseMatches lib ms fs s = Fatal msg.
Proof.
  induction ms as [|m ms IH]; intros fs s E; [inversion E|].
  simpl. destruct (parser_ParseExpr lib (nth 1 m EmptyString)) as [e|err] eqn:P;
    [|eauto].
  destruct (findExprRoot e) as [n|] eqn:R; [|eauto].
  inversion E as [? ? [[err Q]|(e' & Q & N)]|]; subst; auto.
  - congruence.
  - rewrite P in Q. injection Q as <-. apply findExprRoot_iff in R.
    now destruct (N n).
Qed.

Lemma parseMatches_total ms : forall fs s,
  (exists r, parseMatches lib ms fs s = Ok r /\ Forall (fun m => ~ rootless lib m) ms)
  \/ (exists msg, parseMatches lib ms fs s = Fatal msg /\ Exists (rootless lib) ms).
Proof.
  induction ms as [|m ms IH]; intros fs s; simpl.
  - left. eauto.
  - destruct (parser_ParseExpr lib (nth 1 m EmptyString)) as [e|err] eqn:P.
    + destruct (findExprRoot e) as [n|] eqn:R.
      * destruct (IH (fs ++ [Field.Make n (nth 2 m EmptyString)
                                (nth 3 m EmptyString) (nth 1 m EmptyString)])%list
                     (Replace1 s (nth 0 m EmptyString) (nth 3 m EmptyString)))
          as [(r & -> & F)|(msg & -> & E)].
        -- left. eexists. split; [reflexivity|]. constructor; auto.
           intros [[err Q]|(e' & Q & N)]; [congruence|].
           rewrite P in Q. injection Q as <-. apply findExprRoot_iff in R.
           now destruct (N n).
        -- right. eauto.
      * right. eexists. split; [reflexivity|]. left. right. exists e.
        split; auto. now apply findExprRoot_none.
    + right. eexists. split; [reflexivity|]. left. left. eauto.
Qed.

End Matches.


(** ** Rules for [emits] *)

Section Emission.

Variable lib : GoLib.

Local Notation "m ;; k" := (bind m (fun _ => k))
  (at level 61, right associativity).

Lemma withBuf_buf g : withBuf g (buf g) = g.
Proof. now destruct g. Qed.

Lemma emits_eq m g a b : emits m g a -> a = b -> emits m g b.
Proof. now intros H <-. Qed.

Lemma emits_Printf s g : emits (Printf s) g s.
Proof. intros b l. reflexivity. Qed.

Lemma emits_ret g : emits (ret tt) g EmptyString.
Proof. intros b l. unfold ret. now rewrite app_nil_r. Qed.

Lemma emits_bind m k g a c :
  emits m g a -> emits k g c -> emits (m ;; k) g (a ++ c).
Proof.
  intros Hm Hk b l. unfold bind. rewrite Hm, Hk. now rewrite app_assoc.
Qed.

Lemma emits_this (k : Generator -> M unit) g out :
  (forall b, emits (k (withBuf g b)) g out) -> emits (bind this k) g out.
Proof. intros H b l. unfold bind, this. apply H. Qed.

Lemma emits_when (c : bool) m g out :
  emits m g out -> emits (when c m) g (if c then out else EmptyString).
Proof. intros H. destruct c; simpl; auto using emits_ret. Qed.

Lemma emits_range A (body : Z -> A -> M unit) (f : A -> string) g l :
  (forall i a, emits (body i a) g (f a)) ->
  forall i, emits (rangeFrom i l body) g (join (map f l)).
Proof.
  intros H. induction l as [|a l IH]; intros i; simpl.
  - apply emits_ret.
  - apply emits_bind; auto.
Qed.

(** The loops of lines 280-285 and 303-308: a separator after every element
    but the last. *)
Lemma emits_separated A (x : A -> string) (sep : string) g (l : list A) :
  forall (done : list A),
    emits (rangeFrom (Z.of_nat (List.length done)) l
             (fun i a =>
                Printf (x a) ;;
                when (i <? Z.of_nat (List.length (done ++ l)) - 1)%Z
                     (Printf sep)))
          g (String.concat sep (map x l)).
Proof.
  induction l as [|a l IH]; intros done; simpl.
  - apply emits_ret.
  - eapply emits_eq.
    + apply emits_bind.
      * apply emits_bind; [apply emits_Printf|apply emits_when, emits_Printf].
      * specialize (IH (done ++ [a])%list).
        rewrite <- List.app_assoc, List.length_app in IH. simpl in IH.
        replace (Z.of_nat (List.length done + 1)) with
          (Z.of_nat (List.length done) + 1)%Z in IH by lia.
        exact IH.
    + rewrite List.length_app. simpl. destruct l as [|a' l]; simpl.
      * replace (_ <? _)%Z with false by (symmetry; apply Z.ltb_ge; lia).
        now rewrite !app_nil_r.
      * replace (_ <? _)%Z with true by (symmetry; apply Z.ltb_lt; lia).
        now rewrite app_assoc.
Qed.

Lemma emits_separated0 A (x : A -> string) (sep : string) g (l : list A) :
  emits (range l
           (fun i a =>
              Printf (x a) ;;
              when (i <? Z.of_nat (List.length l) - 1)%Z (Printf sep)))
        g (String.concat sep (map x l)).
Proof. exact (emits_separated x sep g l []). Qed.

Lemma concat_cons sep a (l : list string) :
  l <> [] -> String.concat sep (a :: l) = a ++ sep ++ String.concat sep l.
Proof. destruct l; [congruence|reflexivity]. Qed.

Lemma concat_snoc sep (l : list string) a :
  l <> [] -> String.concat sep (l ++ [a]) = String.concat sep l ++ sep ++ a.
Proof.
  induction l as [|x l IH]; [congruence|]. intros _.
  destruct l as [|y l].
  - reflexivity.
  - change ((x :: y :: l) ++ [a])%list with (x :: (y :: l) ++ [a])%list.
    rewrite concat_cons by discriminate.
    rewrite IH by discriminate.
    rewrite (concat_cons sep x (l := y :: l)) by discriminate.
    now rewrite !app_assoc.
Qed.

End Emission.

(** ** The declaration groups of [generate] *)

Section Groups.

Variable lib : GoLib.

Ltac text_eq :=
  unfold Table.structDecl, Table.constructor, Table.formatter, Table.wrapOp,
    Table.isDecl, Table.sprintfPlain, Table.sprintfCause, Table.member,
    Table.params, Table.values, nl, tab, dq;
  repeat (progress (simpl; repeat rewrite app_assoc));
  repeat rewrite app_nil_r; try reflexivity.

Lemma emits_genStruct sn pt g :
  emits (genStruct sn pt) g
        (Table.structDecl (ParsedTemplate.wrap pt) sn (ParsedTemplate.fields pt)).
Proof.
  unfold genStruct, range. eapply emits_eq.
  - apply emits_bind; [apply emits_Printf|].
    apply emits_bind; [apply emits_when, emits_Printf|].
    apply emits_bind; [|apply emits_Printf].
    apply (emits_range _ (fun f => tab ++ Field.name f ++ " " ++ Field.typ f ++ nl)).
    intros. apply emits_Printf.
  - destruct (ParsedTemplate.wrap pt); text_eq.
Qed.

Lemma params_text mode (fs : list Field.t) :
  String.concat ", " (Table.params mode fs) =
  String.concat ", " (map Table.member fs)
  ++ (if WrapMode_eqb mode MustWrap
      then (if (0 <? Z.of_nat (List.length fs))%Z then ", " else EmptyString)
           ++ "err error"
      else EmptyString).
Proof.
  unfold Table.params. destruct mode; simpl WrapMode_eqb; cbv iota.
  1, 2: now rewrite List.app_nil_r, app_nil_r.
  destruct fs as [|f fs]; [reflexivity|].
  rewrite concat_snoc by discriminate. reflexivity.
Qed.

Lemma values_text mode (fs : list Field.t) :
  String.concat ", " (Table.values mode fs) =
  (if WrapMode_eqb mode MustWrap || WrapMode_eqb mode OptWrap
   then (if WrapMode_eqb mode MustWrap then "_errWrap{err}" else "_errWrap{nil}")
        ++ (if (0 <? Z.of_nat (List.length fs))%Z then ", " else EmptyString)
   else EmptyString)
  ++ String.concat ", " (map Field.name fs).
Proof.
  unfold Table.values. destruct mode; simpl WrapMode_eqb; cbv iota; simpl orb;
    cbv iota; try reflexivity.
  all: destruct fs as [|f fs]; [reflexivity|].
  all: change (([?x] ++ ?l)%list) with (x :: l).
  all: rewrite concat_cons by discriminate.
  all: cbn [List.length Z.of_nat Z.ltb Z.compare]; now rewrite app_assoc.
Qed.

Lemma emits_genConstructor sn pt g :
  emits (genConstructor lib sn pt) g
        (Table.constructor (ParsedTemplate.wrap pt) (constructorName lib g sn) sn
                           (ParsedTemplate.fields pt)).
Proof.
  unfold genConstructor. apply emits_this. intros b.
  change (constructorName lib (withBuf g b) sn) with (constructorName lib g sn).
  eapply emits_eq.
  - apply emits_bind; [apply emits_Printf|].
    apply emits_bind; [apply (emits_separated0 Table.member)|].
    apply emits_bind.
    { apply emits_when. apply emits_bind; [apply emits_when|]; apply emits_Printf. }
    apply emits_bind; [apply emits_Printf|].
    apply emits_bind.
    { apply emits_when. apply emits_bind; [|apply emits_when]; apply emits_Printf. }
    apply emits_bind; [apply (emits_separated0 Field.name)|apply emits_Printf].
  - unfold Table.constructor. rewrite params_text, values_text.
    generalize (String.concat ", " (map Table.member (ParsedTemplate.fields pt))).
    generalize (String.concat ", " (map Field.name (ParsedTemplate.fields pt))).
    intros V P.
    destruct (ParsedTemplate.wrap pt);
      destruct (0 <? Z.of_nat (List.length (ParsedTemplate.fields pt)))%Z;
      text_eq.
Qed.

Lemma emits_genError sn pt g :
  emits (genError sn pt) g
        (Table.formatter (ParsedTemplate.wrap pt) sn (ParsedTemplate.fmt pt)
                         (ParsedTemplate.fields pt)).
Proof.
  unfold genError, range.
  destruct (ParsedTemplate.wrap pt);
    (eapply emits_eq;
     [apply emits_bind; [apply emits_Printf|];
      apply emits_bind; [|apply emits_Printf]|]).
  - apply emits_bind; [apply emits_Printf|].
    apply emits_bind.
    { apply (emits_range _ (fun f => ", e." ++ Field.val f)).
      intros. apply emits_Printf. }
    apply emits_bind; [apply emits_Printf|].
    apply emits_bind; [|apply emits_Printf].
    apply (emits_range _ (fun f => "e." ++ Field.val f ++ ", ")).
    intros. apply emits_Printf.
  - text_eq.
  - apply emits_bind; [apply emits_Printf|].
    apply emits_bind; [|apply emits_Printf].
    apply (emits_range _ (fun f => ", e." ++ Field.val f)).
    intros. apply emits_Printf.
  - text_eq.
  - apply emits_bind; [apply emits_Printf|].
    apply emits_bind; [|apply emits_Printf].
    apply (emits_range _ (fun f => "e." ++ Field.val f ++ ", ")).
    intros. apply emits_Printf.
  - text_eq.
Qed.

Lemma emits_genWrap sn pt g :
  emits (genWrap sn pt) g (Table.wrapOp (ParsedTemplate.wrap pt) sn).
Proof.
  unfold genWrap. eapply emits_eq; [apply emits_when, emits_Printf|].
  destruct (ParsedTemplate.wrap pt); text_eq.
Qed.

Lemma emits_genIs sn spec g :
  emits (genIs sn spec) g
        (Table.isDecl (if compatIs g then "error" else typeName g) sn
                      (ErrorSpec.name spec)).
Proof.
  unfold genIs. apply emits_this. intros b. cbn [compatIs typeName withBuf].
  destruct (compatIs g); (eapply emits_eq; [apply emits_Printf|text_eq]).
Qed.

End Groups.

(** ** C1: the declarations of a spec, by wrap mode *)

Section Generate.

Variable lib : GoLib.

Lemma generate_run (spec : ErrorSpec.t) (g : Generator) (l : list string) :
  generate lib spec g l =
  match structName lib g (ErrorSpec.name spec) with
  | Ok sn =>
      match parseTemplate lib (ErrorSpec.template spec) with
      | Ok pt => (Ok (tt, withBuf g (buf g ++ declarations lib g spec sn pt)), l)
      | Fatal e => (Fatal e, l)
      | Panic e => (Panic e, l)
      end
  | Fatal e => (Fatal e, l)
  | Panic e => (Panic e, l)
  end.
Proof.
  unfold generate, bind at 1, this. unfold bind at 1, lift at 1.
  destruct (structName lib g (ErrorSpec.name spec)) as [sn| |]; auto.
  unfold bind at 1, lift at 1.
  destruct (parseTemplate lib (ErrorSpec.template spec)) as [pt| |]; auto.
  assert (E : emits (bind (genStruct sn pt) (fun _ =>
                     bind (genConstructor lib sn pt) (fun _ =>
                     bind (genError sn pt) (fun _ =>
                     bind (genWrap sn pt) (fun _ => genIs sn spec)))))
                    g (declarations lib g spec sn pt)).
  { unfold declarations.
    apply emits_bind; [apply emits_genStruct|].
    apply emits_bind; [apply emits_genConstructor|].
    apply emits_bind; [apply emits_genError|].
    apply emits_bind; [apply emits_genWrap|apply emits_genIs]. }
  specialize (E (buf g) l). rewrite withBuf_buf in E. exact E.
Qed.

Lemma generate_declarations (g : Generator) (spec : ErrorSpec.t)
      (sn : string) (pt : ParsedTemplate.t) (l : list string) :
  structName lib g (ErrorSpec.name spec) = Ok sn ->
  parseTemplate lib (ErrorSpec.template spec) = Ok pt ->
  generate lib spec g l =
  (Ok (tt, withBuf g (buf g ++ declarations lib g spec sn pt)), l).
Proof. intros Hs Hp. rewrite generate_run, Hs, Hp. reflexivity. Qed.

(** C1. For a spec whose name and template are accepted, [generate] appends
    the five declaration groups of section 4.4 for the template's wrap mode:
    no cause holder, field-only constructor, unconditional formatter and no
    Wrap method for [NoWrap]; embedded holder set to nil, field-only
    constructor, formatter branching on [e.cause == nil] and a Wrap method for
    [OptWrap]; a trailing [err error] parameter that initializes the holder,
    a formatter that always appends the cause, and a Wrap method for
    [MustWrap]. *)
Theorem wrap_mode_table (g : Generator) (spec : ErrorSpec.t)
        (sn : string) (pt : ParsedTemplate.t) (l : list string) :
  structName lib g (ErrorSpec.name spec) = Ok sn ->
  parseTemplate lib (ErrorSpec.template spec) = Ok pt ->
  generate lib spec g l =
  (Ok (tt, withBuf g
             (buf g
              ++ Table.structDecl (ParsedTemplate.wrap pt) sn
                                  (ParsedTemplate.fields pt)
              ++ Table.constructor (ParsedTemplate.wrap pt)
                                   (constructorName lib g sn) sn
                                   (ParsedTemplate.fields pt)
              ++ Table.formatter (ParsedTemplate.wrap pt) sn
                                 (ParsedTemplate.fmt pt)
                                 (ParsedTemplate.fields pt)
              ++ Table.wrapOp (ParsedTemplate.wrap pt) sn
              ++ Table.isDecl (if compatIs g then "error" else typeName g) sn
                              (ErrorSpec.name spec))), l).
Proof. intros Hs Hp. rewrite generate_run, Hs, Hp. reflexivity. Qed.

End Generate.


Lemma wrap_mode_table_witness :
  Host.output (generate Host.golib Golden.oneFieldIn) (Host.testGenerator false)
  = Ok Golden.oneFieldOut
  /\ Host.output (generate Host.golib Golden.mustWrapIn) (Host.testGenerator false)
     = Ok Golden.mustWrapOut
  /\ Host.output (generate Host.golib Golden.noWrapIn) (Host.testGenerator false)
     = Ok Golden.noWrapOut.
Proof.
  assert (S1 : structName Host.golib (Host.testGenerator false) "ErrOpen"
               = Ok "errOpen") by run.
  assert (S2 : structName Host.golib (Host.testGenerator false) "ErrSome"
               = Ok "errSome") by run.
  assert (P1 : parseTemplate Host.golib "failed to open {{filename string %q}}"
               = Ok (ParsedTemplate.Make OptWrap
                       [Field.Make "filename" "string" "%q" "filename"]
                       "failed to open %q")) by run.
  assert (P2 : parseTemplate Host.golib "wrap:some error"
               = Ok (ParsedTemplate.Make MustWrap [] "some error")) by run.
  assert (P3 : parseTemplate Host.golib "nowrap:some error"
               = Ok (ParsedTemplate.Make NoWrap [] "some error")) by run.
  unfold Host.output.
  rewrite (wrap_mode_table Host.golib (Host.testGenerator false)
             Golden.oneFieldIn [] S1 P1).
  rewrite (wrap_mode_table Host.golib (Host.testGenerator false)
             Golden.mustWrapIn [] S2 P2).
  rewrite (wrap_mode_table Host.golib (Host.testGenerator false)
             Golden.noWrapIn [] S2 P3).
  runs.
Defined.

(** ** C3: the compatibility switch *)

Section Compat.

Variable lib : GoLib.

Lemma emits_header g :
  emits (header lib) g
        (Preamble.common lib g
         ++ if compatIs g then Preamble.stub (typeName g)
            else Preamble.isIn (typeName g)).
Proof.
  unfold header. apply emits_this. intros b.
  cbn [compatIs typeName pkgName imports withBuf]. unfold range.
  destruct (compatIs g);
    (eapply emits_eq;
     [apply emits_bind; [apply emits_Printf|];
      apply emits_bind; [apply emits_Printf|];
      apply emits_bind;
      [apply (emits_range _ (fun imp => tab ++ strconv_Quote lib imp ++ nl));
       intros; apply emits_Printf|];
      apply emits_bind; [apply emits_Printf|];
      apply emits_bind; [apply emits_Printf|];
      apply emits_bind; [apply emits_Printf|]|]).
  - apply emits_Printf.
  - unfold Preamble.common, Preamble.stub.
    generalize (join (map (fun imp => tab ++ strconv_Quote lib imp ++ nl)
                          (sort_Strings (imports g ++ ["fmt"; "errors"])%list))).
    intros I. unfold nl, tab, dq.
    repeat (progress (simpl; repeat rewrite app_assoc)). reflexivity.
  - apply emits_bind; apply emits_Printf.
  - unfold Preamble.common, Preamble.isIn.
    generalize (join (map (fun imp => tab ++ strconv_Quote lib imp ++ nl)
                          (sort_Strings (imports g ++ ["fmt"; "errors"])%list))).
    intros I. unfold nl, tab, dq.
    repeat (progress (simpl; repeat rewrite app_assoc)). reflexivity.
Qed.

Lemma header_run g l :
  header lib g l =
  (Ok (tt, withBuf g (buf g ++ Preamble.common lib g
                      ++ if compatIs g then Preamble.stub (typeName g)
                         else Preamble.isIn (typeName g))), l).
Proof.
  pose proof (emits_header g (buf g) l) as E. now rewrite withBuf_buf in E.
Qed.

(** C3, as the code has it.  With [compatIs] on, the Is method of every spec
    takes an [error] instead of the sentinel type, and that is the only
    difference in the spec's declarations: the structure, the constructor, the
    Error method of group 3 and the Wrap method are those emitted with the
    switch off.  The stub that panics is emitted once, by [header], as the
    Error method of the sentinel type, where the chain search [IsIn] stands
    when the switch is off. *)
Theorem compat_switch (g : Generator) (spec : ErrorSpec.t)
        (sn : string) (pt : ParsedTemplate.t) (l : list string) :
  compatIs g = true ->
  structName lib g (ErrorSpec.name spec) = Ok sn ->
  parseTemplate lib (ErrorSpec.template spec) = Ok pt ->
  let groups :=
    Table.structDecl (ParsedTemplate.wrap pt) sn (ParsedTemplate.fields pt)
    ++ Table.constructor (ParsedTemplate.wrap pt) (constructorName lib g sn) sn
                         (ParsedTemplate.fields pt)
    ++ Table.formatter (ParsedTemplate.wrap pt) sn (ParsedTemplate.fmt pt)
                       (ParsedTemplate.fields pt)
    ++ Table.wrapOp (ParsedTemplate.wrap pt) sn in
  generate lib spec g l =
    (Ok (tt, withBuf g (buf g ++ groups
                        ++ Table.isDecl "error" sn (ErrorSpec.name spec))), l)
  /\ generate lib spec (withCompatIs g false) l =
    (Ok (tt, withBuf (withCompatIs g false)
                     (buf g ++ groups
                      ++ Table.isDecl (typeName g) sn (ErrorSpec.name spec))), l)
  /\ header lib g l =
    (Ok (tt, withBuf g (buf g ++ Preamble.common lib g
                        ++ Preamble.stub (typeName g))), l)
  /\ header lib (withCompatIs g false) l =
    (Ok (tt, withBuf (withCompatIs g false)
                     (buf g ++ Preamble.common lib g
                      ++ Preamble.isIn (typeName g))), l).
Proof.
  intros C Hs Hp groups. repeat split.
  - rewrite generate_run, Hs, Hp. unfold declarations. rewrite C.
    unfold groups. now rewrite !app_assoc.
  - rewrite generate_run.
    change (structName lib (withCompatIs g false) (ErrorSpec.name spec))
      with (structName lib g (ErrorSpec.name spec)).
    rewrite Hs, Hp. unfold declarations. cbn [compatIs typeName withCompatIs buf].
    change (constructorName lib (withCompatIs g false) sn)
      with (constructorName lib g sn).
    unfold groups. now rewrite !app_assoc.
  - rewrite header_run, C. reflexivity.
  - rewrite header_run. reflexivity.
Qed.

End Compat.

Lemma compat_switch_witness :
  Host.output (generate Host.golib Golden.simpleIn) (Host.testGenerator true)
  = Ok Golden.simpleErrIsOut
  /\ Host.output (generate Host.golib Golden.simpleIn) (Host.testGenerator false)
     = Ok Golden.simpleOut.
Proof.
  assert (S1 : structName Host.golib (Host.testGenerator true) "ErrOpen"
               = Ok "errOpen") by run.
  assert (P1 : parseTemplate Host.golib "failed to open file"
               = Ok (ParsedTemplate.Make OptWrap [] "failed to open file")) by run.
  pose proof (compat_switch Host.golib (Host.testGenerator true) Golden.simpleIn
                [] eq_refl S1 P1) as (A & B & _).
  unfold Host.output. split.
  - rewrite A. run.
  - change (Host.testGenerator false)
      with (withCompatIs (Host.testGenerator true) false).
    rewrite B. run.
Defined.

(** C3 as the specification states it fails: with the switch on, the Error
    method emitted for the spec of the golden test [simpleCompatIs] formats the
    message as it does with the switch off, and no stub is emitted for it. *)
Lemma compat_formatter_counterexample :
  Host.output (generate Host.golib Golden.simpleIn) (Host.testGenerator true)
  = Ok Golden.simpleErrIsOut
  /\ Contains Golden.simpleErrIsOut "panic(" = false
  /\ Contains Golden.simpleErrIsOut
       ("func (e *errOpen) Error() string {" ++ nl
        ++ tab ++ "if e.cause == nil {" ++ nl
        ++ tab ++ tab ++ "return fmt.Sprintf(" ++ dq ++ "failed to open file"
        ++ dq ++ ")" ++ nl) = true
  /\ Host.output (genError "errOpen"
                    (ParsedTemplate.Make OptWrap [] "failed to open file"))
                 (Host.testGenerator true)
     = Host.output (genError "errOpen"
                      (ParsedTemplate.Make OptWrap [] "failed to open file"))
                   (Host.testGenerator false).
Proof. runs. Qed.

(** ** C4: the constructor name *)

Section Constructor.

Variable lib : GoLib.

Local Open Scope Z_scope.

Lemma byte_nonneg c : 0 <= Utf8.byte c.
Proof. unfold Utf8.byte. lia. Qed.

Lemma DecodeRune_nonneg s : 0 <= fst (DecodeRuneInString s).
Proof.
  assert (B := byte_nonneg).
  assert (L : forall a b, 0 <= a -> 0 <= Z.land a b).
  { intros. apply Z.land_nonneg. auto. }
  assert (S : forall a n, 0 <= a -> 0 <= Z.shiftl a n).
  { intros. now apply Z.shiftl_nonneg. }
  assert (O : forall a b, 0 <= a -> 0 <= b -> 0 <= Z.lor a b).
  { intros. now apply Z.lor_nonneg. }
  unfold DecodeRuneInString, RuneError.
  cbv zeta.
  repeat match goal with
         | |- context [match ?x with _ => _ end] => destruct x
         end; cbn [fst]; auto 10; lia.
Qed.

Lemma runesFrom_nonneg s : forall k, Forall (fun r => 0 <= r) (runesFrom k s).
Proof.
  induction s as [|c s IH]; intros k; cbn [runesFrom]; auto.
  destruct k; auto.
  pose proof (DecodeRune_nonneg (String c s)) as N.
  destruct (DecodeRuneInString (String c s)) as [r w]. constructor; auto.
Qed.

Lemma filter_nonneg l :
  Forall (fun r => 0 <= r) l -> filter (fun r => 0 <=? r) l = l.
Proof.
  induction 1 as [|r l H _ IH]; simpl; auto.
  apply Z.leb_le in H. now rewrite H, IH.
Qed.

Lemma titleMap_inside prev l :
  Forall (fun r => isSeparator lib r = false) (prev :: l) ->
  titleMap lib prev l = l.
Proof.
  revert prev; induction l as [|r l IH]; intros prev H; simpl; auto.
  inversion H as [|? ? Hp Hl]; subst. rewrite Hp, IH; auto.
Qed.

Lemma ToTitle_nonneg r : 0 <= r -> 0 <= unicode_ToTitle lib r.
Proof.
  intros H. unfold unicode_ToTitle, MaxASCII.
  destruct (r <=? 127); [|now apply unicode_To_rune].
  destruct ((97 <=? r) && (r <=? 122)) eqn:E; [|assumption].
  apply andb_true_iff in E as [E _]. apply Z.leb_le in E. lia.
Qed.

Lemma Title_identifier sn r0 tail :
  runes sn = r0 :: tail ->
  Forall (fun r => isSeparator lib r = false) (r0 :: tail) ->
  Title lib sn = EncodeRune (unicode_ToTitle lib r0) ++ ofRunes tail.
Proof.
  intros E F. unfold Title, writeMapped. rewrite E.
  change (titleMap lib 32 (r0 :: tail))
    with (unicode_ToTitle lib r0 :: titleMap lib r0 tail).
  rewrite titleMap_inside by auto.
  pose proof (runesFrom_nonneg sn 0) as P. fold (runes sn) in P. rewrite E in P.
  inversion P as [|? ? N P']; subst. simpl filter.
  apply ToTitle_nonneg, Z.leb_le in N. rewrite N. now rewrite filter_nonneg.
Qed.

(** C4, as the code has it.  The constructor name is the prefix, [new] or
    [New], followed by [strings.Title] of the declared-type name: title case is
    applied to the type name alone and the prefix is left as chosen.  For a
    type name made of identifier runes, [Title] maps its first rune to title
    case and keeps the rest.  The name so built is the one printed after
    [func] in the constructor of the spec. *)
Theorem constructor_name (g : Generator) (sn : string) :
  constructorName lib g sn = (if makePub g then "New" else "new") ++ Title lib sn
  /\ (forall r0 tail,
         runes sn = r0 :: tail ->
         Forall (fun r => isSeparator lib r = false) (r0 :: tail) ->
         constructorName lib g sn =
         (if makePub g then "New" else "new")
           ++ EncodeRune (unicode_ToTitle lib r0) ++ ofRunes tail)
  /\ (forall spec pt l,
         structName lib g (ErrorSpec.name spec) = Ok sn ->
         parseTemplate lib (ErrorSpec.template spec) = Ok pt ->
         exists rest,
           generate lib spec g l =
           (Ok (tt, withBuf g
                      (buf g
                       ++ Table.structDecl (ParsedTemplate.wrap pt) sn
                                           (ParsedTemplate.fields pt)
                       ++ "func " ++ (if makePub g then "New" else "new")
                       ++ Title lib sn ++ "(" ++ rest)), l)).
Proof.
  assert (A : constructorName lib g sn
              = (if makePub g then "New" else "new") ++ Title lib sn).
  { unfold constructorName, constPrefix. reflexivity. }
  split; [exact A|]. split.
  - intros r0 tail E F. rewrite A. f_equal. now apply Title_identifier.
  - intros spec pt l Hs Hp. rewrite (generate_declarations lib g spec l Hs Hp).
    unfold declarations, Table.constructor. rewrite A.
    eexists. repeat rewrite app_assoc. reflexivity.
Qed.

End Constructor.

Lemma constructor_name_witness :
  constructorName Host.golib (Host.testGenerator false) "errFileOp" = "newErrFileOp".
Proof.
  refine (proj1 (proj2 (constructor_name Host.golib (Host.testGenerator false)
                          "errFileOp"))
                101%Z [114; 114; 70; 105; 108; 101; 79; 112]%Z _ _).
  - run.
  - repeat constructor.
Defined.

(** C4 as the specification states it fails: for the spec [ErrOpen] of the
    golden tests, generated with [makePub] off, the constructor is
    [newErrOpen]; its first rune is not upper-cased. *)
Lemma constructor_name_counterexample :
  structName Host.golib (Host.testGenerator false) "ErrOpen" = Ok "errOpen"
  /\ constructorName Host.golib (Host.testGenerator false) "errOpen" = "newErrOpen"
  /\ upperFirst Host.golib
       (constPrefix (Host.testGenerator false) ++ "errOpen") = "NewerrOpen"
  /\ Host.output (generate Host.golib Golden.simpleIn) (Host.testGenerator false)
     = Ok Golden.simpleOut
  /\ Contains Golden.simpleOut "func newErrOpen(" = true
  /\ Contains Golden.simpleOut "func New" = false.
Proof. runs. Qed.

(** ** C7: accessor roots and fatal templates *)

Section Roots.

Variable lib : GoLib.

Lemma structName_nonempty g name :
  name <> EmptyString -> exists sn, structName lib g name = Ok sn.
Proof. intros H. now apply structName_total. Qed.

Lemma generate_fatal spec msg :
  parseTemplate lib (ErrorSpec.template spec) = Fatal msg ->
  forall g l, aborted (fst (generate lib spec g l)).
Proof.
  intros H g l. rewrite generate_run, H.
  now destruct (structName lib g (ErrorSpec.name spec)).
Qed.

Lemma range_generate_aborts specs spec msg :
  In spec specs ->
  parseTemplate lib (ErrorSpec.template spec) = Fatal msg ->
  forall i g l,
    aborted (fst (rangeFrom i specs (fun _ e => generate lib e) g l)).
Proof.
  intros I F. induction specs as [|a specs IH]; [inversion I|].
  intros i g l. cbn [rangeFrom]. unfold bind.
  destruct (generate lib a g l) as [[[u g']| |] l'] eqn:E; simpl; auto.
  destruct I as [->|I]; auto.
  pose proof (generate_fatal _ F g l) as A. rewrite E in A. inversion A.
Qed.

Lemma emit_aborts g spec msg :
  In spec (specs g) ->
  parseTemplate lib (ErrorSpec.template spec) = Fatal msg ->
  forall l, aborted (fst (emit lib g l)).
Proof.
  intros I F l. unfold emit. unfold bind at 1. unfold this.
  destruct (specs g) as [|a specs] eqn:S; [inversion I|].
  replace (Z.of_nat (List.length (a :: specs)) <? 1)%Z with false
    by (symmetry; apply Z.ltb_ge; simpl List.length; lia).
  unfold bind at 1. rewrite header_run. unfold bind at 1, range.
  pose proof (@range_generate_aborts (a :: specs) spec msg I F 0%Z
                (withBuf g (buf g ++ Preamble.common lib g
                            ++ (if compatIs g then Preamble.stub (typeName g)
                                else Preamble.isIn (typeName g)))) l) as A.
  destruct (rangeFrom _ _ _ _ _) as [[[u g']| |] l']; simpl in *; auto.
  destruct A.
Qed.

(** C7. Every field of a parsed template is named after the identifier at the
    root of its match's accessor, reached through selectors and index
    expressions.  A template all of whose accessors have such a root is
    parsed; one with an accessor that does not parse, or parses to an
    expression without an identifier root, is fatal: [parseTemplate] exits
    through [log.Fatal], [generate] appends nothing for the spec, and a run
    over specs that include it returns no text. *)
Theorem accessor_root (template : string) :
  let ms := FindAllStringSubmatch tmplRE (snd (wrapPrefix template)) in
  (forall pt, parseTemplate lib template = Ok pt ->
              Forall2 (resolves lib) ms (ParsedTemplate.fields pt))
  /\ (Forall (fun m => ~ rootless lib m) ms ->
      exists pt, parseTemplate lib template = Ok pt)
  /\ (Exists (rootless lib) ms ->
      exists msg,
        parseTemplate lib template = Fatal msg
        /\ (forall spec g l,
               ErrorSpec.template spec = template ->
               ErrorSpec.name spec <> EmptyString ->
               generate lib spec g l = (Fatal msg, l))
        /\ (forall spec g l,
               ErrorSpec.template spec = template ->
               In spec (specs g) ->
               aborted (fst (emit lib g l)))).
Proof.
  intros ms. repeat split.
  - intros pt. rewrite parseTemplate_unfold. fold ms.
    destruct (parseMatches lib ms [] _) as [[fs s]| |] eqn:E; try discriminate.
    intros H. injection H as <-. apply parseMatches_ok in E as (new & -> & F).
    exact F.
  - intros F. rewrite parseTemplate_unfold. fold ms.
    destruct (parseMatches_total lib ms [] (snd (wrapPrefix template)))
      as [([fs s] & -> & _)|(msg & _ & E)].
    + simpl. eauto.
    + exfalso. apply Exists_exists in E as (m & I & R).
      rewrite Forall_forall in F. now apply (F m).
  - intros E.
    destruct (@parseMatches_fatal lib ms [] (snd (wrapPrefix template)) E)
      as [msg P].
    assert (T : parseTemplate lib template = Fatal msg).
    { rewrite parseTemplate_unfold. fold ms. now rewrite P. }
    exists msg. repeat split; auto.
    + intros spec g l <- N. rewrite generate_run, T.
      destruct (@structName_nonempty g _ N) as [sn ->]. reflexivity.
    + intros spec g l <- I. now apply (@emit_aborts g spec msg I T).
Qed.

End Roots.

Lemma accessor_root_witness :
  Forall2 (resolves Host.golib)
          [["{{c.Field[0] MyStruct %s}}"; "c.Field[0]"; "MyStruct"; "%s"]]
          [Field.Make "c" "MyStruct" "%s" "c.Field[0]"]
  /\ exists msg, parseTemplate Host.golib "nowrap:{{a..b T %v}}" = Fatal msg.
Proof.
  split.
  - assert (P : parseTemplate Host.golib "failed for {{c.Field[0] MyStruct %s}}"
               = Ok (ParsedTemplate.Make OptWrap
                       [Field.Make "c" "MyStruct" "%s" "c.Field[0]"]
                       "failed for %s")) by run.
    exact (proj1 (accessor_root Host.golib "failed for {{c.Field[0] MyStruct %s}}")
                 _ P).
  - pose proof (proj2 (proj2 (accessor_root Host.golib "nowrap:{{a..b T %v}}")))
      as H.
    cbv zeta in H.
    assert (E : FindAllStringSubmatch tmplRE (snd (wrapPrefix "nowrap:{{a..b T %v}}"))
                = [["{{a..b T %v}}"; "a..b"; "T"; "%v"]]) by run.
    rewrite E in H. destruct H as (msg & H & _).
    + left. left. exists Host.syntaxError. run.
    + exists msg. exact H.
Defined.

(** ** C8: formatting failures *)

Section Format.

Variable lib : GoLib.

(** C8, as the code has it.  When go/format returns an error, two warnings are
    logged and the bytes go/format returned with the error are handed to the
    caller; the run is fatal when those bytes are empty, and the unformatted
    buffer then goes into the fatal message.  Without an error the formatted
    bytes are returned and nothing is logged. *)
Theorem format_outcome (g : Generator) (l : list string) :
  match format_Source lib (buf g) with
  | (src, None) => format lib g l = (Ok (src, g), l)
  | (src, Some e) =>
      let warned :=
        List.app l ["warning: failed to format generated code: " ++ e ++ nl;
                    "warning: try to compile the output to check the error" ++ nl] in
      if (len src =? 0)%Z
      then format lib g l =
           (Fatal ("format produced empty output" ++ nl ++ buf g ++ nl), warned)
      else format lib g l = (Ok (src, g), warned)
  end.
Proof.
  destruct (format_Source lib (buf g)) as [src [e|]] eqn:E; cbv zeta;
    [destruct (len src =? 0)%Z eqn:L|];
    unfold format, this, bind; rewrite E;
    unfold log_Printf, when, log_Fatalf, ret; try rewrite L;
    try rewrite <- List.app_assoc; reflexivity.
Qed.

End Format.

(** C8 as the specification states it fails: the spec [ErrOpen] with the
    template [say "hi"] makes the emitted text ill-formed; the text is not
    empty, go/format returns a nil slice with its error, and the run is fatal
    instead of returning the unformatted text. *)
Lemma format_counterexample :
  let g := {| typeName := "Err"; compatIs := false; makePub := false;
              specSuffix := EmptyString; imports := []; buf := EmptyString;
              specs := [Golden.ErrOpen ("say " ++ dq ++ "hi" ++ dq)];
              pkgName := "main" |} in
  exists text,
    Host.output (bind (header Host.rejecting)
                      (fun _ => generate Host.rejecting
                                  (Golden.ErrOpen ("say " ++ dq ++ "hi" ++ dq)))) g
    = Ok text
    /\ (0 <? len text)%Z = true
    /\ emit Host.rejecting g [] =
       (Fatal ("format produced empty output" ++ nl ++ text ++ nl),
        ["warning: failed to format generated code: expected declaration" ++ nl;
         "warning: try to compile the output to check the error" ++ nl]).
Proof.
  cbv zeta.
  eexists. split; [vm_compute; reflexivity|]. split; vm_compute; reflexivity.
Qed.

(** ** C6: the residual format string *)

(** C6 fails on the code.  In [{{a t {{x y %v}}}} {{a t %v}}] the matches are
    [{{x y %v}}] and the second [{{a t %v}}]; replacing the first leaves the
    text [{{a t %v}} {{a t %v}}], in which [strings.Replace] finds the text of
    the second match at offset 0, so the verb lands on bytes that no match
    covered and the matched token stays. *)
Theorem residual_format_first_occurrence :
  FindAllStringSubmatch tmplRE "{{a t {{x y %v}}}} {{a t %v}}"
  = [["{{x y %v}}"; "x"; "y"; "%v"]; ["{{a t %v}}"; "a"; "t"; "%v"]]
  /\ parseTemplate Host.golib "{{a t {{x y %v}}}} {{a t %v}}"
     = Ok (ParsedTemplate.Make OptWrap
             [Field.Make "x" "y" "%v" "x"; Field.Make "a" "t" "%v" "a"]
             "%v {{a t %v}}")
  /\ substitute "{{a t {{x y %v}}}} {{a t %v}}" = "{{a t %v}} %v".
Proof. runs. Qed.

(** *** Templates whose braces all belong to placeholders

    On these the verbs do land where the tokens stood: the format string is
    the text with each token replaced in place. *)

Section PiecesFacts.

Lemma free_app a b : free (a ++ b) = free a && free b.
Proof. induction a; simpl; auto. now rewrite IHa, andb_assoc. Qed.

Lemma verbText_free v : verbText v -> free v = true.
Proof.
  intros (v' & [_ H] & ->). simpl. induction v' as [|c v' IH]; auto.
  simpl in *. apply andb_true_iff in H as [Hc H]. rewrite IH by auto.
  rewrite andb_true_r. destruct (Ascii.eqb_spec c "{"); auto. now subst.
Qed.

Lemma matchAt_free c s :
  Ascii.eqb c "{" = false -> matchAt tmplRE (String c s) = None.
Proof.
  intros N. destruct (matchAt tmplRE (String c s)) as [h|] eqn:E; auto.
  apply matchAt_token in E as (a & t & v & _ & E & _).
  unfold token in E. simpl in E. injection E as -> _. discriminate.
Qed.

Lemma matchAt_here p r :
  wellFormed p ->
  matchAt tmplRE (token (acc p) (ty p) (vb p) ++ r)
  = Some (Hit (token (acc p) (ty p) (vb p)) [acc p; ty p; vb p] r).
Proof.
  intros (_ & H). apply matchAt_token. exists (acc p), (ty p), (vb p). auto.
Qed.

Lemma findAll_free_app b s :
  free b = true -> findAll tmplRE 0 (b ++ s) = findAll tmplRE 0 s.
Proof.
  induction b as [|c b IH]; auto. simpl free. intros H.
  apply andb_true_iff in H as [Hc H]. apply negb_true_iff in Hc.
  change (String c b ++ s) with (String c (b ++ s)). cbn [findAll].
  rewrite (@matchAt_free c (b ++ s) Hc). auto.
Qed.

Lemma findAll_free s : free s = true -> findAll tmplRE 0 s = [].
Proof.
  intros H. rewrite <- (app_nil_r s). now rewrite findAll_free_app.
Qed.

Lemma findAll_here p r :
  wellFormed p ->
  findAll tmplRE 0 (token (acc p) (ty p) (vb p) ++ r)
  = submatchOf p :: findAll tmplRE 0 r.
Proof.
  intros W. pose proof (@matchAt_here p r W) as M.
  destruct (token (acc p) (ty p) (vb p)) as [|c tk] eqn:E; [discriminate|].
  change (String c tk ++ r) with (String c (tk ++ r)) in *.
  cbn [findAll]. rewrite M. unfold submatch; cbn [text caps].
  unfold submatchOf. rewrite E. f_equal.
  cbn [String.length]. rewrite Nat.sub_succ, Nat.sub_0_r. apply findAll_skip.
Qed.

Lemma FindAll_templateText ps last :
  Forall wellFormed ps -> free last = true ->
  FindAllStringSubmatch tmplRE (templateText ps last) = map submatchOf ps.
Proof.
  intros W L. unfold FindAllStringSubmatch.
  induction W as [|p ps Wp _ IH]; cbn [templateText map].
  - now apply findAll_free.
  - rewrite findAll_free_app by apply Wp. rewrite findAll_here by auto.
    now rewrite IH.
Qed.

Lemma Replace1_here P tok v R :
  free P = true -> HasPrefix tok "{" = true ->
  Replace1 (P ++ tok ++ R) tok v = P ++ v ++ R.
Proof.
  intros F H. apply HasPrefix_iff in H as [x ->].
  change ("{" ++ x) with (String "{" x).
  induction P as [|c P IH].
  - cbn [append Replace1].
    change (String "{" (x ++ R)) with (String "{" x ++ R).
    now rewrite HasPrefix_app, drop_app.
  - simpl free in F. apply andb_true_iff in F as [Hc F].
    apply negb_true_iff in Hc.
    change (String c P ++ String "{" x ++ R)
      with (String c (P ++ String "{" x ++ R)).
    cbn [Replace1].
    replace (HasPrefix (String c (P ++ String "{" x ++ R)) (String "{" x))
      with false.
    + now rewrite IH.
    + symmetry. apply andb_false_iff. right. simpl.
      rewrite Hc. reflexivity.
Qed.

Lemma oneOrMore_check k s :
  nonEmpty s && allIn k s = true -> oneOrMore k s.
Proof.
  intros H. apply andb_true_iff in H as [N H]. split; auto.
  intros ->. discriminate.
Qed.

Lemma wellFormed_check p : wellFormedb p = true -> wellFormed p.
Proof.
  unfold wellFormedb, wellFormed. intros H.
  apply andb_true_iff in H as [H Hv]. apply andb_true_iff in H as [H Ht].
  apply andb_true_iff in H as [Hb Ha].
  split; [exact Hb|]. split; [now apply oneOrMore_check|]. split.
  - apply orb_true_iff in Ht as [Ht|Ht].
    + exists (ty p). split; [now apply oneOrMore_check|now left].
    + destruct (ty p) as [|c t']; [discriminate|].
      destruct (Ascii.eqb_spec c "*") as [->|N].
      * exists t'. split; [now apply oneOrMore_check|now right].
      * destruct c as [[] [] [] [] [] [] [] []]; try discriminate.
        now destruct N.
  - destruct (vb p) as [|c v']; [discriminate|].
    destruct (Ascii.eqb_spec c "%") as [->|N].
    + exists v'. split; [now apply oneOrMore_check|reflexivity].
    + destruct c as [[] [] [] [] [] [] [] []]; try discriminate.
      now destruct N.
Qed.

Lemma wellFormed_all ps : forallb wellFormedb ps = true -> Forall wellFormed ps.
Proof.
  induction ps as [|p ps IH]; simpl; intros H; constructor.
  - apply wellFormed_check. now apply andb_true_iff in H as [H _].
  - apply IH. now apply andb_true_iff in H as [_ H].
Qed.

End PiecesFacts.

Section InPlace.

Variable lib : GoLib.

Lemma token_brace a t v : HasPrefix (token a t v) "{" = true.
Proof. apply HasPrefix_iff. eexists. reflexivity. Qed.

Lemma parseMatches_pieces ps last : forall P fields,
  free P = true ->
  Forall wellFormed ps ->
  Forall (fun p => ~ rootless lib (submatchOf p)) ps ->
  exists fs,
    parseMatches lib (map submatchOf ps) fields (P ++ templateText ps last)
    = Ok ((fields ++ fs)%list, P ++ formatText ps last)
    /\ Forall2 (resolves lib) (map submatchOf ps) fs.
Proof.
  induction ps as [|p ps IH]; intros P fields F W R.
  - exists []. rewrite List.app_nil_r. split; [reflexivity|constructor].
  - inversion W as [|? ? Wp W']; subst. inversion R as [|? ? Rp R']; subst.
    cbn [map parseMatches templateText formatText].
    change (nth 1 (submatchOf p) EmptyString) with (acc p).
    change (nth 2 (submatchOf p) EmptyString) with (ty p).
    change (nth 3 (submatchOf p) EmptyString) with (vb p).
    change (nth 0 (submatchOf p) EmptyString) with (token (acc p) (ty p) (vb p)).
    destruct (parser_ParseExpr lib (acc p)) as [e|err] eqn:E.
    2:{ destruct Rp. left. exists err. exact E. }
    destruct (findExprRoot e) as [n|] eqn:N.
    2:{ destruct Rp. right. exists e. split; [exact E|].
        now apply findExprRoot_none. }
    rewrite <- (app_assoc P (before p)).
    rewrite Replace1_here; [|rewrite free_app, F; apply Wp|apply token_brace].
    rewrite <- (app_assoc (P ++ before p) (vb p)).
    destruct (IH ((P ++ before p) ++ vb p)
                 (fields ++ [Field.Make n (ty p) (vb p) (acc p)])%list)
      as (fs & H & F2); auto.
    { rewrite !free_app, F. destruct Wp as (-> & _ & _ & Hv).
      now rewrite (verbText_free Hv). }
    exists (Field.Make n (ty p) (vb p) (acc p) :: fs). split.
    + rewrite H, <- List.app_assoc, !app_assoc. reflexivity.
    + constructor; auto. exists e. apply findExprRoot_iff in N.
      cbn [Field.name Field.typ Field.fmt Field.val]. auto.
Qed.

Lemma substituteFrom_skip x : forall s,
  substituteFrom (String.length x) (x ++ s) = substituteFrom 0 s.
Proof. induction x; intros s; simpl; auto. Qed.

Lemma substituteFrom_free_app b s :
  free b = true -> substituteFrom 0 (b ++ s) = b ++ substituteFrom 0 s.
Proof.
  induction b as [|c b IH]; auto. simpl free. intros H.
  apply andb_true_iff in H as [Hc H]. apply negb_true_iff in Hc.
  change (String c b ++ s) with (String c (b ++ s)). cbn [substituteFrom].
  rewrite (@matchAt_free c (b ++ s) Hc), IH by auto. reflexivity.
Qed.

Lemma substitute_pieces ps last :
  Forall wellFormed ps -> free last = true ->
  substitute (templateText ps last) = formatText ps last.
Proof.
  intros W L. unfold substitute.
  induction W as [|p ps Wp _ IH]; cbn [templateText formatText].
  - rewrite <- (app_nil_r last) at 1. rewrite substituteFrom_free_app by auto.
    now rewrite app_nil_r.
  - rewrite substituteFrom_free_app by apply Wp. f_equal.
    pose proof (@matchAt_here p (templateText ps last) Wp) as M.
    destruct (token (acc p) (ty p) (vb p)) as [|c tk] eqn:E; [discriminate|].
    change (String c tk ++ templateText ps last)
      with (String c (tk ++ templateText ps last)) in *.
    cbn [substituteFrom]. rewrite M. cbn [text caps nth String.length].
    rewrite Nat.sub_succ, Nat.sub_0_r, substituteFrom_skip, IH. reflexivity.
Qed.

(** When every [{] of the text left after the prefix belongs to a placeholder
    token, and every accessor has an identifier root, the format string is the
    text with each token replaced where it stands by its verb. *)
Theorem residual_format_in_place (template : string)
        (ps : list piece) (last : string) :
  snd (wrapPrefix template) = templateText ps last ->
  Forall wellFormed ps -> free last = true ->
  Forall (fun p => ~ rootless lib (submatchOf p)) ps ->
  exists pt,
    parseTemplate lib template = Ok pt
    /\ ParsedTemplate.fmt pt = formatText ps last
    /\ ParsedTemplate.fmt pt = substitute (snd (wrapPrefix template)).
Proof.
  intros E W L R. rewrite parseTemplate_unfold, E.
  rewrite FindAll_templateText by auto.
  destruct (@parseMatches_pieces ps last EmptyString [] eq_refl W R)
    as (fs & H & _).
  cbn [append List.app] in H. rewrite H. cbn [rbind].
  eexists. split; [reflexivity|]. cbn [ParsedTemplate.fmt].
  now rewrite substitute_pieces.
Qed.

End InPlace.

Lemma residual_format_in_place_witness :
  exists pt,
    parseTemplate Host.golib
      "failed to {{op string %s}} {{file string %q}} (code {{code int %d}})" = Ok pt
    /\ ParsedTemplate.fmt pt = "failed to %s %q (code %d)".
Proof.
  destruct (@residual_format_in_place Host.golib
              "failed to {{op string %s}} {{file string %q}} (code {{code int %d}})"
              [Piece "failed to " "op" "string" "%s";
               Piece " " "file" "string" "%q";
               Piece " (code " "code" "int" "%d"] ")")
    as (pt & H & F & _).
  - run.
  - apply wellFormed_all. reflexivity.
  - reflexivity.
  - repeat constructor; intros [[err H]|(e & H & N)];
      vm_compute in H; try discriminate; injection H as <-;
      eapply N; repeat constructor.
  - exists pt. split; [exact H|exact F].
Defined.

(** * Properties of the collector and of the command line *)

(** ** The monad *)

Section MonadFacts.

Lemma same_refl A (m : M A) : same m m.
Proof. intros g l. reflexivity. Qed.

Lemma same_trans A (m1 m2 m3 : M A) : same m1 m2 -> same m2 m3 -> same m1 m3.
Proof. intros H1 H2 g l. rewrite H1. apply H2. Qed.

Lemma same_sym A (m1 m2 : M A) : same m1 m2 -> same m2 m1.
Proof. intros H g l. symmetry. apply H. Qed.

Lemma bind_cong A B (m1 m2 : M A) (k1 k2 : A -> M B) :
  same m1 m2 -> (forall a, same (k1 a) (k2 a)) -> same (bind m1 k1) (bind m2 k2).
Proof.
  intros Hm Hk g l. unfold bind. rewrite Hm.
  destruct (m2 g l) as [[[a g']|e|e] l']; auto. apply Hk.
Qed.

Lemma bind_assoc A B C (m : M A) (k : A -> M B) (h : B -> M C) :
  same (bind (bind m k) h) (bind m (fun a => bind (k a) h)).
Proof.
  intros g l. unfold bind. destruct (m g l) as [[[a g']|e|e] l']; auto.
Qed.

Lemma bind_ret_l A B (a : A) (k : A -> M B) : same (bind (ret a) k) (k a).
Proof. intros g l. reflexivity. Qed.

Lemma bind_ret_tt (m : M unit) : same (bind m (fun _ => ret tt)) m.
Proof.
  intros g l. unfold bind. destruct (m g l) as [[[[] g']|e|e] l']; auto.
Qed.

Lemma rangeFrom_shift A (body : A -> M unit) (l : list A) : forall i j,
  same (rangeFrom i l (fun _ a => body a)) (rangeFrom j l (fun _ a => body a)).
Proof.
  induction l as [|a l IH]; simpl; intros i j.
  - apply same_refl.
  - apply bind_cong; [apply same_refl | intros _; apply IH].
Qed.

Lemma rangeFrom_app A (body : A -> M unit) (l1 l2 : list A) : forall i j,
  same (rangeFrom i (l1 ++ l2) (fun _ a => body a))
       (bind (rangeFrom i l1 (fun _ a => body a))
             (fun _ => rangeFrom j l2 (fun _ a => body a))).
Proof.
  induction l1 as [|a l1 IH]; simpl; intros i j.
  - intros g l. apply rangeFrom_shift.
  - eapply same_trans; [|apply same_sym, bind_assoc].
    apply bind_cong; [apply same_refl | intros _; apply IH].
Qed.

End MonadFacts.

(** ** Constant declarations *)

Section CollectorFacts.

Variable env : GoEnv.

Import Source.

Lemma withSpecs_nil g : withSpecs g (specs g ++ []) = g.
Proof. destruct g; unfold withSpecs; simpl. rewrite List.app_nil_r. reflexivity. Qed.

Lemma withSpecs_app g a b :
  withSpecs (withSpecs g (specs g ++ a)) (specs (withSpecs g (specs g ++ a)) ++ b)
  = withSpecs g (specs g ++ a ++ b).
Proof. unfold withSpecs; simpl. rewrite <- List.app_assoc. reflexivity. Qed.

Lemma processSpec_declares spec name lit template g l :
  declares (typeName g) spec name lit ->
  strconv_Unquote env lit = inl template ->
  processSpec env spec g l
  = (Ok (tt, withSpecs g (specs g ++ [ErrorSpec.Make name template])), l).
Proof.
  intros D U.
  inversion D; subst; unfold processSpec, bind; simpl;
    rewrite String.eqb_refl; simpl; rewrite U; reflexivity.
Qed.

Lemma processSpec_skipped spec g l :
  skipped (typeName g) spec -> processSpec env spec g l = (Ok (tt, g), l).
Proof.
  intros S.
  inversion S as [names T' vs N | names t vs N | names T' args vs N | names v vs N];
    subst; unfold processSpec, bind; simpl.
  - apply String.eqb_neq in N. rewrite N. reflexivity.
  - destruct t; try reflexivity. exfalso. eapply N; reflexivity.
  - apply String.eqb_neq in N. rewrite N. reflexivity.
  - destruct v as [| | |fn args| | |]; try reflexivity.
    destruct fn; try reflexivity. exfalso. eapply N; reflexivity.
Qed.

Lemma range_collects vspecs new :
  forall T, collects env T vspecs new ->
  forall i g l, typeName g = T ->
    rangeFrom i vspecs (fun _ spec => processSpec env spec) g l
    = (Ok (tt, withSpecs g (specs g ++ new)), l).
Proof.
  intros T C.
  induction C as [|spec name lit template rest new D U C IH|spec rest new S C IH];
    intros i g l E; simpl.
  - rewrite withSpecs_nil. reflexivity.
  - unfold bind. subst T. rewrite (processSpec_declares g l D U).
    rewrite IH by reflexivity. rewrite withSpecs_app. reflexivity.
  - unfold bind. subst T. rewrite (processSpec_skipped g l S).
    apply IH. reflexivity.
Qed.

(** X1. On a constant declaration [processFile] appends one error spec for
    each value spec that declares a constant of the type [typeName] -- written
    [name T = lit], [name T = f(lit)] or [name = T(lit)] -- in order, named after
    the first name of the spec, with the unquoted literal as its template.  The
    specs of other types are passed over, nothing else of the generator and
    nothing of the log changes, and the walk is told not to descend. *)
Theorem processFile_collects (g : Generator) (l : list string)
        (vspecs : list Node) (new : list ErrorSpec.t) :
  collects env (typeName g) vspecs new ->
  processFile env (Some (GenDecl CONST vspecs)) g l
  = (Ok (false, withSpecs g (specs g ++ new)), l).
Proof.
  intros C. unfold processFile, bind, range.
  rewrite (range_collects C) by reflexivity. reflexivity.
Qed.

Lemma processFile_stops A (stop : result A) (vspecs post : list Node) (spec : Node)
      (new : list ErrorSpec.t) (g : Generator) (l : list string) :
  collects env (typeName g) vspecs new ->
  (forall g', typeName g' = typeName g ->
     processSpec env spec g' l
     = (match stop with
        | Ok _ => Ok (tt, g')
        | Fatal e => Fatal e
        | Panic e => Panic e
        end, l)) ->
  aborted stop ->
  processFile env (Some (GenDecl CONST (vspecs ++ spec :: post))) g l
  = (match stop with
     | Ok _ => Ok (false, g)
     | Fatal e => Fatal e
     | Panic e => Panic e
     end, l).
Proof.
  intros C S Ab. unfold processFile, range.
  unfold bind at 1.
  rewrite (rangeFrom_app (processSpec env) vspecs (spec :: post) 0 0 g l).
  unfold bind at 1. rewrite (range_collects C) by reflexivity.
  simpl. unfold bind at 1. rewrite S by reflexivity.
  destruct stop; simpl in *; tauto.
Qed.

(** X2. A value spec without a type and without a value -- in a constant group,
    a line that repeats the previous expression, as after [iota] -- makes
    [processFile] panic on [vspec.Values[0]], whatever [typeName] is, once the
    specs before it are collected. *)
Theorem processFile_panics_without_value (g : Generator) (l : list string)
        (pre post : list Node) (new : list ErrorSpec.t) (names : list string) :
  collects env (typeName g) pre new ->
  processFile env (Some (GenDecl CONST (pre ++ ValueSpec names None [] :: post))) g l
  = (Panic "runtime error: index out of range [0] with length 0", l).
Proof.
  intros C.
  apply (@processFile_stops unit
           (Panic "runtime error: index out of range [0] with length 0")
           pre post _ new g l C); simpl; auto.
Qed.

Lemma literal_rejects T v msg g l :
  rejects env T v msg -> literal env T v g l = (Fatal msg, l).
Proof.
  intros R. inversion R as [fn a args Ha | v' Hc Hs]; subst.
  - unfold literal, first, bind, ret.
    destruct a; try reflexivity. destruct Kind; try reflexivity.
    exfalso. apply Ha. eexists; reflexivity.
  - destruct v; try reflexivity.
    + exfalso. eapply Hc; reflexivity.
    + destruct Kind; try reflexivity. exfalso. apply Hs. eexists; reflexivity.
Qed.

Lemma processSpec_typedAs spec v g l :
  typedAs (typeName g) spec v ->
  exists name,
    processSpec env spec g l
    = bind (literal env (typeName g) v)
           (fun template =>
              match strconv_Unquote env template with
              | inr err => log_Fatalf err
              | inl template => appendSpec (ErrorSpec.Make name template)
              end) g l.
Proof.
  intros Ty. inversion Ty; subst; exists name;
    unfold processSpec, specType, first, bind, ret, this;
    rewrite String.eqb_refl; reflexivity.
Qed.

Lemma processSpec_no_argument spec fn g l :
  typedAs (typeName g) spec (CallExpr fn []) ->
  processSpec env spec g l
  = (Panic "runtime error: index out of range [0] with length 0", l).
Proof.
  intros Ty. inversion Ty; subst;
    unfold processSpec, specType, literal, first, panic, bind, ret, this;
    rewrite String.eqb_refl; reflexivity.
Qed.

Lemma typedAs_cases T spec v :
  typedAs T spec v ->
  (exists name lit, declares T spec name lit)
  \/ (exists msg, rejects env T v msg)
  \/ (exists fn, v = CallExpr fn []).
Proof.
  intros Ty.
  assert (L : forall a, stringLit a \/ ~ stringLit a).
  { intros a. destruct a as [| | | | |k s|];
      try (right; intros [s' H]; discriminate H).
    destruct k; try (right; intros [s' H]; discriminate H).
    left. eexists. reflexivity. }
  inversion Ty as [name names v' vs|name names args vs]; subst.
  - destruct v as [| | |fn args| |k s|];
      try (right; left; eexists; apply rejects_value;
           [discriminate | intros [s' H]; discriminate H]).
    + destruct args as [|a args]; [right; right; eexists; reflexivity|].
      destruct (L a) as [[s ->]|N].
      * left. do 2 eexists. apply typed_call.
      * right; left. eexists. apply rejects_argument. exact N.
    + destruct k;
        try (right; left; eexists; apply rejects_value;
             [discriminate | intros [s' H]; discriminate H]).
      left. do 2 eexists. apply typed_literal.
  - destruct args as [|a args]; [right; right; eexists; reflexivity|].
    destruct (L a) as [[s ->]|N].
    + left. do 2 eexists. apply cast.
    + right; left. eexists. apply rejects_argument. exact N.
Qed.

(** X3. A constant of the type [typeName] that holds no template stops the
    collector at that spec, the specs before it collected.  When its first
    value is a call without arguments, as in [const ErrX = Err()], the
    collector panics on [v.Args[0]].  When it is a call whose first argument
    is not a string literal, or is neither a call nor a string literal, the
    collector exits the run with a message that shows what stands in place of
    the literal.  When the literal is one [strconv.Unquote] refuses, the
    collector exits the run with the error of [strconv.Unquote].  A spec of
    that type with a first value is of one of these kinds or declares a
    constant. *)
Theorem processFile_without_template (g : Generator) (l : list string)
        (pre post : list Node) (new : list ErrorSpec.t) (spec : Node) :
  collects env (typeName g) pre new ->
  (forall fn,
      typedAs (typeName g) spec (CallExpr fn []) ->
      fst (processFile env (Some (GenDecl CONST (pre ++ spec :: post))) g l)
      = Panic "runtime error: index out of range [0] with length 0")
  /\ (forall v msg,
         typedAs (typeName g) spec v -> rejects env (typeName g) v msg ->
         fst (processFile env (Some (GenDecl CONST (pre ++ spec :: post))) g l)
         = Fatal msg)
  /\ (forall name lit err,
         declares (typeName g) spec name lit ->
         strconv_Unquote env lit = inr err ->
         fst (processFile env (Some (GenDecl CONST (pre ++ spec :: post))) g l)
         = Fatal err)
  /\ (forall v,
         typedAs (typeName g) spec v ->
         (exists name lit, declares (typeName g) spec name lit)
         \/ (exists msg, rejects env (typeName g) v msg)
         \/ (exists fn, v = CallExpr fn [])).
Proof.
  intros C. repeat apply conj.
  - intros fn Ty.
    rewrite (@processFile_stops unit
               (Panic "runtime error: index out of range [0] with length 0")
               pre post spec new g l C); simpl; auto.
    intros g' E. rewrite <- E in Ty. apply (processSpec_no_argument g' l Ty).
  - intros v msg Ty R.
    rewrite (@processFile_stops unit (Fatal msg) pre post spec new g l C); simpl; auto.
    intros g' E. rewrite <- E in Ty, R.
    destruct (processSpec_typedAs g' l Ty) as [name ->].
    unfold bind. rewrite (literal_rejects g' l R). reflexivity.
  - intros name lit err D U.
    rewrite (@processFile_stops unit (Fatal err) pre post spec new g l C); simpl; auto.
    intros g' E. rewrite <- E in D.
    inversion D; subst;
      unfold processSpec, specType, literal, first, bind, ret, this;
      rewrite String.eqb_refl; simpl negb; cbv iota; rewrite U; reflexivity.
  - intros v. apply typedAs_cases.
Qed.

Lemma extends_refl g : extends g g.
Proof. exists []. symmetry. apply withSpecs_nil. Qed.

Lemma extends_trans g1 g2 g3 : extends g1 g2 -> extends g2 g3 -> extends g1 g3.
Proof.
  intros [a ->] [b ->]. exists (a ++ b)%list. apply withSpecs_app.
Qed.

Lemma framed_bind A B (m : M A) (k : A -> M B) g l :
  framed g l (m g l) ->
  (forall a g', extends g g' -> framed g' l (k a g' l)) ->
  framed g l (bind m k g l).
Proof.
  unfold framed, bind. destruct (m g l) as [[[a g']|e|e] l']; simpl; auto.
  intros [-> E] K. specialize (K a g' E).
  destruct (k a g' l) as [[[b g'']|e|e] l'']; simpl in *; auto.
  destruct K as [Kl Kg]. split; [exact Kl|].
  eapply extends_trans; eassumption.
Qed.

Lemma framed_ret A (a : A) g l : framed g l (ret a g l).
Proof. split; [reflexivity | apply extends_refl]. Qed.

Ltac framed_stop := exact I.

Lemma framed_first A (x : list A) g l : framed g l (first x g l).
Proof. destruct x; [framed_stop | apply framed_ret]. Qed.

Lemma framed_processSpec spec g l : framed g l (processSpec env spec g l).
Proof.
  destruct spec as [| |names t values| | | |]; try framed_stop.
  unfold processSpec. apply framed_bind.
  - unfold specType. destruct t as [t|].
    + destruct t; apply framed_ret.
    + apply framed_bind; [apply framed_first|]. intros v g' _.
      destruct v as [| | |fn args| | |]; try apply framed_ret.
      destruct fn; apply framed_ret.
  - intros [typ|] g1 _; [|apply framed_ret].
    apply framed_bind; [split; [reflexivity | apply extends_refl]|].
    intros g2 g3 _. destruct (negb (typ =? typeName g2)%string); [apply framed_ret|].
    apply framed_bind; [apply framed_first|]. intros name g4 _.
    apply framed_bind; [apply framed_first|]. intros v g5 _.
    apply framed_bind.
    + unfold literal. destruct v as [| | |fn args| |k s|]; try framed_stop.
      * apply framed_bind; [apply framed_first|]. intros a g6 _.
        destruct a as [| | | | |k s|]; try framed_stop.
        destruct k; try framed_stop. apply framed_ret.
      * destruct k; try framed_stop. apply framed_ret.
    + intros template g6 _.
      destruct (strconv_Unquote env template); [|framed_stop].
      split; [reflexivity|]. eexists. reflexivity.
Qed.

Lemma framed_range (vspecs : list Node) : forall i g l,
  framed g l (rangeFrom i vspecs (fun _ spec => processSpec env spec) g l).
Proof.
  induction vspecs as [|spec vspecs IH]; intros i g l; [apply framed_ret|].
  cbn [rangeFrom]. apply framed_bind; [apply framed_processSpec|].
  intros _ g' _. apply IH.
Qed.

End CollectorFacts.

(** A constant group with two specs of the type [Err], a constant of another
    type and an untyped number. *)
Lemma processFile_collects_witness :
  processFile (HostSys.goenv [])
    (Some (Source.GenDecl Source.CONST
       [Source.ValueSpec ["ErrOpen"] None
          [Source.CallExpr (Source.Ident "Err") [HostSys.lit "failed to open file"]];
        Source.ValueSpec ["Other"] (Some (Source.Ident "Kind")) [HostSys.lit "x"];
        Source.ValueSpec ["ErrRead"; "ErrWrite"] (Some (Source.Ident "Err"))
          [HostSys.lit "failed to read"; HostSys.lit "failed to write"];
        Source.ValueSpec ["limit"] None [Source.BasicLit Source.INT "10"]]))
    (Host.testGenerator false) []
  = (Ok (false,
         withSpecs (Host.testGenerator false)
           (specs (Host.testGenerator false)
            ++ [ErrorSpec.Make "ErrOpen" "failed to open file";
                ErrorSpec.Make "ErrRead" "failed to read"])), []).
Proof.
  apply processFile_collects.
  eapply collects_declared; [apply cast | reflexivity |].
  apply collects_skipped; [apply other_type; discriminate |].
  eapply collects_declared; [apply typed_literal | reflexivity |].
  apply collects_skipped; [apply no_cast; discriminate | constructor].
Defined.

(** [const ( A = iota; B )] *)
Lemma processFile_panics_without_value_witness :
  processFile (HostSys.goenv [])
    (Some (Source.GenDecl Source.CONST
       [Source.ValueSpec ["A"] None [Source.Ident "iota"];
        Source.ValueSpec ["B"] None []]))
    (Host.testGenerator false) []
  = (Panic "runtime error: index out of range [0] with length 0", []).
Proof.
  apply (@processFile_panics_without_value (HostSys.goenv [])
           (Host.testGenerator false) []
           [Source.ValueSpec ["A"] None [Source.Ident "iota"]] [] [] ["B"]).
  apply collects_skipped; [apply no_cast; discriminate | constructor].
Defined.

(** Three constants of type [Err]: a cast without an argument, a sum of two
    literals, and a cast of a literal the host does not unquote. *)
Lemma processFile_without_template_witness :
  fst (processFile (HostSys.goenv [])
         (Some (Source.GenDecl Source.CONST
            [Source.ValueSpec ["ErrX"] None
               [Source.CallExpr (Source.Ident "Err") []]]))
         (Host.testGenerator false) [])
  = Panic "runtime error: index out of range [0] with length 0"
  /\ fst (processFile (HostSys.goenv [])
            (Some (Source.GenDecl Source.CONST
               [Source.ValueSpec ["ErrX"] (Some (Source.Ident "Err"))
                  [Source.Other "*ast.BinaryExpr" [HostSys.lit "a"; HostSys.lit "b"]]]))
            (Host.testGenerator false) [])
     = Fatal ("expected string literal or cast to Err, got &ast.BinaryExpr{}" ++ nl)
  /\ fst (processFile (HostSys.goenv [])
            (Some (Source.GenDecl Source.CONST
               [Source.ValueSpec ["ErrY"] None
                  [Source.CallExpr (Source.Ident "Err")
                     [Source.BasicLit Source.STRING "unterminated"]]]))
            (Host.testGenerator false) [])
     = Fatal "invalid syntax".
Proof.
  repeat apply conj.
  - apply (proj1 (@processFile_without_template (HostSys.goenv [])
                    (Host.testGenerator false) [] [] [] []
                    (Source.ValueSpec ["ErrX"] None
                       [Source.CallExpr (Source.Ident "Err") []])
                    (collects_nil _ _))
                 (Source.Ident "Err")).
    apply typedAs_cast.
  - apply (proj1 (proj2 (@processFile_without_template (HostSys.goenv [])
                    (Host.testGenerator false) [] [] [] []
                    (Source.ValueSpec ["ErrX"] (Some (Source.Ident "Err"))
                       [Source.Other "*ast.BinaryExpr"
                          [HostSys.lit "a"; HostSys.lit "b"]])
                    (collects_nil _ _)))
                 (Source.Other "*ast.BinaryExpr" [HostSys.lit "a"; HostSys.lit "b"])).
    + apply typedAs_type.
    + apply (@rejects_value (HostSys.goenv []) "Err"
               (Source.Other "*ast.BinaryExpr" [HostSys.lit "a"; HostSys.lit "b"])).
      * discriminate.
      * intros [s H]. discriminate H.
  - apply (proj1 (proj2 (proj2 (@processFile_without_template (HostSys.goenv [])
                    (Host.testGenerator false) [] [] [] []
                    (Source.ValueSpec ["ErrY"] None
                       [Source.CallExpr (Source.Ident "Err")
                          [Source.BasicLit Source.STRING "unterminated"]])
                    (collects_nil _ _))))
                 "ErrY" "unterminated" "invalid syntax").
    + apply cast.
    + reflexivity.
Defined.

(** ** The walk over a file *)

Section WalkFacts.

Variable env : GoEnv.

Import Source.

Lemma Node_induction (P : Node -> Prop) :
  (forall name decls, Forall P decls -> P (File name decls)) ->
  (forall tok specs, Forall P specs -> P (GenDecl tok specs)) ->
  (forall names t values,
      match t with Some x => P x | None => True end ->
      Forall P values -> P (ValueSpec names t values)) ->
  (forall fn args, P fn -> Forall P args -> P (CallExpr fn args)) ->
  (forall name, P (Ident name)) ->
  (forall k v, P (BasicLit k v)) ->
  (forall kind children, Forall P children -> P (Other kind children)) ->
  forall n, P n.
Proof.
  intros HF HG HV HC HI HB HO. fix IH 1.
  intros [name decls|tok vspecs|names t values|fn args|name|k v|kind children].
  - apply HF. induction decls; constructor; auto.
  - apply HG. induction vspecs; constructor; auto.
  - apply HV.
    + destruct t; [apply IH | exact I].
    + induction values; constructor; auto.
  - apply HC; [apply IH|]. induction args; constructor; auto.
  - apply HI.
  - apply HB.
  - apply HO. induction children; constructor; auto.
Qed.

Lemma walkList_constSpecs (l : list Node) :
  Forall (fun n => same (Inspect (processFile env) n)
                        (range (constSpecs n) (fun _ spec => processSpec env spec))) l ->
  same (walkList (processFile env) l)
       (range (flat_map constSpecs l) (fun _ spec => processSpec env spec)).
Proof.
  induction 1 as [|c l Hc Hl IH]; simpl.
  - apply same_refl.
  - eapply same_trans; [|apply same_sym, (rangeFrom_app (processSpec env) _ _ 0 0)].
    apply bind_cong; [exact Hc | intros _; exact IH].
Qed.

Lemma leave_processFile (m m' : M unit) :
  same m m' -> same (bind m (fun _ => leave (processFile env))) m'.
Proof.
  intros H. eapply same_trans; [|apply H].
  eapply same_trans; [|apply bind_ret_tt].
  apply bind_cong; [apply same_refl|]. intros _ g l. reflexivity.
Qed.

Lemma leaf_processFile (name : string) (m m' : M unit) :
  same m m' ->
  same (bind (inspectLeaf (processFile env) (Ident name)) (fun _ => m)) m'.
Proof. intros H g l. apply H. Qed.

Lemma names_processFile (names : list string) (m m' : M unit) :
  same m m' ->
  same (bind (range names (fun _ name => inspectLeaf (processFile env) (Ident name)))
             (fun _ => m)) m'.
Proof.
  intros H. unfold range. generalize 0%Z.
  induction names as [|a names IH]; intros i; simpl.
  - exact H.
  - eapply same_trans; [apply bind_assoc|].
    apply leaf_processFile with (name := a). apply IH.
Qed.

Ltac fold_walk :=
  change (fix walkList (l : list Node) {struct l} : M unit :=
            match l with
            | [] => ret tt
            | c :: l' => bind (Inspect (processFile env) c) (fun _ => walkList l')
            end)
    with (walkList (processFile env)).

Lemma Inspect_constSpecs (n : Node) :
  same (Inspect (processFile env) n)
       (range (constSpecs n) (fun _ spec => processSpec env spec)).
Proof.
  induction n as [name decls H|tok vspecs H|names t values H H0|fn args IHn H
                  |name|k v|kind children H] using Node_induction.
  - apply walkList_constSpecs in H. simpl. fold_walk.
    eapply same_trans; [apply bind_ret_l|]. cbv beta iota.
    apply leave_processFile. eapply leaf_processFile. exact H.
  - apply walkList_constSpecs in H. destruct tok; simpl; fold_walk;
      try (eapply same_trans; [apply bind_ret_l|]; cbv beta iota;
           apply leave_processFile, H).
    eapply same_trans; [apply bind_assoc|].
    eapply same_trans; [|apply bind_ret_tt].
    apply bind_cong; [apply same_refl|]. intros _ g l. reflexivity.
  - apply walkList_constSpecs in H0. simpl. fold_walk.
    eapply same_trans; [apply bind_ret_l|]. cbv beta iota.
    apply leave_processFile. eapply names_processFile.
    eapply same_trans; [|apply same_sym, (rangeFrom_app (processSpec env) _ _ 0 0)].
    apply bind_cong; [|intros _; exact H0].
    destruct t; [exact H | apply same_refl].
  - apply walkList_constSpecs in H. simpl. fold_walk.
    eapply same_trans; [apply bind_ret_l|]. cbv beta iota.
    apply leave_processFile.
    eapply same_trans; [|apply same_sym, (rangeFrom_app (processSpec env) _ _ 0 0)].
    apply bind_cong; [exact IHn | intros _; exact H].
  - intros g l. reflexivity.
  - intros g l. reflexivity.
  - apply walkList_constSpecs in H. simpl. fold_walk.
    eapply same_trans; [apply bind_ret_l|]. cbv beta iota.
    apply leave_processFile, H.
Qed.

Lemma collects_app_inv T (a b : list Node) : forall new,
  collects env T (a ++ b) new ->
  exists n1 n2, new = (n1 ++ n2)%list /\ collects env T a n1 /\ collects env T b n2.
Proof.
  induction a as [|x a IH]; simpl; intros new C.
  - exists [], new. repeat split; [constructor | exact C].
  - inversion C as [|spec name lit template rest new' D U C' | spec rest new' S C'];
      subst.
    + destruct (IH _ C') as (n1 & n2 & -> & C1 & C2).
      exists (ErrorSpec.Make name template :: n1), n2.
      repeat split; [econstructor; eauto | exact C2].
    + destruct (IH _ C') as (n1 & n2 & -> & C1 & C2).
      exists n1, n2. repeat split; [apply collects_skipped; auto | exact C2].
Qed.

Lemma last_cons A (a d : A) (l : list A) : last (a :: l) d = last l a.
Proof.
  revert a d. induction l as [|b l IH]; intros a d; [reflexivity|].
  change (last (a :: b :: l) d) with (last (b :: l) d).
  rewrite IH. symmetry. apply IH.
Qed.

Lemma file_step (f : file) (g : Generator) (l : list string) :
  bind (processFile env (Some (node f)))
       (fun _ => bind (setPkgName (Name f))
                      (fun _ => Inspect (processFile env) (node f))) g l
  = range (constSpecs (node f)) (fun _ spec => processSpec env spec)
          (withPkgName g (Name f)) l.
Proof.
  unfold bind at 1. change (processFile env (Some (node f)) g l) with (Ok (true, g), l).
  cbv iota beta. unfold bind at 1. unfold setPkgName at 1. cbv iota beta.
  apply Inspect_constSpecs.
Qed.

Lemma range_files (files : list file) : forall new i g l,
  collects env (typeName g) (flat_map (fun f => constSpecs (node f)) files) new ->
  rangeFrom i files
    (fun _ file =>
       bind (processFile env (Some (node file)))
            (fun _ => bind (setPkgName (Name file))
                           (fun _ => Inspect (processFile env) (node file)))) g l
  = (Ok (tt, loaded g new (last (map Name files) (pkgName g))), l).
Proof.
  induction files as [|f files IH]; intros new i g l C; cbn [flat_map] in C.
  - inversion C; subst. cbn [rangeFrom map last]. unfold loaded.
    rewrite List.app_nil_r. destruct g; reflexivity.
  - apply collects_app_inv in C as (n1 & n2 & -> & C1 & C2).
    cbn [rangeFrom]. unfold bind at 1. rewrite file_step. unfold range.
    rewrite (@range_collects env _ _ _ C1 0%Z (withPkgName g (Name f)) l eq_refl).
    rewrite (IH n2) by exact C2.
    cbn [map]. rewrite last_cons. unfold loaded, withSpecs, withPkgName; simpl.
    rewrite List.app_assoc. reflexivity.
Qed.

Lemma loadPackage_loaded (g : Generator) (l : list string) (pattern : list string)
      (pkg : Package) (new : list ErrorSpec.t) :
  packages_Load env pattern = inl [pkg] ->
  collects env (typeName g)
           (flat_map (fun f => constSpecs (node f)) (Syntax pkg)) new ->
  loadPackage env pattern g l
  = (Ok (tt, loaded g new (last (map Name (Syntax pkg)) (pkgName g))), l).
Proof.
  unfold loadPackage. intros -> C. unfold bind at 1. simpl when. cbv iota beta.
  change (ret tt g l) with (Ok (tt, g), l). cbv iota beta.
  unfold bind at 1. simpl first. change (ret pkg g l) with (Ok (pkg, g), l).
  cbv iota beta. unfold range. apply range_files. exact C.
Qed.

(** X4. Walking a tree with [processFile] runs the loop over the value specs of
    every constant declaration of the tree, in source order -- also of those
    inside function bodies -- and nothing else: what stands below a constant
    declaration is not visited, and no other node has an effect.  When these
    specs are all collected, the walk returns with their error specs
    appended. *)
Theorem Inspect_processFile (n : Node) :
  same (Inspect (processFile env) n)
       (range (constSpecs n) (fun _ spec => processSpec env spec))
  /\ (forall g l new,
         collects env (typeName g) (constSpecs n) new ->
         Inspect (processFile env) n g l
         = (Ok (tt, withSpecs g (specs g ++ new)), l)).
Proof.
  split; [apply Inspect_constSpecs|].
  intros g l new C. rewrite Inspect_constSpecs. unfold range.
  apply (@range_collects env _ _ _ C 0%Z g l eq_refl).
Qed.

(** X5. [loadPackage] is fatal when the loader fails and when it returns any
    number of packages other than one (none is reported as too many).  With one
    package it visits the files in order: the specs of the constant
    declarations of every file are appended to those the generator holds, the
    package name is the name of the last file, and nothing else changes. *)
Theorem loadPackage_outcome (g : Generator) (l : list string) (pattern : list string) :
  (forall err,
      packages_Load env pattern = inr err ->
      loadPackage env pattern g l = (Fatal err, l))
  /\ (forall pkgs,
         packages_Load env pattern = inl pkgs ->
         List.length pkgs <> 1%nat ->
         loadPackage env pattern g l
         = (Fatal ("too many packages: found " ++ itoa (List.length pkgs)
                   ++ ", expected 1"), l))
  /\ (forall pkg new,
         packages_Load env pattern = inl [pkg] ->
         collects env (typeName g)
                  (flat_map (fun f => constSpecs (node f)) (Syntax pkg)) new ->
         loadPackage env pattern g l
         = (Ok (tt, loaded g new (last (map Name (Syntax pkg)) (pkgName g))), l)).
Proof.
  unfold loadPackage. repeat split.
  - intros err ->. reflexivity.
  - intros pkgs -> N. unfold bind, when.
    destruct (Z.of_nat (List.length pkgs) =? 1)%Z eqn:E; [|reflexivity].
    apply Z.eqb_eq in E. lia.
  - intros pkg new L C. fold (loadPackage env pattern).
    apply loadPackage_loaded; assumption.
Qed.

(** X6. Whatever the tree, when [processFile] or the walk with it returns, it
    has logged nothing and has changed nothing of the generator but the specs,
    which only grow at the end: the buffer, the flags and the specs collected
    before are as they were. *)
Theorem collector_frame (g : Generator) (l : list string) :
  (forall node, framed g l (processFile env node g l))
  /\ (forall n, framed g l (Inspect (processFile env) n g l)).
Proof.
  split.
  - intros [[| [] vspecs| | | | |]|]; try apply framed_ret.
    unfold processFile. apply framed_bind; [apply framed_range|].
    intros _ g' _. apply framed_ret.
  - intros n. rewrite Inspect_constSpecs. apply framed_range.
Qed.

End WalkFacts.

(** A file with a constant declared inside a function body and one at the top
    level. *)
Lemma Inspect_processFile_witness :
  Inspect (processFile (HostSys.goenv []))
    (Source.File "main"
       [HostSys.typeErr;
        Source.Other "*ast.FuncDecl"
          [Source.Ident "main";
           Source.Other "*ast.BlockStmt"
             [Source.Other "*ast.DeclStmt"
                [Source.GenDecl Source.CONST
                   [Source.ValueSpec ["ErrInner"] None
                      [Source.CallExpr (Source.Ident "Err") [HostSys.lit "inner"]]]]]];
        Source.GenDecl Source.CONST
          [Source.ValueSpec ["ErrOuter"] (Some (Source.Ident "Err"))
             [HostSys.lit "outer"]]])
    (Host.testGenerator false) []
  = (Ok (tt, withSpecs (Host.testGenerator false)
               (specs (Host.testGenerator false)
                ++ [ErrorSpec.Make "ErrInner" "inner";
                    ErrorSpec.Make "ErrOuter" "outer"])), []).
Proof.
  apply (proj2 (Inspect_processFile (HostSys.goenv []) _)).
  cbn [constSpecs flat_map List.app HostSys.typeErr].
  eapply collects_declared; [apply cast | reflexivity |].
  eapply collects_declared; [apply typed_literal | reflexivity | constructor].
Defined.

(** The package of the golden test [simple]. *)
Lemma loadPackage_outcome_witness :
  loadPackage (HostSys.goenv [{| Source.Syntax := [HostSys.goldenFile Golden.simpleIn] |}])
              ["simple.go"] (Host.testGenerator false) []
  = (Ok (tt, loaded (Host.testGenerator false) [Golden.simpleIn] "test"), []).
Proof.
  apply (proj2 (proj2 (loadPackage_outcome
                         (HostSys.goenv [{| Source.Syntax :=
                                              [HostSys.goldenFile Golden.simpleIn] |}])
                         (Host.testGenerator false) [] ["simple.go"]))
               {| Source.Syntax := [HostSys.goldenFile Golden.simpleIn] |}
               [Golden.simpleIn]).
  - reflexivity.
  - cbn [Source.Syntax flat_map HostSys.goldenFile Source.node Source.Decls
         constSpecs List.app HostSys.typeErr].
    eapply collects_declared; [apply cast | reflexivity | constructor].
Defined.

(** ** From the specs to the formatted text *)

Section Pipeline.

Variable lib : GoLib.

Lemma emits_generate (g : Generator) (spec : ErrorSpec.t) (d : string) :
  declared lib g spec d -> emits (generate lib spec) g d.
Proof.
  intros (sn & pt & Hs & Hp & ->) b l.
  rewrite (@generate_declarations lib (withBuf g b) spec sn pt l Hs Hp).
  reflexivity.
Qed.

Lemma emits_generate_all (g : Generator) (l : list ErrorSpec.t) (ds : list string) :
  Forall2 (declared lib g) l ds ->
  forall i, emits (rangeFrom i l (fun _ err => generate lib err)) g (join ds).
Proof.
  induction 1 as [|spec d l ds Hd Hl IH]; intros i; simpl.
  - apply emits_ret.
  - apply emits_bind; [apply emits_generate; exact Hd | apply IH].
Qed.

Lemma emit_run (g : Generator) (l : list string) (ds : list string) :
  specs g <> [] ->
  Forall2 (declared lib g) (specs g) ds ->
  let text := buf g ++ headerText lib g ++ join ds in
  emit lib g l =
  match format lib (withBuf g text) l with
  | (Ok (src, g'), l') => (Ok (Some src, g'), l')
  | (Fatal e, l') => (Fatal e, l')
  | (Panic e, l') => (Panic e, l')
  end.
Proof.
  intros N D text. unfold emit. unfold bind at 1.
  change (this g l) with (Ok (g, g), l). cbv iota beta.
  destruct (specs g) as [|s0 rest] eqn:E; [congruence|].
  change (Z.of_nat (List.length (s0 :: rest)) <? 1)%Z
    with (Z.pos (Pos.of_succ_nat (List.length rest)) <? 1)%Z.
  replace (Z.pos (Pos.of_succ_nat (List.length rest)) <? 1)%Z with false
    by (symmetry; apply Z.ltb_ge; lia).
  unfold bind at 1. rewrite header_run. cbv iota beta.
  unfold bind at 1. unfold range.
  pose proof (@emits_generate_all g (s0 :: rest) ds D 0%Z
                (buf g ++ headerText lib g) l) as R.
  unfold headerText in R. rewrite R. cbv iota beta.
  unfold bind at 1. subst text. unfold headerText.
  rewrite <- !app_assoc.
  destruct (format lib _ l) as [[[src g']|e|e] l']; reflexivity.
Qed.

(** X7. For a generator that holds at least one spec, all of them accepted,
    [emit] hands to go/format the buffer followed by the shared declarations
    and by the declaration groups of every spec, in the order of the specs, and
    returns the bytes go/format returns for that text; with a formatting error
    the two warnings are logged, and the run is fatal when no bytes come
    back. *)
Theorem emit_pipeline (g : Generator) (l : list string) (ds : list string) :
  specs g <> [] ->
  Forall2 (declared lib g) (specs g) ds ->
  let text := buf g ++ headerText lib g ++ join ds in
  match format_Source lib text with
  | (src, None) => emit lib g l = (Ok (Some src, withBuf g text), l)
  | (src, Some e) =>
      let warned :=
        List.app l ["warning: failed to format generated code: " ++ e ++ nl;
                    "warning: try to compile the output to check the error" ++ nl] in
      if (len src =? 0)%Z
      then emit lib g l =
           (Fatal ("format produced empty output" ++ nl ++ text ++ nl), warned)
      else emit lib g l = (Ok (Some src, withBuf g text), warned)
  end.
Proof.
  intros N D text. pose proof (@emit_run g l ds N D) as R. cbv zeta in R.
  fold text in R.
  destruct (format_Source lib text) as [src [e|]] eqn:E; cbv zeta;
    [destruct (len src =? 0)%Z eqn:L|];
    rewrite R; unfold format, this, bind;
    change (buf (withBuf g text)) with text; rewrite E;
    unfold log_Printf, when, log_Fatalf, ret; try rewrite L;
    try rewrite <- List.app_assoc; reflexivity.
Qed.

Lemma emit_stops (g : Generator) (l : list string) (pre post : list ErrorSpec.t)
      (ds : list string) (bad : ErrorSpec.t) (A : Type) (stop : result A) :
  specs g = (pre ++ bad :: post)%list ->
  Forall2 (declared lib g) pre ds ->
  aborted stop ->
  (forall b, generate lib bad (withBuf g b) l
             = (match stop with
                | Ok _ => Ok (tt, withBuf g b)
                | Fatal e => Fatal e
                | Panic e => Panic e
                end, l)) ->
  emit lib g l = (match stop with
                  | Ok _ => Ok (None, g)
                  | Fatal e => Fatal e
                  | Panic e => Panic e
                  end, l).
Proof.
  intros E D Ab G. unfold emit. unfold bind at 1.
  change (this g l) with (Ok (g, g), l). cbv iota beta. rewrite E.
  replace (Z.of_nat (List.length (pre ++ bad :: post)) <? 1)%Z with false
    by (symmetry; apply Z.ltb_ge; rewrite List.length_app; simpl; lia).
  unfold bind at 1. rewrite header_run. cbv iota beta.
  unfold bind at 1. unfold range.
  rewrite (rangeFrom_app (generate lib) pre (bad :: post) 0 0 _ l).
  unfold bind at 1.
  rewrite (@emits_generate_all g pre ds D 0%Z _ l). cbv iota beta.
  cbn [rangeFrom]. unfold bind at 1. rewrite G.
  destruct stop; simpl in *; tauto.
Qed.

(** X8. The first spec that is not accepted decides how the run ends,
    whatever the specs after it are: when the specs before it are accepted, a
    spec with a name whose template [parseTemplate] exits on makes [emit] exit
    with the same message, and a spec with an empty name makes it panic with
    an index out of range. *)
Theorem emit_first_failure (g : Generator) (l : list string)
        (pre post : list ErrorSpec.t) (ds : list string) (bad : ErrorSpec.t) :
  specs g = (pre ++ bad :: post)%list ->
  Forall2 (declared lib g) pre ds ->
  (forall msg,
      ErrorSpec.name bad <> EmptyString ->
      parseTemplate lib (ErrorSpec.template bad) = Fatal msg ->
      fst (emit lib g l) = Fatal msg)
  /\ (ErrorSpec.name bad = EmptyString ->
      fst (emit lib g l)
      = Panic "runtime error: index out of range [0] with length 0").
Proof.
  intros E D. split.
  - intros msg N P.
    rewrite (@emit_stops g l pre post ds bad unit (Fatal msg) E D I); [reflexivity|].
    intros b. rewrite generate_run.
    destruct (@structName_total lib (withBuf g b) (ErrorSpec.name bad) N) as [sn ->].
    rewrite P. reflexivity.
  - intros N.
    rewrite (@emit_stops g l pre post ds bad unit
               (Panic "runtime error: index out of range [0] with length 0") E D I);
      [reflexivity|].
    intros b. rewrite generate_run, N. reflexivity.
Qed.

End Pipeline.

(** The generator of the golden test [simple], once loaded. *)
Lemma emit_pipeline_witness :
  let g := loaded (Host.testGenerator false) [Golden.simpleIn] "test" in
  emit Host.golib g []
  = (Ok (Some (headerText Host.golib g ++ Golden.simpleOut),
         withBuf g (headerText Host.golib g ++ Golden.simpleOut)), []).
Proof.
  intros g.
  assert (N : specs g <> []) by discriminate.
  assert (D : Forall2 (declared Host.golib g) (specs g) [Golden.simpleOut]).
  { constructor; [|constructor].
    exists "errOpen", (ParsedTemplate.Make OptWrap [] "failed to open file").
    repeat split; run. }
  pose proof (@emit_pipeline Host.golib g [] [Golden.simpleOut] N D) as H.
  cbv zeta in H. cbn [format_Source Host.golib] in H. rewrite H. run.
Defined.

(** The spec of the golden test [simple] followed by one with an accessor
    that does not parse, and by one without a name. *)
Lemma emit_first_failure_witness :
  fst (emit Host.golib
         (loaded (Host.testGenerator false)
                 [Golden.simpleIn; Golden.ErrSome "{{a..b T %v}}"] "test") [])
  = Fatal Host.syntaxError
  /\ fst (emit Host.golib
            (loaded (Host.testGenerator false)
                    [Golden.simpleIn; ErrorSpec.Make EmptyString "x"] "test") [])
     = Panic "runtime error: index out of range [0] with length 0".
Proof.
  assert (D : forall tail,
             Forall2 (declared Host.golib
                        (loaded (Host.testGenerator false)
                                (Golden.simpleIn :: tail) "test"))
                     [Golden.simpleIn] [Golden.simpleOut]).
  { intros tail. constructor; [|constructor].
    exists "errOpen", (ParsedTemplate.Make OptWrap [] "failed to open file").
    repeat split; run. }
  split.
  - apply (proj1 (@emit_first_failure Host.golib
                    (loaded (Host.testGenerator false)
                            [Golden.simpleIn; Golden.ErrSome "{{a..b T %v}}"] "test")
                    [] [Golden.simpleIn] []
                    [Golden.simpleOut] (Golden.ErrSome "{{a..b T %v}}")
                    eq_refl (D _))).
    + discriminate.
    + run.
  - apply (proj2 (@emit_first_failure Host.golib
                    (loaded (Host.testGenerator false)
                            [Golden.simpleIn; ErrorSpec.Make EmptyString "x"] "test")
                    [] [Golden.simpleIn] []
                    [Golden.simpleOut] (ErrorSpec.Make EmptyString "x")
                    eq_refl (D _))).
    reflexivity.
Defined.

(** ** The import flag *)

Section ImportFacts.

Variable env : GoEnv.

Lemma splitFrom_text (x : string) : forall rest,
  (forall a b, x <> a ++ "," ++ b) ->
  splitFrom "," 0 (x ++ rest)
  = (x ++ fst (splitFrom "," 0 rest), snd (splitFrom "," 0 rest)).
Proof.
  induction x as [|c x IH]; intros rest N.
  - simpl. destruct (splitFrom "," 0 rest); reflexivity.
  - change ((String c x) ++ rest) with (String c (x ++ rest)).
    cbn [splitFrom].
    destruct (HasPrefix (String c (x ++ rest)) ",") eqn:E.
    + apply HasPrefix_iff in E as [r E]. simpl in E. injection E as -> E.
      exfalso. apply (N EmptyString x). reflexivity.
    + rewrite IH.
      * reflexivity.
      * intros a b E'. apply (N (String c a) b). simpl. rewrite E'. reflexivity.
Qed.

Lemma splitFrom_comma (rest : string) :
  splitFrom "," 0 ("," ++ rest)
  = (EmptyString, fst (splitFrom "," 0 rest) :: snd (splitFrom "," 0 rest)).
Proof.
  change ("," ++ rest) with (String "," rest). cbn [splitFrom].
  replace (HasPrefix (String "," rest) ",") with true
    by (symmetry; apply (HasPrefix_app "," rest)).
  change (String.length "," - 1)%nat with 0%nat.
  destruct (splitFrom "," 0 rest); reflexivity.
Qed.

Lemma Split_concat (es : list string) :
  es <> [] ->
  Forall (fun e => forall a b, e <> a ++ "," ++ b) es ->
  Split (String.concat "," es) "," = es.
Proof.
  intros N F. unfold Split.
  assert (H : splitFrom "," 0 (String.concat "," es) = (hd EmptyString es, tl es)).
  { induction F as [|e es He F IH]; [congruence|].
    destruct es as [|e' es].
    - simpl. rewrite <- (app_nil_r e) at 1. rewrite splitFrom_text by exact He.
      simpl. rewrite app_nil_r. reflexivity.
    - change (String.concat "," (e :: e' :: es))
        with (e ++ "," ++ String.concat "," (e' :: es)).
      rewrite splitFrom_text by exact He. rewrite splitFrom_comma.
      rewrite IH by discriminate. simpl. rewrite app_nil_r. reflexivity. }
  rewrite H. destruct es; [congruence | reflexivity].
Qed.

Lemma asciiSpace_ascii b : asciiSpace b = true -> (128 <=? b)%Z = false.
Proof.
  unfold asciiSpace. intros H. apply Z.leb_gt.
  repeat (apply orb_true_iff in H as [H|H]); apply Z.eqb_eq in H; lia.
Qed.

Lemma blank_plainText p : blank p = true -> plainText p = true.
Proof.
  induction p as [|c p IH]; simpl; intros B; [reflexivity|].
  apply andb_true_iff in B as [Bc Bp]. rewrite (IH Bp), andb_true_r.
  apply andb_true_iff. split.
  - apply asciiSpace_ascii in Bc. apply Z.leb_gt in Bc. apply Z.ltb_lt. exact Bc.
  - destruct (Ascii.eqb c ",") eqn:E; [|reflexivity].
    apply Ascii.eqb_eq in E. subst c. discriminate.
Qed.

Lemma plainText_app a b : plainText (a ++ b) = plainText a && plainText b.
Proof. induction a as [|c a IH]; simpl; [reflexivity|]. rewrite IH, andb_assoc. reflexivity. Qed.

Lemma plainText_no_comma s : plainText s = true -> forall a b, s <> a ++ "," ++ b.
Proof.
  intros P a b ->. rewrite plainText_app in P.
  apply andb_true_iff in P as [_ P]. simpl in P. discriminate.
Qed.

Lemma scanLeft_blank p s : blank p = true -> scanLeft (p ++ s) = scanLeft s.
Proof.
  induction p as [|c p IH]; simpl; intros B; [reflexivity|].
  apply andb_true_iff in B as [Bc Bp].
  rewrite (@asciiSpace_ascii _ Bc), Bc. apply IH, Bp.
Qed.

Lemma scanRight_blank q : blank q = true -> scanRight q = Stop EmptyString.
Proof.
  induction q as [|c q IH]; simpl; intros B; [reflexivity|].
  apply andb_true_iff in B as [Bc Bq].
  rewrite (IH Bq), (@asciiSpace_ascii _ Bc), Bc. reflexivity.
Qed.

Lemma scanRight_tidy x q :
  plainText x = true -> endsTidy x = true -> blank q = true ->
  scanRight (x ++ q) = Stop x.
Proof.
  intros P E B. induction x as [|c x IH]; [discriminate|].
  simpl in P. apply andb_true_iff in P as [Pc Px].
  apply andb_true_iff in Pc as [Pc _].
  change (String c x ++ q) with (String c (x ++ q)). cbn [scanRight].
  destruct x as [|c' x].
  - simpl in E. change (EmptyString ++ q) with q. rewrite (@scanRight_blank q B).
    apply Z.ltb_lt in Pc. replace (128 <=? Utf8.byte c)%Z with false
      by (symmetry; apply Z.leb_gt; exact Pc).
    apply negb_true_iff in E. rewrite E. reflexivity.
  - rewrite IH; [reflexivity | exact Px | exact E].
Qed.

Lemma TrimSpace_padded p x q :
  blank p = true -> tidy x = true -> blank q = true ->
  TrimSpace env (p ++ x ++ q) = x.
Proof.
  intros Bp T Bq. unfold tidy in T.
  apply andb_true_iff in T as [T F]. apply andb_true_iff in T as [P E].
  unfold TrimSpace. rewrite (@scanLeft_blank p _ Bp).
  destruct x as [|c x]; [discriminate|].
  assert (L : scanLeft (String c x ++ q) = Stop (String c x ++ q)).
  { simpl. simpl in P. apply andb_true_iff in P as [Pc _].
    apply andb_true_iff in Pc as [Pc _]. apply Z.ltb_lt in Pc.
    replace (128 <=? Utf8.byte c)%Z with false by (symmetry; apply Z.leb_gt; exact Pc).
    apply negb_true_iff in F. rewrite F. reflexivity. }
  rewrite L, (@scanRight_tidy _ q P E Bq). reflexivity.
Qed.

Lemma TrimSpace_blank p : blank p = true -> TrimSpace env p = EmptyString.
Proof.
  intros B. unfold TrimSpace. rewrite <- (app_nil_r p), (@scanLeft_blank p EmptyString B).
  reflexivity.
Qed.

Lemma fold_imports (es : list string) : forall acc,
  fold_left (fun imports s =>
               let s := TrimSpace env s in
               if (0 <? len s)%Z then (imports ++ [s])%list else imports) es acc
  = (acc ++ filter (fun s => (0 <? len s)%Z) (map (TrimSpace env) es))%list.
Proof.
  induction es as [|e es IH]; intros acc; simpl.
  - rewrite List.app_nil_r. reflexivity.
  - rewrite IH. destruct (0 <? len (TrimSpace env e))%Z; [|reflexivity].
    rewrite <- List.app_assoc. reflexivity.
Qed.

Lemma written_trimmed es l :
  written es l ->
  filter (fun s => (0 <? len s)%Z) (map (TrimSpace env) es) = l
  /\ Forall (fun e => forall a b, e <> a ++ "," ++ b) es.
Proof.
  induction 1 as [|p x q es l Bp T Bq W [IH F]|p es l Bp W [IH F]]; simpl.
  - split; constructor.
  - rewrite (@TrimSpace_padded p x q Bp T Bq). split.
    + destruct x as [|c x]; [discriminate|]. rewrite IH. reflexivity.
    + constructor; [|exact F]. apply plainText_no_comma.
      unfold tidy in T. apply andb_true_iff in T as [T _].
      apply andb_true_iff in T as [P _].
      rewrite !plainText_app, P, (@blank_plainText p Bp), (@blank_plainText q Bq).
      reflexivity.
  - rewrite (@TrimSpace_blank p Bp). split; [exact IH|].
    constructor; [|exact F]. apply plainText_no_comma. apply blank_plainText. exact Bp.
Qed.

(** X9. The flag [-import] is read as a list of paths between commas: the
    spaces around a path are dropped, entries that are empty or hold only
    spaces are passed over, and the paths are sorted.  A list of tidy ASCII
    paths written with commas between them is read back in sorted order. *)
Theorem importList_written (es l : list string) :
  written es l ->
  importList env (String.concat "," es) = sort_Strings l.
Proof.
  intros W. unfold importList. rewrite fold_imports. simpl List.app.
  destruct (written_trimmed W) as [T F].
  destruct es as [|e es].
  - inversion W; subst. reflexivity.
  - rewrite Split_concat by (congruence || exact F). rewrite T. reflexivity.
Qed.

End ImportFacts.

(** [-import " os ,strings,,io "] *)
Lemma importList_written_witness :
  importList (HostSys.goenv []) " os ,strings,,io " = ["io"; "os"; "strings"].
Proof.
  assert (W : written [" os "; "strings"; EmptyString; "io "] ["os"; "strings"; "io"]).
  { apply (@written_path " " "os" " "); try reflexivity.
    apply (@written_path EmptyString "strings" EmptyString); try reflexivity.
    apply written_blank; [reflexivity|].
    apply (@written_path EmptyString "io" " "); try reflexivity.
    constructor. }
  exact (importList_written (HostSys.goenv []) W).
Defined.

(** ** The run of [main] *)

Section MainFacts.

Variable lib : GoLib.
Variable env : GoEnv.

Import Source.

Lemma format_accepts (g : Generator) (l : list string) (src : string) :
  format_Source lib (buf g) = (src, None) -> format lib g l = (Ok (src, g), l).
Proof.
  intros E. unfold format, bind. change (this g l) with (Ok (g, g), l).
  cbv iota beta. rewrite E. reflexivity.
Qed.

(** X10. Without [-type], [main] prints the usage and exits before anything is
    loaded.  Otherwise, once the package is loaded: with no spec of the type it
    logs that and returns without writing; with specs, all accepted, and a text
    go/format accepts, it writes the formatted shared declarations and
    declaration groups to the file named by [-output], by default
    [<type>_def.go] in lower case joined to the directory worked out from the
    arguments, and is fatal when the write fails. *)
Theorem main_outcome (fl : Flags) :
  (flagTyp fl = EmptyString -> main lib env fl = (Ok UsageExit, []))
  /\ (forall dir pkg new,
         flagTyp fl <> EmptyString ->
         directory env (arguments fl) = Ok dir ->
         packages_Load env (arguments fl) = inl [pkg] ->
         collects env (flagTyp fl)
                  (flat_map (fun f => constSpecs (node f)) (Syntax pkg)) new ->
         let g := loadedFrom env fl new (last (map Name (Syntax pkg)) EmptyString) in
         let name :=
           if String.eqb (flagOut fl) EmptyString
           then filepath_Join env dir (ToLower lib (flagTyp fl ++ "_def.go"))
           else flagOut fl in
         (new = [] ->
          main lib env fl
          = (Ok NoOutput, ["no errors of type " ++ flagTyp fl ++ " found"]))
         /\ (forall ds src,
                new <> [] ->
                Forall2 (declared lib g) new ds ->
                format_Source lib (headerText lib g ++ join ds) = (src, None) ->
                main lib env fl
                = match os_WriteFile env name src with
                  | None => (Ok (Wrote name src), [])
                  | Some err => (Fatal ("writing output: " ++ err), [])
                  end)).
Proof.
  split.
  - intros E. unfold main. rewrite E. reflexivity.
  - intros dir pkg new T D L C g name.
    assert (Load : loadPackage env (arguments fl)
                     {| typeName := flagTyp fl; compatIs := flagIs fl;
                        makePub := flagPub fl; specSuffix := flagSuffix fl;
                        imports := importList env (flagImps fl);
                        buf := EmptyString; specs := []; pkgName := EmptyString |} []
                   = (Ok (tt, g), [])).
    { apply (@loadPackage_loaded env
               {| typeName := flagTyp fl; compatIs := flagIs fl;
                  makePub := flagPub fl; specSuffix := flagSuffix fl;
                  imports := importList env (flagImps fl);
                  buf := EmptyString; specs := []; pkgName := EmptyString |}
               [] (arguments fl) pkg new L C). }
    apply String.eqb_neq in T.
    split.
    + intros ->. unfold main. rewrite T, D. unfold bind at 1. rewrite Load.
      reflexivity.
    + intros ds src N F S. unfold main. rewrite T, D. unfold bind at 1.
      rewrite Load. cbv iota beta.
      rewrite (@emit_run lib g [] ds N F). cbv zeta.
      rewrite (@format_accepts (withBuf g (buf g ++ headerText lib g ++ join ds))
                               [] src S).
      reflexivity.
Qed.

End MainFacts.

(** [gorror -type Err] in the directory of the golden test [simple]. *)
Lemma main_outcome_witness :
  let fl := {| flagTyp := "Err"; flagOut := EmptyString; flagIs := false;
               flagPub := false; flagSuffix := EmptyString;
               flagImps := EmptyString; flagArgs := [] |} in
  let pkg := {| Source.Syntax := [HostSys.goldenFile Golden.simpleIn] |} in
  let g := loaded (Host.testGenerator false) [Golden.simpleIn] "test" in
  main Host.golib (HostSys.goenv [pkg]) fl
  = (Ok (Wrote "./err_def.go" (headerText Host.golib g ++ Golden.simpleOut)), []).
Proof.
  intros fl pkg g.
  pose proof (proj2 (main_outcome Host.golib (HostSys.goenv [pkg]) fl)
                    "." pkg [Golden.simpleIn]) as H.
  destruct H as [_ H].
  - discriminate.
  - reflexivity.
  - reflexivity.
  - cbn [Source.Syntax flat_map HostSys.goldenFile Source.node Source.Decls
         constSpecs List.app HostSys.typeErr pkg].
    eapply collects_declared; [apply cast | reflexivity | constructor].
  - rewrite (H [Golden.simpleOut] (headerText Host.golib g ++ Golden.simpleOut)).
    + reflexivity.
    + discriminate.
    + constructor; [|constructor].
      exists "errOpen", (ParsedTemplate.Make OptWrap [] "failed to open file").
      repeat split; run.
    + run.
Defined.

(** * Properties of the generator, continued *)

(** ** Templates cut into placeholders *)

Section Placeholders.

Variable lib : GoLib.

Lemma resolves_fieldOf (ps : list piece) (fs : list Field.t) :
  Forall2 (resolves lib) (map submatchOf ps) fs -> Forall2 (fieldOf lib) ps fs.
Proof.
  revert fs. induction ps as [|p ps IH]; intros fs F; inversion F; subst.
  - constructor.
  - constructor; [|apply IH; assumption].
    match goal with H : resolves _ _ _ |- _ => destruct H as (e & He & Hr & Ht & Hf & Hv) end.
    simpl in *. unfold fieldOf. repeat split; auto. exists e. auto.
Qed.

(** X11. A template made of placeholder tokens with text free of [{] between
    and after them, every accessor rooted at an identifier, is parsed into one
    field for each token, in the order of the tokens: the field has the type,
    the verb and the accessor of its token as written and the root of the
    accessor as its name; the wrap mode is that of the prefix and the format
    string is the text with each token replaced by its verb. *)
Theorem parseTemplate_pieces (template : string) (ps : list piece) (last : string) :
  snd (wrapPrefix template) = templateText ps last ->
  Forall wellFormed ps -> free last = true ->
  Forall (fun p => ~ rootless lib (submatchOf p)) ps ->
  exists pt,
    parseTemplate lib template = Ok pt
    /\ ParsedTemplate.wrap pt = fst (wrapPrefix template)
    /\ Forall2 (fieldOf lib) ps (ParsedTemplate.fields pt)
    /\ ParsedTemplate.fmt pt = formatText ps last.
Proof.
  intros E W F R.
  destruct (@parseMatches_pieces lib ps last EmptyString [] eq_refl W R)
    as (fs & Hp & Hf).
  simpl in Hp.
  exists (ParsedTemplate.Make (fst (wrapPrefix template)) fs (formatText ps last)).
  repeat split; [|apply resolves_fieldOf; exact Hf].
  rewrite parseTemplate_unfold, E, (@FindAll_templateText ps last W F), Hp. reflexivity.
Qed.

Lemma findAll_found (pre : string) : forall a t v post,
  accessorText a -> typeText t -> verbText v ->
  findAll tmplRE 0 (pre ++ token a t v ++ post) <> [].
Proof.
  induction pre as [|c pre IH]; intros a t v post Ha Ht Hv.
  - change (EmptyString ++ token a t v ++ post) with (token a t v ++ post).
    assert (M : matchAt tmplRE (token a t v ++ post)
                = Some (Hit (token a t v) [a; t; v] post)).
    { apply matchAt_token. exists a, t, v. auto. }
    unfold token in *. simpl in *. rewrite M. discriminate.
  - change (String c pre ++ token a t v ++ post)
      with (String c (pre ++ token a t v ++ post)).
    cbn [findAll].
    destruct (matchAt tmplRE (String c (pre ++ token a t v ++ post)));
      [discriminate | apply IH; assumption].
Qed.

Lemma findAll_holds (s : string) : forall k,
  findAll tmplRE k s <> [] -> holdsToken s.
Proof.
  induction s as [|c s IH]; intros k N; [simpl in N; congruence|].
  assert (Later : holdsToken s -> holdsToken (String c s)).
  { intros (pre & a & t & v & post & -> & H). exists (String c pre), a, t, v, post.
    split; [reflexivity | exact H]. }
  cbn [findAll] in N. destruct k as [|k]; [|apply Later, (IH k), N].
  destruct (matchAt tmplRE (String c s)) as [h|] eqn:M; [|apply Later, (IH 0%nat), N].
  apply matchAt_token in M as (a & t & v & _ & E & H).
  exists EmptyString, a, t, v, (rest h). split; [exact E | exact H].
Qed.

(** X12. A template is taken literally exactly when it holds no placeholder
    token: the parsed template has no field if and only if no token of the
    shape [tmplRE] accepts occurs in the text after the prefix, and the format
    string is then that text, unchanged. *)
Theorem parseTemplate_literal (template : string) (pt : ParsedTemplate.t) :
  parseTemplate lib template = Ok pt ->
  (ParsedTemplate.fields pt = [] <-> ~ holdsToken (snd (wrapPrefix template)))
  /\ (ParsedTemplate.fields pt = [] ->
      ParsedTemplate.fmt pt = snd (wrapPrefix template)).
Proof.
  rewrite parseTemplate_unfold. unfold FindAllStringSubmatch.
  set (s := snd (wrapPrefix template)).
  destruct (findAll tmplRE 0 s) as [|m ms] eqn:E.
  - simpl. intros H. injection H as <-. simpl. split; [|reflexivity].
    split; [|reflexivity]. intros _ (pre & a & t & v & post & Hs & Ha & Ht & Hv).
    rewrite Hs in E. exact (findAll_found pre post Ha Ht Hv E).
  - intros H.
    destruct (parseMatches lib (m :: ms) [] s) as [[fs s']|e|e] eqn:P;
      try discriminate.
    simpl in H. injection H as <-. simpl.
    apply parseMatches_ok in P as (new & -> & F). inversion F; subst. simpl.
    split; [|discriminate]. split; [discriminate|].
    intros N. exfalso. apply N. apply (@findAll_holds s 0%nat). rewrite E.
    discriminate.
Qed.

Lemma drop_tail (c : ascii) (s' tok r : string) :
  String c s' = tok ++ r -> tok <> EmptyString ->
  drop (String.length tok - 1) s' = r.
Proof.
  destruct tok as [|c' tok]; [congruence|]. simpl. intros E _.
  injection E as _ ->. rewrite Nat.sub_0_r. apply drop_app.
Qed.

Lemma findAll_decompose (s : string) : forall k,
  exists ps last,
    drop k s = templateText ps last
    /\ findAll tmplRE k s = map submatchOf ps
    /\ Forall accepted ps.
Proof.
  induction s as [|c s IH]; intros k.
  - exists [], EmptyString. destruct k; repeat split; constructor.
  - destruct k as [|k].
    + cbn [findAll drop].
      destruct (matchAt tmplRE (String c s)) as [h|] eqn:M.
      * apply matchAt_token in M as (a & t & v & Hh & Hs & Ha & Ht & Hv).
        destruct (IH (String.length (text h) - 1)%nat) as (ps & last & D & F & A).
        rewrite Hh in D, F |- *. cbn [text] in D, F |- *.
        rewrite (@drop_tail c s (token a t v) (rest h) Hs) in D
          by (unfold token; discriminate).
        exists (Piece EmptyString a t v :: ps), last. repeat split.
        -- rewrite Hs, D. reflexivity.
        -- rewrite F. reflexivity.
        -- constructor; [unfold accepted; simpl; auto | exact A].
      * destruct (IH 0%nat) as (ps & last & D & F & A). cbn [drop] in D.
        destruct ps as [|p ps].
        -- exists [], (String c last). repeat split; [|exact F|constructor].
           simpl in *. rewrite D. reflexivity.
        -- exists (Piece (String c (before p)) (acc p) (ty p) (vb p) :: ps), last.
           pose proof (Forall_inv A) as Ap. pose proof (Forall_inv_tail A) as Aps.
           repeat split.
           ++ rewrite D. reflexivity.
           ++ rewrite F. reflexivity.
           ++ constructor; [exact Ap | exact Aps].
    + cbn [findAll drop]. apply IH.
Qed.

(** X13. The fields of a parsed template stand for disjoint tokens of its
    text, in order: the text after the prefix is some literal text, a token,
    literal text, a token, and so on; the matches are exactly these tokens,
    each is one [tmplRE] accepts, and there is one field for each, with the
    type, verb and accessor of its token. *)
Theorem parseTemplate_decomposes (template : string) (pt : ParsedTemplate.t) :
  parseTemplate lib template = Ok pt ->
  exists ps last,
    snd (wrapPrefix template) = templateText ps last
    /\ FindAllStringSubmatch tmplRE (snd (wrapPrefix template)) = map submatchOf ps
    /\ Forall accepted ps
    /\ Forall2 (fieldOf lib) ps (ParsedTemplate.fields pt).
Proof.
  rewrite parseTemplate_unfold. unfold FindAllStringSubmatch.
  set (s := snd (wrapPrefix template)).
  destruct (findAll_decompose s 0) as (ps & last & D & F & A). cbn [drop] in D.
  intros H.
  destruct (parseMatches lib (findAll tmplRE 0 s) [] s) as [[fs s']|e|e] eqn:P;
    try discriminate.
  simpl in H. injection H as <-. cbn [ParsedTemplate.fields].
  apply parseMatches_ok in P as (new & -> & R). rewrite F in R.
  exists ps, last. repeat split; [exact D | exact F | exact A |].
  apply resolves_fieldOf. exact R.
Qed.

(** X14. A placeholder token can be read in one way only: two tokens that
    [tmplRE] accepts and that begin the same text have the same accessor, the
    same type and the same verb, and the same text follows them. *)
Theorem placeholder_unambiguous (a t v r a' t' v' r' : string) :
  recognized a t v -> recognized a' t' v' ->
  token a t v ++ r = token a' t' v' ++ r' ->
  a = a' /\ t = t' /\ v = v' /\ r = r'.
Proof.
  intros R R'. apply recognized_iff in R as (Ha & Ht & Hv).
  apply recognized_iff in R' as (Ha' & Ht' & Hv').
  apply token_unique; assumption.
Qed.

End Placeholders.

(** The template of the golden test [multiFields]. *)
Lemma parseTemplate_pieces_witness :
  exists pt,
    parseTemplate Host.golib
      "failed to {{op string %s}} {{file string %q}} (code {{code int %d}})" = Ok pt
    /\ ParsedTemplate.wrap pt = OptWrap
    /\ ParsedTemplate.fields pt
       = [Field.Make "op" "string" "%s" "op";
          Field.Make "file" "string" "%q" "file";
          Field.Make "code" "int" "%d" "code"]
    /\ ParsedTemplate.fmt pt = "failed to %s %q (code %d)".
Proof.
  destruct (@parseTemplate_pieces Host.golib
              "failed to {{op string %s}} {{file string %q}} (code {{code int %d}})"
              [Piece "failed to " "op" "string" "%s";
               Piece " " "file" "string" "%q";
               Piece " (code " "code" "int" "%d"] ")")
    as (pt & H & W & _ & F).
  - run.
  - apply wellFormed_all. reflexivity.
  - reflexivity.
  - repeat constructor; intros [[err H]|(e & H & N)];
      vm_compute in H; try discriminate; injection H as <-;
      eapply N; repeat constructor.
  - exists pt. repeat split; [exact H | exact W | | exact F].
    assert (P : parseTemplate Host.golib
                  "failed to {{op string %s}} {{file string %q}} (code {{code int %d}})"
                = Ok (ParsedTemplate.Make OptWrap
                        [Field.Make "op" "string" "%s" "op";
                         Field.Make "file" "string" "%q" "file";
                         Field.Make "code" "int" "%d" "code"]
                        "failed to %s %q (code %d)")) by run.
    rewrite P in H. injection H as <-. reflexivity.
Defined.

(** The template of the golden test [complexField]. *)
Lemma parseTemplate_decomposes_witness :
  exists ps last,
    snd (wrapPrefix "failed for {{c.Field[0] MyStruct %s}}") = templateText ps last
    /\ FindAllStringSubmatch tmplRE
         (snd (wrapPrefix "failed for {{c.Field[0] MyStruct %s}}"))
       = map submatchOf ps
    /\ Forall accepted ps
    /\ Forall2 (fieldOf Host.golib) ps
               (ParsedTemplate.fields
                  (ParsedTemplate.Make OptWrap
                     [Field.Make "c" "MyStruct" "%s" "c.Field[0]"] "failed for %s")).
Proof.
  apply (@parseTemplate_decomposes Host.golib "failed for {{c.Field[0] MyStruct %s}}").
  run.
Defined.

Lemma placeholder_unambiguous_witness :
  "c.Field[0]" = "c.Field[0]" /\ "*pkg.MyStruct" = "*pkg.MyStruct"
  /\ "%s" = "%s" /\ " and more" = " and more".
Proof.
  assert (R : recognized "c.Field[0]" "*pkg.MyStruct" "%s") by run.
  exact (@placeholder_unambiguous "c.Field[0]" "*pkg.MyStruct" "%s" " and more"
           "c.Field[0]" "*pkg.MyStruct" "%s" " and more" R R eq_refl).
Defined.

(** The template of the golden test [noWrap]. *)
Lemma parseTemplate_literal_witness :
  (ParsedTemplate.fields (ParsedTemplate.Make NoWrap [] "some error") = []
   <-> ~ holdsToken (snd (wrapPrefix "nowrap:some error")))
  /\ (ParsedTemplate.fields (ParsedTemplate.Make NoWrap [] "some error") = [] ->
      ParsedTemplate.fmt (ParsedTemplate.Make NoWrap [] "some error")
      = snd (wrapPrefix "nowrap:some error")).
Proof.
  apply (@parseTemplate_literal Host.golib "nowrap:some error"
           (ParsedTemplate.Make NoWrap [] "some error")).
  run.
Defined.

(** ** The import block *)

Section ImportBlock.

Variable lib : GoLib.

Lemma insert_perm (x : string) (l : list string) : Permutation (insert x l) (x :: l).
Proof.
  induction l as [|y l IH]; simpl; [apply Permutation_refl|].
  destruct (String.leb x y); [apply Permutation_refl|].
  eapply Permutation_trans; [apply perm_skip, IH | apply perm_swap].
Qed.

Lemma insert_sorted (x : string) (l : list string) :
  Sorted (fun a b => String.leb a b = true) l ->
  Sorted (fun a b => String.leb a b = true) (insert x l).
Proof.
  induction 1 as [|y l S IH H]; simpl.
  - repeat constructor.
  - destruct (String.leb x y) eqn:E.
    + constructor; [constructor; assumption | constructor; exact E].
    + constructor; [exact IH|].
      assert (Y : String.leb y x = true)
        by (destruct (String.leb_total x y); congruence).
      destruct l as [|z l]; simpl.
      * constructor. exact Y.
      * inversion H; subst. destruct (String.leb x z); constructor; assumption.
Qed.

Lemma sort_Strings_sorted (l : list string) :
  Permutation (sort_Strings l) l
  /\ Sorted (fun a b => String.leb a b = true) (sort_Strings l).
Proof.
  induction l as [|x l [P S]]; simpl.
  - split; constructor.
  - split; [|apply insert_sorted, S].
    eapply Permutation_trans; [apply insert_perm | apply perm_skip, P].
Qed.

(** X15. The import block of the header lists the paths of the generator
    together with [fmt] and [errors], each quoted on a line of its own, in
    ascending byte order.  The list is a permutation: nothing is added or
    dropped, and a path given twice, or given as [fmt] or [errors], is listed
    twice. *)
Theorem header_imports (g : Generator) (l : list string) :
  let listed := sort_Strings (imports g ++ ["fmt"; "errors"]) in
  Permutation listed (imports g ++ ["fmt"; "errors"])
  /\ Sorted (fun a b => String.leb a b = true) listed
  /\ exists rest,
       header lib g l
       = (Ok (tt, withBuf g
                    (buf g ++ "// Errors generated by Gorror; DO NOT EDIT." ++ nl ++ nl
                     ++ "package " ++ pkgName g ++ nl ++ nl
                     ++ "import (" ++ nl
                     ++ join (map (fun imp => tab ++ strconv_Quote lib imp ++ nl) listed)
                     ++ ")" ++ nl ++ nl ++ rest)), l).
Proof.
  intros listed. destruct (sort_Strings_sorted (imports g ++ ["fmt"; "errors"])) as [P S].
  repeat split; [exact P | exact S |].
  eexists. rewrite header_run. unfold Preamble.common. fold listed.
  repeat rewrite app_assoc. reflexivity.
Qed.

End ImportBlock.

(** ** Names in ASCII *)

Section AsciiNames.

Variable lib : GoLib.

Local Open Scope Z_scope.

Lemma runes_cons_ASCII (c : ascii) (s : string) :
  (Utf8.byte c <? 128) = true -> runes (String c s) = Utf8.byte c :: runes s.
Proof.
  intros H. unfold runes. cbn [runesFrom]. unfold DecodeRuneInString.
  cbv zeta. rewrite H. reflexivity.
Qed.

Lemma lower_ASCII (c : ascii) :
  (Utf8.byte c <? 128) = true ->
  EncodeRune (unicode_ToLower lib (Utf8.byte c)) = String (lowerByte c) EmptyString.
Proof.
  destruct c as [[] [] [] [] [] [] [] []]; intros H;
    try discriminate H; vm_compute; reflexivity.
Qed.

Lemma upper_ASCII (c : ascii) :
  (Utf8.byte c <? 128) = true ->
  EncodeRune (unicode_ToUpper lib (Utf8.byte c)) = String (upperByte c) EmptyString.
Proof.
  destruct c as [[] [] [] [] [] [] [] []]; intros H;
    try discriminate H; vm_compute; reflexivity.
Qed.

Lemma title_ASCII (c : ascii) :
  (Utf8.byte c <? 128) = true ->
  EncodeRune (unicode_ToTitle lib (Utf8.byte c)) = String (upperByte c) EmptyString.
Proof.
  destruct c as [[] [] [] [] [] [] [] []]; intros H;
    try discriminate H; vm_compute; reflexivity.
Qed.

Lemma ident_byte (c : ascii) :
  inClass identClass c = true ->
  (Utf8.byte c <? 128) = true
  /\ isSeparator lib (Utf8.byte c) = false
  /\ inClass identClass (lowerByte c) = true
  /\ inClass identClass (upperByte c) = true
  /\ upperByte (lowerByte c) = upperByte c
  /\ upperByte (upperByte c) = upperByte c.
Proof.
  destruct c as [[] [] [] [] [] [] [] []]; intros H;
    try discriminate H; vm_compute; repeat split; reflexivity.
Qed.

Lemma ident_ASCII (s : string) : allIn identClass s = true -> isASCII s = true.
Proof.
  induction s as [|c s IH]; [reflexivity|].
  cbn [allIn isASCII]. intros H. apply andb_true_iff in H as [Hc Hs].
  destruct (ident_byte c Hc) as [A _]. rewrite A, (IH Hs). reflexivity.
Qed.

Lemma ident_runes (s : string) :
  allIn identClass s = true ->
  Forall (fun r => isSeparator lib r = false) (runes s).
Proof.
  induction s as [|c s IH]; [constructor|].
  cbn [allIn]. intros H. apply andb_true_iff in H as [Hc Hs].
  destruct (ident_byte c Hc) as (A & B & _).
  rewrite (runes_cons_ASCII c s A). constructor; [exact B | exact (IH Hs)].
Qed.

Lemma allIn_take (k : class) (s : string) : forall n,
  allIn k s = true -> allIn k (take n s) = true.
Proof.
  induction s as [|c s IH]; intros [|n] H; try reflexivity.
  cbn [take allIn] in *. apply andb_true_iff in H as [Hc Hs].
  rewrite Hc, (IH n Hs). reflexivity.
Qed.

Lemma isASCII_take (s : string) : forall n,
  isASCII s = true -> isASCII (take n s) = true.
Proof.
  induction s as [|c s IH]; intros [|n] H; try reflexivity.
  cbn [take isASCII] in *. apply andb_true_iff in H as [Hc Hs].
  rewrite Hc, (IH n Hs). reflexivity.
Qed.

Lemma structName_ASCII (g : Generator) (c : ascii) (s : string) :
  isASCII (String c s) = true ->
  structName lib g (String c s)
  = Ok (String (if makePub g then upperByte c else lowerByte c) (trimmed g s)).
Proof.
  cbn [isASCII]. intros H. apply andb_true_iff in H as [Hc Hs].
  unfold structName. rewrite (runes_cons_ASCII c s Hc).
  rewrite (ofRunes_runes_ASCII s Hs). unfold trimmed.
  destruct (makePub g).
  - rewrite (upper_ASCII c Hc). reflexivity.
  - rewrite (lower_ASCII c Hc). reflexivity.
Qed.

(** X16. On an ASCII name [structName] works byte by byte: the first byte is
    put in lower case, or in upper case under [-P], and the remainder is kept,
    less the suffix if it ends with it.  When the name is an identifier in
    ASCII, the constructor is named by the prefix [new] or [New] followed by
    that remainder behind the first byte in upper case: with no suffix, the
    spec [ErrOpen] gets the type [errOpen] and the constructor [newErrOpen]. *)
Theorem naming_ASCII (g : Generator) (c : ascii) (s : string) :
  isASCII (String c s) = true ->
  let sn := String (if makePub g then upperByte c else lowerByte c) (trimmed g s) in
  structName lib g (String c s) = Ok sn
  /\ (allIn identClass (String c s) = true ->
      constructorName lib g sn
      = (if makePub g then "New" else "new") ++ String (upperByte c) (trimmed g s)).
Proof.
  intros A sn. split; [apply structName_ASCII; exact A|].
  cbn [allIn]. intros H. apply andb_true_iff in H as [Hc Hs].
  destruct (ident_byte c Hc) as (Ac & _ & Il & Iu & Ul & Uu).
  assert (Ht : allIn identClass (trimmed g s) = true).
  { unfold trimmed, TrimSuffix.
    destruct (0 <? len (specSuffix g)); [|exact Hs].
    destruct (HasSuffix s (specSuffix g)); [apply allIn_take|]; exact Hs. }
  set (c' := if makePub g then upperByte c else lowerByte c) in *.
  assert (Ic : inClass identClass c' = true) by (subst c'; destruct (makePub g); assumption).
  assert (Uc : upperByte c' = upperByte c) by (subst c'; destruct (makePub g); assumption).
  destruct (ident_byte c' Ic) as (Ac' & Sc' & _).
  unfold constructorName, constPrefix. f_equal.
  subst sn.
  rewrite (@Title_identifier lib (String c' (trimmed g s)) (Utf8.byte c')
             (runes (trimmed g s))).
  - rewrite (title_ASCII c' Ac'), Uc, (ofRunes_runes_ASCII _ (ident_ASCII _ Ht)).
    reflexivity.
  - apply runes_cons_ASCII. exact Ac'.
  - constructor; [exact Sc' | apply ident_runes; exact Ht].
Qed.

End AsciiNames.

Lemma naming_ASCII_witness :
  structName Host.golib (Host.testGenerator false) "ErrOpen" = Ok "errOpen"
  /\ constructorName Host.golib (Host.testGenerator false) "errOpen" = "newErrOpen".
Proof.
  destruct (@naming_ASCII Host.golib (Host.testGenerator false) "E" "rrOpen" eq_refl)
    as [H1 H2].
  split; [exact H1 | exact (H2 eq_refl)].
Defined.

(** ** The paths read from the import flag *)

Section ImportPaths.

Variable env : GoEnv.

Lemma HasPrefix_comma (c : ascii) (s : string) :
  HasPrefix (String c s) "," = Ascii.eqb c ",".
Proof.
  destruct (Ascii.eqb c ",") eqn:E.
  - apply Ascii.eqb_eq in E. subst c. apply (HasPrefix_app "," s).
  - apply not_prefixed_false. intros r H. simpl in H. injection H as -> _.
    rewrite Ascii.eqb_refl in E. discriminate.
Qed.

Lemma splitFrom_plain (s : string) :
  isASCII s = true ->
  plainText (fst (splitFrom "," 0 s)) = true
  /\ Forall (fun e => plainText e = true) (snd (splitFrom "," 0 s)).
Proof.
  induction s as [|c s IH]; intros A; [split; constructor|].
  cbn [isASCII] in A. apply andb_true_iff in A as [Ac As].
  destruct (IH As) as [P F]. cbn [splitFrom]. rewrite HasPrefix_comma.
  change (String.length "," - 1)%nat with 0%nat.
  destruct (splitFrom "," 0 s) as [p ps]. cbn [fst snd] in *.
  destruct (Ascii.eqb c ",") eqn:E; cbn [fst snd].
  - split; [reflexivity | constructor; assumption].
  - split; [|exact F]. cbn [plainText]. rewrite Ac, E, P. reflexivity.
Qed.

Lemma scanLeft_plain (e : string) :
  plainText e = true ->
  exists t, scanLeft e = Stop t /\ plainText t = true
            /\ match t with
               | EmptyString => True
               | String c _ => asciiSpace (Utf8.byte c) = false
               end.
Proof.
  induction e as [|c e IH]; intros P.
  - exists EmptyString. repeat split.
  - pose proof P as P'. cbn [plainText] in P. apply andb_true_iff in P as [Pc Pe].
    apply andb_true_iff in Pc as [Pc _]. apply Z.ltb_lt in Pc.
    cbn [scanLeft].
    replace (128 <=? Utf8.byte c)%Z with false by (symmetry; apply Z.leb_gt; exact Pc).
    destruct (asciiSpace (Utf8.byte c)) eqn:S.
    + apply IH, Pe.
    + exists (String c e). repeat split; assumption.
Qed.

Lemma endsTidy_cons (c : ascii) (r : string) :
  r <> EmptyString -> endsTidy (String c r) = endsTidy r.
Proof. destruct r; [congruence | reflexivity]. Qed.

Lemma scanRight_plain (t : string) :
  plainText t = true ->
  exists u, scanRight t = Stop u /\ plainText u = true
            /\ (u = EmptyString \/ endsTidy u = true)
            /\ match t with
               | EmptyString => True
               | String c _ =>
                   asciiSpace (Utf8.byte c) = false -> exists r, u = String c r
               end.
Proof.
  induction t as [|c t IH]; intros P.
  - exists EmptyString. repeat split. left. reflexivity.
  - cbn [plainText] in P. apply andb_true_iff in P as [Pc Pt].
    destruct (IH Pt) as (u & Su & Pu & Eu & _).
    apply andb_true_iff in Pc as [Pa Pk]. pose proof Pa as Pa'.
    apply Z.ltb_lt in Pa'.
    cbn [scanRight]. rewrite Su. destruct u as [|c' u].
    + replace (128 <=? Utf8.byte c)%Z with false
        by (symmetry; apply Z.leb_gt; exact Pa').
      destruct (asciiSpace (Utf8.byte c)) eqn:S.
      * exists EmptyString. repeat split; [left; reflexivity | congruence].
      * exists (String c EmptyString). repeat split.
        -- cbn [plainText]. rewrite Pa, Pk. reflexivity.
        -- right. cbn [endsTidy]. rewrite S. reflexivity.
        -- intros _. exists EmptyString. reflexivity.
    + exists (String c (String c' u)). repeat split.
      * cbn [plainText] in *. rewrite Pa, Pk, Pu. reflexivity.
      * right. destruct Eu as [Eu|Eu]; [discriminate|].
        rewrite endsTidy_cons by discriminate. exact Eu.
      * intros _. eexists. reflexivity.
Qed.

Lemma TrimSpace_plain (e : string) :
  plainText e = true ->
  TrimSpace env e = EmptyString \/ tidy (TrimSpace env e) = true.
Proof.
  intros P. unfold TrimSpace.
  destruct (scanLeft_plain e P) as (t & -> & Pt & St).
  destruct (scanRight_plain t Pt) as (u & Su & Pu & Eu & Fu). rewrite Su.
  destruct Eu as [->|Eu]; [left; reflexivity|]. right.
  unfold tidy. rewrite Pu, Eu. cbn [andb].
  destruct t as [|c t].
  - simpl in Su. injection Su as <-. discriminate Eu.
  - destruct (Fu St) as [r ->]. rewrite St. reflexivity.
Qed.

(** X17. Whatever ASCII text the flag [-import] holds, the import paths read
    from it are tidy and sorted: each is not empty, holds no comma, and neither
    starts nor ends with a space. *)
Theorem importList_tidy (s : string) :
  isASCII s = true ->
  Forall (fun x => tidy x = true) (importList env s)
  /\ Sorted (fun a b => String.leb a b = true) (importList env s).
Proof.
  intros A. unfold importList. rewrite fold_imports. cbn [List.app].
  split; [|apply sort_Strings_sorted].
  eapply Permutation_Forall; [apply Permutation_sym, sort_Strings_sorted|].
  unfold Split. destruct (splitFrom_plain s A) as [P F].
  destruct (splitFrom "," 0 s) as [p ps]. cbn [fst snd] in *.
  assert (G : Forall (fun e => plainText e = true) (p :: ps))
    by (constructor; assumption).
  clear P F. induction G as [|e es Pe G IH]; [constructor|].
  cbn [map filter].
  destruct (TrimSpace_plain e Pe) as [E|E].
  - rewrite E. exact IH.
  - destruct (TrimSpace env e) as [|c r] eqn:T; [discriminate|].
    cbn [len String.length]. 
    replace (0 <? Z.of_nat (S (String.length r)))%Z with true
      by (symmetry; apply Z.ltb_lt; lia).
    constructor; [exact E | exact IH].
Qed.

End ImportPaths.

(** [-import ",, a b ,x"] *)
Lemma importList_tidy_witness :
  Forall (fun x => tidy x = true) (importList (HostSys.goenv []) ",, a b ,x")
  /\ Sorted (fun a b => String.leb a b = true)
            (importList (HostSys.goenv []) ",, a b ,x").
Proof. apply importList_tidy. reflexivity. Defined.

(** ** Names in UTF-8 *)

Section Utf8Facts.

Local Open Scope Z_scope.

Lemma byte_range (c : ascii) : 0 <= Utf8.byte c < 256.
Proof. unfold Utf8.byte. pose proof (N_ascii_bounded c). lia. Qed.

Lemma lor_add (m n k b : Z) :
  0 <= n -> m = 2 ^ n -> 0 <= b < m -> Z.lor (k * m) b = k * m + b.
Proof.
  intros Hn -> Hb. rewrite <- Z.shiftl_mul_pow2 by exact Hn.
  assert (L : Z.land (Z.shiftl k n) b = 0).
  { apply Z.bits_inj'. intros i Hi. rewrite Z.land_spec, Z.testbit_0_l.
    destruct (Z.ltb_spec i n) as [Lt|Ge].
    - rewrite Z.shiftl_spec_low by exact Lt. reflexivity.
    - assert (Z.testbit b i = false) as ->; [|apply andb_false_r].
      destruct (Z.eq_dec b 0) as [->|Nz]; [apply Z.testbit_0_l|].
      apply Z.bits_above_log2; [lia|].
      assert (Z.log2 b < n) by (apply Z.log2_lt_pow2; lia). lia. }
  rewrite <- Z.lxor_lor by exact L. symmetry. apply Z.add_nocarry_lxor. exact L.
Qed.

Lemma land_low (b n m : Z) : 0 <= n -> m = 2 ^ n - 1 -> Z.land b m = b mod 2 ^ n.
Proof.
  intros Hn ->. rewrite <- Z.land_ones by exact Hn. f_equal.
  rewrite Z.ones_equiv. lia.
Qed.

Ltac bits :=
  repeat first
    [ rewrite (@land_low _ 6 63) by (lia || reflexivity)
    | rewrite (@land_low _ 5 31) by (lia || reflexivity)
    | rewrite (@land_low _ 4 15) by (lia || reflexivity)
    | rewrite (@land_low _ 3 7) by (lia || reflexivity)
    | rewrite Z.shiftl_mul_pow2 by lia
    | rewrite Z.shiftr_div_pow2 by lia ];
  change (2 ^ 3) with 8; change (2 ^ 4) with 16; change (2 ^ 5) with 32;
  change (2 ^ 6) with 64; change (2 ^ 12) with 4096; change (2 ^ 18) with 262144.

Ltac arith := Z.div_mod_to_equations; lia.

Lemma EncodeRune_1 (r : rune) :
  0 <= r <= 127 -> EncodeRune r = String (Utf8.chr r) EmptyString.
Proof.
  intros H. unfold EncodeRune.
  destruct (Z.ltb_spec r 0); [lia|]. destruct (Z.leb_spec r 127); [reflexivity|lia].
Qed.

Lemma EncodeRune_2 (r : rune) :
  128 <= r <= 2047 ->
  EncodeRune r
  = String (Utf8.chr (192 + r / 64)) (String (Utf8.chr (128 + r mod 64)) EmptyString).
Proof.
  intros H. unfold EncodeRune.
  destruct (Z.ltb_spec r 0); [lia|]. destruct (Z.leb_spec r 127); [lia|].
  destruct (Z.leb_spec r 2047); [|lia]. bits.
  change 192 with (3 * 64). rewrite (@lor_add 64 6) by (lia || reflexivity || arith).
  change 128 with (2 * 64). rewrite (@lor_add 64 6) by (lia || reflexivity || arith).
  reflexivity.
Qed.

Lemma EncodeRune_3 (r : rune) :
  2048 <= r <= 65535 -> ~ 55296 <= r <= 57343 ->
  EncodeRune r
  = String (Utf8.chr (224 + r / 4096))
   (String (Utf8.chr (128 + (r / 64) mod 64))
   (String (Utf8.chr (128 + r mod 64)) EmptyString)).
Proof.
  intros H S. unfold EncodeRune, MaxRune, Utf8.between.
  destruct (Z.ltb_spec r 0); [lia|]. destruct (Z.leb_spec r 127); [lia|].
  destruct (Z.leb_spec r 2047); [lia|].
  destruct (Z.ltb_spec 1114111 r); [lia|].
  destruct (Z.leb_spec 55296 r), (Z.leb_spec r 57343); try lia;
    cbn [orb andb]; (destruct (Z.leb_spec r 65535); [|lia]); bits;
    change 224 with (14 * 16);
    rewrite (@lor_add 16 4) by (lia || reflexivity || arith);
    change 128 with (2 * 64);
    rewrite !(@lor_add 64 6) by (lia || reflexivity || arith);
    reflexivity.
Qed.

Lemma EncodeRune_4 (r : rune) :
  65536 <= r <= 1114111 ->
  EncodeRune r
  = String (Utf8.chr (240 + r / 262144))
   (String (Utf8.chr (128 + (r / 4096) mod 64))
   (String (Utf8.chr (128 + (r / 64) mod 64))
   (String (Utf8.chr (128 + r mod 64)) EmptyString))).
Proof.
  intros H. unfold EncodeRune, MaxRune, Utf8.between.
  destruct (Z.ltb_spec r 0); [lia|]. destruct (Z.leb_spec r 127); [lia|].
  destruct (Z.leb_spec r 2047); [lia|].
  destruct (Z.ltb_spec 1114111 r); [lia|].
  destruct (Z.leb_spec 55296 r), (Z.leb_spec r 57343); try lia;
    cbn [orb andb]; (destruct (Z.leb_spec r 65535); [lia|]); bits;
    change 240 with (30 * 8);
    rewrite (@lor_add 8 3) by (lia || reflexivity || arith);
    change 128 with (2 * 64);
    rewrite !(@lor_add 64 6) by (lia || reflexivity || arith);
    reflexivity.
Qed.

Lemma rune2_arith (b0 b1 : Z) :
  192 <= b0 <= 223 -> 128 <= b1 <= 191 ->
  Z.lor (Z.shiftl (Z.land b0 31) 6) (Z.land b1 63) = (b0 - 192) * 64 + (b1 - 128).
Proof.
  intros H0 H1. bits.
  rewrite (@lor_add 64 6) by (lia || reflexivity || arith). arith.
Qed.

Lemma rune3_arith (b0 b1 b2 : Z) :
  224 <= b0 <= 239 -> 128 <= b1 <= 191 -> 128 <= b2 <= 191 ->
  Z.lor (Z.lor (Z.shiftl (Z.land b0 15) 12) (Z.shiftl (Z.land b1 63) 6))
        (Z.land b2 63)
  = (b0 - 224) * 4096 + (b1 - 128) * 64 + (b2 - 128).
Proof.
  intros H0 H1 H2. bits.
  rewrite (@lor_add 4096 12) by (lia || reflexivity || arith).
  replace (b0 mod 16 * 4096 + b1 mod 64 * 64)
    with ((b0 mod 16 * 64 + b1 mod 64) * 64) by lia.
  rewrite (@lor_add 64 6) by (lia || reflexivity || arith). arith.
Qed.

Lemma rune4_arith (b0 b1 b2 b3 : Z) :
  240 <= b0 <= 247 -> 128 <= b1 <= 191 -> 128 <= b2 <= 191 -> 128 <= b3 <= 191 ->
  Z.lor (Z.lor (Z.lor (Z.shiftl (Z.land b0 7) 18) (Z.shiftl (Z.land b1 63) 12))
               (Z.shiftl (Z.land b2 63) 6))
        (Z.land b3 63)
  = (b0 - 240) * 262144 + (b1 - 128) * 4096 + (b2 - 128) * 64 + (b3 - 128).
Proof.
  intros H0 H1 H2 H3. bits.
  rewrite (@lor_add 262144 18) by (lia || reflexivity || arith).
  replace (b0 mod 8 * 262144 + b1 mod 64 * 4096)
    with ((b0 mod 8 * 64 + b1 mod 64) * 4096) by lia.
  rewrite (@lor_add 4096 12) by (lia || reflexivity || arith).
  replace ((b0 mod 8 * 64 + b1 mod 64) * 4096 + b2 mod 64 * 64)
    with (((b0 mod 8 * 64 + b1 mod 64) * 64 + b2 mod 64) * 64) by lia.
  rewrite (@lor_add 64 6) by (lia || reflexivity || arith). arith.
Qed.

Lemma between_spec (lo hi b : Z) : Utf8.between lo hi b = true <-> lo <= b <= hi.
Proof. unfold Utf8.between. rewrite andb_true_iff, !Z.leb_le. tauto. Qed.

Lemma second_cases (b0 : Z) (sz : nat) (lo hi : Z) :
  Utf8.second b0 = Some (sz, lo, hi) ->
  128 <= lo /\ hi <= 191
  /\ ((sz = 2%nat /\ 194 <= b0 <= 223)
      \/ (sz = 3%nat /\ 224 <= b0 <= 239
          /\ (b0 = 224 -> 160 <= lo) /\ (b0 = 237 -> hi <= 159))
      \/ (sz = 4%nat /\ 240 <= b0 <= 244
          /\ (b0 = 240 -> 144 <= lo) /\ (b0 = 244 -> hi <= 143))).
Proof.
  unfold Utf8.second.
  repeat match goal with
         | |- context [if Utf8.between ?a ?b ?c then _ else _] =>
             let E := fresh "E" in
             destruct (Utf8.between a b c) eqn:E;
             [apply between_spec in E|]
         | |- context [if ?a =? ?b then _ else _] =>
             destruct (Z.eqb_spec a b)
         end;
    intros H; try discriminate H; injection H as <- <- <-;
    repeat split; try lia;
    first [ left; repeat split; lia
          | right; left; repeat split; lia
          | right; right; repeat split; lia ].
Qed.

Lemma chr_is (c : ascii) (b : Z) : b = Utf8.byte c -> Utf8.chr b = c.
Proof. intros ->. apply chr_byte. Qed.

Local Opaque Z.shiftl Z.shiftr Z.land Z.lor.

(** A step of the decoder that is no encoding error reads the encoding of the
    rune it returns. *)
Lemma decode_encode (c0 : ascii) (s1 : string) (r : rune) (w : nat) :
  DecodeRuneInString (String c0 s1) = (r, w) ->
  ((r =? RuneError) && (w =? 1)%nat) = false ->
  EncodeRune r = take w (String c0 s1) /\ (1 <= w)%nat.
Proof.
  pose proof (byte_range c0) as R0.
  unfold DecodeRuneInString. cbv zeta.
  destruct (Z.ltb_spec (Utf8.byte c0) 128) as [A|A].
  { intros H _. injection H as <- <-. split; [|lia].
    rewrite EncodeRune_1 by lia. rewrite chr_byte. reflexivity. }
  destruct (Utf8.second (Utf8.byte c0)) as [[[sz lo] hi]|] eqn:E;
    [|intros H N; injection H as <- <-; discriminate N].
  apply second_cases in E as (Hlo & Hhi & E).
  destruct s1 as [|c1 s2]; [intros H N; injection H as <- <-; discriminate N|].
  destruct (Utf8.between lo hi (Utf8.byte c1)) eqn:B1; cbn [negb];
    [|intros H N; injection H as <- <-; discriminate N].
  apply between_spec in B1.
  destruct E as [(-> & H0)|[(-> & H0 & Hl & Hh)|(-> & H0 & Hl & Hh)]];
    cbn [Nat.leb].
  - intros H _. injection H as <- <-. split; [|lia].
    rewrite rune2_arith by lia. rewrite EncodeRune_2 by lia.
    cbn [take]. repeat f_equal; apply chr_is; arith.
  - destruct s2 as [|c2 s3]; [intros H N; injection H as <- <-; discriminate N|].
    destruct (Utf8.cont (Utf8.byte c2)) eqn:B2; cbn [negb];
      [|intros H N; injection H as <- <-; discriminate N].
    apply between_spec in B2.
    intros H _. injection H as <- <-. split; [|lia].
    rewrite rune3_arith by lia. rewrite EncodeRune_3 by lia.
    cbn [take]. repeat f_equal; apply chr_is; arith.
  - destruct s2 as [|c2 s3]; [intros H N; injection H as <- <-; discriminate N|].
    destruct (Utf8.cont (Utf8.byte c2)) eqn:B2; cbn [negb];
      [|intros H N; injection H as <- <-; discriminate N].
    apply between_spec in B2.
    destruct s3 as [|c3 s4]; [intros H N; injection H as <- <-; discriminate N|].
    destruct (Utf8.cont (Utf8.byte c3)) eqn:B3; cbn [negb];
      [|intros H N; injection H as <- <-; discriminate N].
    apply between_spec in B3.
    intros H _. injection H as <- <-. split; [|lia].
    rewrite rune4_arith by lia. rewrite EncodeRune_4 by lia.
    cbn [take]. repeat f_equal; apply chr_is; arith.
Qed.

Local Transparent Z.shiftl Z.shiftr Z.land Z.lor.

(** An encoding error is a byte that is written back as the three bytes of
    U+FFFD. *)
Lemma decode_error (s : string) (r : rune) (w : nat) :
  DecodeRuneInString s = (r, w) ->
  ((r =? RuneError) && (w =? 1)%nat) = true ->
  String.length (EncodeRune r) = 3%nat /\ w = 1%nat.
Proof.
  intros _ N. apply andb_true_iff in N as [Nr Nw].
  apply Z.eqb_eq in Nr. apply Nat.eqb_eq in Nw. subst. split; reflexivity.
Qed.

Lemma length_drop (n : nat) (s : string) :
  String.length (drop n s) = (String.length s - n)%nat.
Proof.
  revert n. induction s as [|c s IH]; intros [|n]; simpl; auto.
Qed.

Lemma length_take_min (n : nat) (s : string) :
  String.length (take n s) = Nat.min n (String.length s).
Proof.
  revert s. induction n as [|n IH]; intros [|c s]; simpl; auto.
Qed.

Lemma ofRunes_valid (s : string) : forall k,
  validFrom k s = true -> ofRunes (runesFrom k s) = drop k s.
Proof.
  induction s as [|c s IH]; intros k V; [destruct k; reflexivity|].
  destruct k as [|k]; [|apply (IH k V)].
  cbn [validFrom runesFrom] in *.
  destruct (DecodeRuneInString (String c s)) as [r w] eqn:D.
  apply andb_true_iff in V as [N V]. apply negb_true_iff in N.
  destruct (decode_encode c s D N) as [E W].
  cbn [ofRunes]. rewrite E, (IH _ V). cbn [drop].
  destruct w as [|w]; [lia|]. replace (S w - 1)%nat with w by lia.
  cbn [take append]. f_equal. apply take_drop.
Qed.

Lemma ofRunes_longer (s : string) : forall k,
  (String.length (drop k s) <= String.length (ofRunes (runesFrom k s)))%nat
  /\ (validFrom k s = false ->
      (String.length (drop k s) < String.length (ofRunes (runesFrom k s)))%nat).
Proof.
  induction s as [|c s IH]; intros k.
  - destruct k; simpl; split; (lia || discriminate).
  - destruct k as [|k]; [|apply (IH k)].
    cbn [validFrom runesFrom drop].
    destruct (DecodeRuneInString (String c s)) as [r w] eqn:D.
    destruct (IH (w - 1)%nat) as [L St]. rewrite length_drop in L, St.
    cbn [ofRunes]. rewrite length_app. cbn [String.length].
    destruct ((r =? RuneError) && (w =? 1)%nat) eqn:N; cbn [negb andb].
    + destruct (decode_error _ D N) as [E ->]. rewrite E.
      split; [lia | intros _; lia].
    + destruct (decode_encode c s D N) as [E W]. rewrite E.
      rewrite length_take_min. cbn [String.length].
      split; [lia|]. intros V. specialize (St V). lia.
Qed.

End Utf8Facts.

(** ** C9: the naming policy *)

Section NamingPolicy.

Variable lib : GoLib.

Local Open Scope Z_scope.

Lemma caseOfFirst_unicode (pub : bool) (r : rune) :
  (if pub then unicode_ToUpper lib r else unicode_ToLower lib r)
  = caseOfFirst lib pub r.
Proof.
  unfold caseOfFirst, unicode_ToUpper, unicode_ToLower, MaxASCII.
  destruct (r <? 128) eqn:A.
  - apply Z.ltb_lt in A.
    replace (r <=? 127) with true by (symmetry; apply Z.leb_le; lia).
    destruct pub; reflexivity.
  - apply Z.ltb_ge in A.
    replace (r <=? 127) with false by (symmetry; apply Z.leb_gt; lia).
    destruct pub; reflexivity.
Qed.

Lemma structName_valid (g : Generator) (specName : string) (r0 : rune) (w : nat) :
  specName <> EmptyString ->
  ValidString specName = true ->
  DecodeRuneInString specName = (r0, w) ->
  specName = EncodeRune r0 ++ drop w specName
  /\ structName lib g specName
     = Ok (EncodeRune (caseOfFirst lib (makePub g) r0) ++ trimmed g (drop w specName)).
Proof.
  intros N V D. destruct specName as [|c s]; [congruence|].
  unfold ValidString in V. cbn [validFrom] in V. rewrite D in V.
  apply andb_true_iff in V as [Nv V]. apply negb_true_iff in Nv.
  destruct (decode_encode c s D Nv) as [En W]. split.
  - rewrite En. symmetry. apply take_drop.
  - unfold structName, runes. cbn [runesFrom]. rewrite D.
    rewrite (ofRunes_valid s (w - 1) V). unfold trimmed.
    rewrite <- caseOfFirst_unicode.
    destruct w as [|w]; [lia|]. replace (S w - 1)%nat with w by lia.
    cbn [drop]. destruct (makePub g); reflexivity.
Qed.

(** C9, as the code has it.  Take a spec name that is not empty and is valid
    UTF-8, its first rune [r0], over [w] bytes, and the bytes [rest] behind
    it.  The
    declared-type name is [r0] in lower case -- in upper case when [makePub]
    -- followed by [rest]; when [specSuffix] is not empty and [rest] ends with
    it, the suffix is taken from the end of [rest], once.  The spec name is
    [r0] followed by [rest]: with an empty suffix the two names differ in the
    case of the first rune only. *)
Theorem structName_spec (g : Generator) (specName : string) (r0 : rune) (w : nat) :
  specName <> EmptyString ->
  ValidString specName = true ->
  DecodeRuneInString specName = (r0, w) ->
  let first := EncodeRune (caseOfFirst lib (makePub g) r0) in
  let rest := drop w specName in
  specName = EncodeRune r0 ++ rest
  /\ (specSuffix g = EmptyString ->
      structName lib g specName = Ok (first ++ rest))
  /\ (forall stem, specSuffix g <> EmptyString -> rest = stem ++ specSuffix g ->
                   structName lib g specName = Ok (first ++ stem))
  /\ (specSuffix g <> EmptyString -> (forall stem, rest <> stem ++ specSuffix g) ->
      structName lib g specName = Ok (first ++ rest)).
Proof.
  intros N V D first rest.
  destruct (structName_valid g N V D) as [E R]. fold first rest in E, R.
  rewrite R. unfold trimmed. repeat apply conj.
  - exact E.
  - intros ->. reflexivity.
  - intros stem Ns ->. apply nonempty_length in Ns. apply Z.ltb_lt in Ns.
    rewrite Ns. now rewrite TrimSuffix_app.
  - intros Ns H. apply nonempty_length in Ns. apply Z.ltb_lt in Ns.
    rewrite Ns. now rewrite TrimSuffix_other.
Qed.

End NamingPolicy.

(** A public type for [errOpenErrErr] with the suffix [Err], and a type that
    is not public for [ErrOpen] with no suffix. *)
Lemma structName_spec_witness :
  structName Host.golib
    {| typeName := "Err"; compatIs := false; makePub := true;
       specSuffix := "Err"; imports := []; buf := EmptyString;
       specs := []; pkgName := "main" |} "errOpenErrErr" = Ok "ErrOpenErr"
  /\ structName Host.golib
       {| typeName := "Err"; compatIs := false; makePub := false;
          specSuffix := EmptyString; imports := []; buf := EmptyString;
          specs := []; pkgName := "main" |} "ErrOpen" = Ok "errOpen".
Proof.
  split.
  - refine (proj1 (proj2 (proj2
              (@structName_spec Host.golib
                 {| typeName := "Err"; compatIs := false; makePub := true;
                    specSuffix := "Err"; imports := []; buf := EmptyString;
                    specs := []; pkgName := "main" |}
                 "errOpenErrErr" 101%Z 1%nat _ _ _))) "rrOpenErr" _ _).
    + discriminate.
    + run.
    + run.
    + discriminate.
    + run.
  - refine (proj1 (proj2
              (@structName_spec Host.golib
                 {| typeName := "Err"; compatIs := false; makePub := false;
                    specSuffix := EmptyString; imports := []; buf := EmptyString;
                    specs := []; pkgName := "main" |}
                 "ErrOpen" 69%Z 1%nat _ _ _)) _).
    + discriminate.
    + run.
    + run.
    + reflexivity.
Defined.

(** C9 as the specification states it fails on a spec name that is not valid
    UTF-8.  In the name [A] followed by the byte 255, that byte is no
    encoding: [[]rune] reads it as U+FFFD, which [string] writes as the bytes
    239, 191 and 189.  With no suffix and a type that is not public the
    declared-type name is [a] followed by these three bytes: it differs from
    the spec name behind the first rune too. *)
Lemma structName_counterexample :
  ValidString (String "A" (String "255" EmptyString)) = false
  /\ structName Host.golib
       {| typeName := "Err"; compatIs := false; makePub := false;
          specSuffix := EmptyString; imports := []; buf := EmptyString;
          specs := []; pkgName := "main" |}
       (String "A" (String "255" EmptyString))
     = Ok (String "a" (String "239" (String "191" (String "189" EmptyString)))).
Proof.
  split; vm_compute; reflexivity.
Qed.

Section Utf8Names.

Variable lib : GoLib.

(** X18. Converting a name to runes and back gives the name itself exactly
    when the name is valid UTF-8.  On a valid name that is not empty,
    [structName] therefore maps the case of the first rune and keeps the bytes
    after it, less the suffix if they end with it. *)
Theorem structName_utf8 (g : Generator) (name : string) (r0 : rune) (w : nat) :
  name <> EmptyString ->
  DecodeRuneInString name = (r0, w) ->
  (ofRunes (runes name) = name <-> ValidString name = true)
  /\ (ValidString name = true ->
      structName lib g name
      = Ok (EncodeRune (if makePub g then unicode_ToUpper lib r0
                        else unicode_ToLower lib r0)
            ++ trimmed g (drop w name))).
Proof.
  intros N D. split.
  - split.
    + intros E. destruct (ValidString name) eqn:V; [reflexivity|].
      destruct (ofRunes_longer name 0) as [_ St]. specialize (St V).
      unfold runes in E. rewrite E in St. cbn [drop] in St. lia.
    + intros V. apply (ofRunes_valid name 0 V).
  - intros V. destruct name as [|c s]; [congruence|].
    unfold ValidString in V. cbn [validFrom] in V. rewrite D in V.
    apply andb_true_iff in V as [Nv V]. apply negb_true_iff in Nv.
    destruct (decode_encode c s D Nv) as [_ W].
    unfold structName, runes. cbn [runesFrom]. rewrite D.
    rewrite (ofRunes_valid s (w - 1) V). unfold trimmed.
    destruct w as [|w]; [lia|]. replace (S w - 1)%nat with w by lia.
    cbn [drop]. destruct (makePub g); reflexivity.
Qed.

End Utf8Names.

(** The name [Érreur], in UTF-8. *)
Lemma structName_utf8_witness :
  (ofRunes (runes (String "195" (String "137" "rreur")))
   = String "195" (String "137" "rreur")
   <-> ValidString (String "195" (String "137" "rreur")) = true)
  /\ (ValidString (String "195" (String "137" "rreur")) = true ->
      structName Host.golib (Host.testGenerator false)
                 (String "195" (String "137" "rreur"))
      = Ok (EncodeRune (if makePub (Host.testGenerator false)
                        then unicode_ToUpper Host.golib 201%Z
                        else unicode_ToLower Host.golib 201%Z)
            ++ trimmed (Host.testGenerator false)
                       (drop 2 (String "195" (String "137" "rreur"))))).
Proof.
  apply (@structName_utf8 Host.golib (Host.testGenerator false)
           (String "195" (String "137" "rreur")) 201%Z 2%nat).
  - discriminate.
  - run.
Defined.

